(** * A CLRS B-tree over a pointer heap: search, insert, splitChild, checkInvariances

    The Go program keeps its nodes behind pointers ([*node]) and updates them
    in place; the slices [items] and [children] of a node are allocated once,
    at full capacity, by [newNode], and only a prefix of them is live (the
    first [n] items, the first [n+1] children).  Slots beyond the live prefix
    keep whatever was written there before: after [splitChild] the left half
    still carries the moved items and the pointers to the moved children.

    The embedding therefore has
    - a heap of node records, addressed by [nat]; a pointer is an
      [option addr], [None] being Go's [nil];
    - a state-and-panic monad [M]: every Go runtime failure (index out of
      range, slice bounds, nil dereference, the explicit [panic] calls) is a
      [Panic] result, distinct from [OutOfFuel];
    - Go's [int] as [Z].  The minimum degree [t] is the one integer that
      comes from outside: [newNode], where it enters, computes [2*t-1] and
      [2*t] with the wrap-around of a 64-bit [int], and [make] panics as
      the runtime's [makeslice] does when the slice would be longer than
      the allocator can address ([maxAlloc], for linux/amd64).  Every other
      integer the program computes is a length of a slice that [make]
      returned, an index into one or a count of inserted items, and is
      written without wrap-around.  Running out of memory below
      [maxAlloc] is a fatal error of the runtime and outside this model.

    The file has five parts: the program, the vocabulary in which its
    behaviour is stated (the tree behind a pointer, the B-tree conditions,
    the list view of an insertion), the lemmas about each function, the
    theorems about the public operations, and further properties of the
    program ([insertAt], [search], runs of inserts, the checker).  *)

From Stdlib Require Import ZArith Lia List Sorted.
From stdpp Require Import base list sets sorting.

Set Warnings "-register-all".

(** ** Results and the heap monad *)

Inductive panic :=
| IndexOutOfRange     (* s[i] with i outside 0..len(s)-1 *)
| SliceBounds         (* s[i:] with i outside 0..len(s) *)
| NilDereference      (* field access through a nil *node *)
| DanglingPointer     (* an address the heap does not hold; Go never makes one *)
| MakeSliceLen        (* make([]T, k) with k < 0 or k too large to allocate *)
| InvalidMinDegree    (* panic("invalid minimum degree for btree, t must be >= 2") *)
| InvalidItem.        (* panic("invalid item type for comparison"): compare with nil *)

Inductive result (A : Type) :=
| Ok (a : A)
| Panic (e : panic)
| OutOfFuel.
Arguments Ok {A} a.
Arguments Panic {A} e.
Arguments OutOfFuel {A}.

Definition rbind {A B} (r : result A) (k : A -> result B) : result B :=
  match r with
  | Ok a => k a
  | Panic e => Panic e
  | OutOfFuel => OutOfFuel
  end.

Abbreviation addr := nat (only parsing).
Abbreviation ptr := (option nat) (only parsing).

Record node (item : Type) := mkNode {
  isLeaf : bool;
  n : Z;                          (* tracks no. of items in a node *)
  items : list (option item);
  children : list ptr
}.
Arguments mkNode {item} _ _ _ _.
Arguments isLeaf {item} _.
Arguments n {item} _.
Arguments items {item} _.
Arguments children {item} _.

Record btree := mkBTree {
  root : ptr;
  t : Z;
  len : Z
}.

Abbreviation heap item := (list (node item)).

Definition M (item A : Type) := heap item -> result (A * heap item).

Definition ret {item A} (a : A) : M item A := fun h => Ok (a, h).

Definition bind {item A B} (m : M item A) (k : A -> M item B) : M item B :=
  fun h => match m h with
           | Ok (a, h') => k a h'
           | Panic e => Panic e
           | OutOfFuel => OutOfFuel
           end.

Definition lift {item A} (r : result A) : M item A :=
  fun h => match r with
           | Ok a => Ok (a, h)
           | Panic e => Panic e
           | OutOfFuel => OutOfFuel
           end.

Declare Scope go_scope.
Delimit Scope go_scope with go.
Notation "x <- m ;; k" := (bind m (fun x => k))
  (at level 100, m at next level, right associativity) : go_scope.
Notation "m ;;; k" := (bind m (fun _ => k))
  (at level 100, right associativity) : go_scope.
Local Open Scope go_scope.

(** ** Go slices of fixed length *)

(** A 64-bit [int]: the value that [z] wraps around to. *)
Definition int64 (z : Z) : Z := ((z + 2 ^ 63) mod 2 ^ 64 - 2 ^ 63)%Z.

(** The largest allocation of the runtime, in bytes, and the sizes of an
    interface value and of a pointer. *)
Definition maxAlloc : Z := (2 ^ 48)%Z.
Definition itemSize : Z := 16.
Definition pointerSize : Z := 8.

Section Slices.
Context {A : Type}.

(** [make([]T, k)] for elements of [size] bytes: [k] zero values;
    [makeslice] panics when [k] is negative or [size * k] is beyond
    [maxAlloc]. *)
Definition make (size : Z) (zero : A) (k : Z) : result (list A) :=
  if ((k <? 0) || (maxAlloc <? size * k))%Z then Panic MakeSliceLen
  else Ok (replicate (Z.to_nat k) zero).

(** [s[i]] *)
Definition index (s : list A) (i : Z) : result A :=
  if (i <? 0)%Z then Panic IndexOutOfRange
  else match s !! Z.to_nat i with
       | Some a => Ok a
       | None => Panic IndexOutOfRange
       end.

(** [s[i] = a] *)
Definition assign (s : list A) (i : Z) (a : A) : result (list A) :=
  if ((0 <=? i)%Z && (i <? Z.of_nat (length s))%Z)%bool
  then Ok (<[Z.to_nat i := a]> s)
  else Panic IndexOutOfRange.

(** [s[i:]] *)
Definition slice_from (s : list A) (i : Z) : result (list A) :=
  if ((0 <=? i)%Z && (i <=? Z.of_nat (length s))%Z)%bool
  then Ok (drop (Z.to_nat i) s)
  else Panic SliceBounds.

(** [copy(dst, src)]: the first [min(len(dst), len(src))] elements of
    [src] overwrite the start of [dst]; the value is the new [dst]. *)
Definition copy (dst src : list A) : list A :=
  take (length dst) src ++ drop (length src) dst.

(** [copy(s[d:], s[k:])] on one slice [s] (memmove: the source is read
    as it was before the call); the value is the new [s]. *)
Definition copy_within (s : list A) (d k : Z) : result (list A) :=
  rbind (slice_from s d) (fun dst =>
  rbind (slice_from s k) (fun src =>
  Ok (take (Z.to_nat d) s ++ copy dst src))).
End Slices.

(** ** The program *)

Definition greaterThan : Z := 1.
Definition equal : Z := 0.
Definition lessThan : Z := -1.

Section Program.
Context {item : Type}.
(** [x.compare(y)] for non-nil [x] and [y]. *)
Variable compare : item -> item -> Z.

Local Abbreviation node := (node item).
Local Abbreviation heap := (heap item).
Local Abbreviation M := (M item).

Definition with_n (v : Z) (nd : node) : node :=
  mkNode (isLeaf nd) v (items nd) (children nd).
Definition with_items (v : list (option item)) (nd : node) : node :=
  mkNode (isLeaf nd) (n nd) v (children nd).
Definition with_children (v : list ptr) (nd : node) : node :=
  mkNode (isLeaf nd) (n nd) (items nd) v.

(** Reading through a [*node]. *)
Definition deref (p : ptr) : M node :=
  fun h => match p with
           | None => Panic NilDereference
           | Some a => match h !! a with
                       | Some nd => Ok (nd, h)
                       | None => Panic DanglingPointer
                       end
           end.

(** Writing through a [*node]: the node is read, changed by [f] (which
    may panic, as an indexed assignment does) and written back. *)
Definition update (p : ptr) (f : node -> result node) : M unit :=
  nd <- deref p ;;
  nd' <- lift (f nd) ;;
  fun h => match p with
           | Some a => Ok (tt, <[a := nd']> h)
           | None => Panic NilDereference
           end.

(** [&node{...}] *)
Definition alloc (nd : node) : M ptr :=
  fun h => Ok (Some (length h), h ++ [nd]).

(** [2*t-1] and [2*t] are computed in Go's [int], of 64 bits. *)
Definition newNode (t : Z) (isLeaf : bool) : M ptr :=
  its <- lift (make itemSize None (int64 (int64 (2 * t) - 1))) ;;
  cs <- (if isLeaf then ret [] else lift (make pointerSize None (int64 (2 * t)))) ;;
  alloc (mkNode isLeaf 0 its cs).

(** [x.compare(s)] where [s] is read from a slot: a nil operand fails
    the type assertion of [compare]. *)
Definition compare_slot (x : item) (s : option item) : result Z :=
  match s with
  | Some y => Ok (compare x y)
  | None => Panic InvalidItem
  end.

(** The loop shared by [search], [insertLeaf] and [insert]:
    [for i = 0; i < n.n; i++ { switch x.compare(n.items[i]) {...} }]
    leaves the loop at the first [equal] or [lessThan] and goes on
    otherwise.  [rem] counts the iterations that are left, [i] is the
    loop variable; the body does not write [n.n]. *)
Inductive scan_stop :=
| AtEqual (i : Z) (curr : item)
| AtLess (i : Z)
| AtEnd (i : Z).

Fixpoint scan (x : item) (its : list (option item)) (rem : nat) (i : Z)
  : result scan_stop :=
  match rem with
  | O => Ok (AtEnd i)
  | S rem' =>
      rbind (index its i) (fun s =>
      rbind (compare_slot x s) (fun r =>
      if (r =? equal)%Z then
        match s with Some c => Ok (AtEqual i c) | None => Panic InvalidItem end
      else if (r =? lessThan)%Z then Ok (AtLess i)
      else scan x its rem' (i + 1)))
  end.

Fixpoint search (fuel : nat) (p : ptr) (x : item) : M (option item) :=
  match fuel with
  | O => fun _ => OutOfFuel
  | S fuel' =>
      nd <- deref p ;;
      st <- lift (scan x (items nd) (Z.to_nat (n nd)) 0) ;;
      match st with
      | AtEqual i _ => lift (index (items nd) i)
      | AtLess i =>
          c <- lift (index (children nd) i) ;;
          search fuel' c x
      | AtEnd _ =>
          if isLeaf nd then ret None
          else
            let lastChildIndex := (Z.of_nat (length (children nd)) - 1)%Z in
            c <- lift (index (children nd) lastChildIndex) ;;
            search fuel' c x
      end
  end.

Definition insertLeaf (p : ptr) (newItem : item) : M (option item) :=
  nd <- deref p ;;
  st <- lift (scan newItem (items nd) (Z.to_nat (n nd)) 0) ;;
  let '(i, prev) :=
    match st with
    | AtEqual i curr => (i, Some curr)
    | AtLess i => (i, None)
    | AtEnd i => (i, None)
    end in
  (match st with
   | AtLess i =>
       update p (fun nd =>
         rbind (copy_within (items nd) (i + 1) i) (fun its =>
         Ok (with_items its nd)))
   | _ => ret tt
   end) ;;;
  update p (fun nd =>
    rbind (assign (items nd) i (Some newItem)) (fun its =>
    Ok (with_items its nd))) ;;;
  (match prev with
   | None => update p (fun nd => Ok (with_n (n nd + 1) nd))
   | Some _ => ret tt
   end) ;;;
  ret prev.

Definition splitChild (p : ptr) (t i : Z) : M (option item) :=
  nd <- deref p ;;
  y <- lift (index (children nd) i) ;;
  ynd <- deref y ;;
  median <- lift (index (items ynd) (t - 1)) ;;
  z <- newNode t (isLeaf ynd) ;;
  ynd <- deref y ;;
  src <- lift (slice_from (items ynd) t) ;;
  update z (fun znd => Ok (with_items (copy (items znd) src) znd)) ;;;
  update z (fun znd => Ok (with_n (t - 1) znd)) ;;;
  update y (fun ynd => Ok (with_n (t - 1) ynd)) ;;;
  ynd <- deref y ;;
  (if isLeaf ynd then ret tt
   else
     src <- lift (slice_from (children ynd) t) ;;
     update z (fun znd => Ok (with_children (copy (children znd) src) znd))) ;;;
  update p (fun nd =>
    rbind (copy_within (items nd) (i + 1) i) (fun its =>
    Ok (with_items its nd))) ;;;
  update p (fun nd =>
    rbind (assign (items nd) i median) (fun its =>
    Ok (with_items its nd))) ;;;
  update p (fun nd => Ok (with_n (n nd + 1) nd)) ;;;
  update p (fun nd =>
    rbind (copy_within (children nd) (i + 2) (i + 1)) (fun cs =>
    Ok (with_children cs nd))) ;;;
  update p (fun nd =>
    rbind (assign (children nd) (i + 1) z) (fun cs =>
    Ok (with_children cs nd))) ;;;
  ret median.

Fixpoint insert (fuel : nat) (p : ptr) (t : Z) (newItem : item)
  : M (option item) :=
  match fuel with
  | O => fun _ => OutOfFuel
  | S fuel' =>
      nd <- deref p ;;
      if isLeaf nd then insertLeaf p newItem
      else
        st <- lift (scan newItem (items nd) (Z.to_nat (n nd)) 0) ;;
        match st with
        | AtEqual i curr =>
            update p (fun nd =>
              rbind (assign (items nd) i (Some newItem)) (fun its =>
              Ok (with_items its nd))) ;;;
            ret (Some curr)
        | AtLess i | AtEnd i =>
            c <- lift (index (children nd) i) ;;
            cnd <- deref c ;;
            if (n cnd =? 2 * t - 1)%Z then
              median <- splitChild p t i ;;
              r <- lift (compare_slot newItem median) ;;
              if (r =? lessThan)%Z then insert fuel' c t newItem
              else if (r =? equal)%Z then
                update p (fun nd =>
                  rbind (assign (items nd) i (Some newItem)) (fun its =>
                  Ok (with_items its nd))) ;;;
                ret median
              else if (r =? greaterThan)%Z then
                nd <- deref p ;;
                c <- lift (index (children nd) (i + 1)) ;;
                insert fuel' c t newItem
              else insert fuel' c t newItem
            else insert fuel' c t newItem
        end
  end.

Definition newBTree (t : Z) : M btree :=
  if (t <? 2)%Z then lift (Panic InvalidMinDegree)
  else
    x <- newNode t true ;;
    ret (mkBTree x t 0).

Definition btree_search (fuel : nat) (b : btree) (x : item) : M (option item) :=
  search fuel (root b) x.

(** The body of [if b.root.n == (2*b.t - 1) { ... }] in [insert]: a new
    internal root above the old one, which is split at once. *)
Definition growRoot (b : btree) : M btree :=
  let oldRoot := root b in
  r <- newNode (t b) false ;;
  let b := mkBTree r (t b) (len b) in
  update (root b) (fun nd =>
    rbind (assign (children nd) 0 oldRoot) (fun cs =>
    Ok (with_children cs nd))) ;;;
  splitChild (root b) (t b) 0 ;;;
  ret b.

Definition btree_insert (fuel : nat) (b : btree) (x : item)
  : M (option item * btree) :=
  rnd <- deref (root b) ;;
  b <- (if (n rnd =? 2 * t b - 1)%Z then growRoot b else ret b) ;;
  prev <- insert fuel (root b) (t b) x ;;
  ret (prev,
       match prev with
       | None => mkBTree (root b) (t b) (len b + 1)
       | Some _ => b
       end).

(** [for i := 0; i < k; i++ { body }] where the body works on a state
    [s]; [rem] counts the iterations that are left. *)
Fixpoint for_loop {S : Type} (rem : nat) (i : Z) (body : Z -> S -> M S) (s : S)
  : M S :=
  match rem with
  | O => ret s
  | S rem' => s' <- body i s ;; for_loop rem' (i + 1) body s'
  end.

(** The errors [checkInvariances] returns, one constructor per
    [fmt.Errorf] with the values it prints. *)
Inductive invariance_error :=
| DuplicateItems (before here : option item)
    (* btree contains duplicate items: items[i-1], items[i] *)
| NotSorted (before here : option item)
    (* btree items not in sorted order: items[i-1] comes before items[i] *)
| RootInvalidN (count : Z)
    (* Root node has invalid n *)
| NodeInvalidN (count : Z)
    (* One of the nodes has invalid n *)
| LeafHeightMismatch (here height : Z).
    (* one of the leaf nodes does not have the same height as the rest *)

(** [traverseItems(n, fn)] with [fn] the closure that appends to
    [items]; [acc] is [items]. *)
Fixpoint traverseItems (fuel : nat) (p : ptr) (acc : list (option item))
  : M (list (option item)) :=
  match fuel with
  | O => fun _ => OutOfFuel
  | S fuel' =>
      nd <- deref p ;;
      acc <- for_loop (Z.to_nat (n nd)) 0 (fun i acc =>
               acc <- (if isLeaf nd then ret acc
                       else
                         c <- lift (index (children nd) i) ;;
                         traverseItems fuel' c acc) ;;
               it <- lift (index (items nd) i) ;;
               ret (acc ++ [it])) acc ;;
      if isLeaf nd then ret acc
      else
        c <- lift (index (children nd) (Z.of_nat (Z.to_nat (n nd)))) ;;
        traverseItems fuel' c acc
  end.

(** The loop over the collected items: [items[i].compare(items[i-1])]
    for [i] from 1; [before] is [items[i-1]]. *)
Fixpoint check_order (before : option item) (rest : list (option item))
  : result (option invariance_error) :=
  match rest with
  | [] => Ok None
  | here :: rest' =>
      match here with
      | None => Panic NilDereference
      | Some x =>
          rbind (compare_slot x before) (fun r =>
          if (r =? equal)%Z then Ok (Some (DuplicateItems before here))
          else if (r =? lessThan)%Z then Ok (Some (NotSorted before here))
          else check_order here rest')
      end
  end.

(** The closure given to [traverseNode]: it overwrites [err] at every
    node whose count is out of bounds. *)
Definition check_count (t : Z) (count : Z) (err : option invariance_error)
  : option invariance_error :=
  if ((count <? t - 1)%Z || (count >? 2 * t - 1)%Z)%bool
  then Some (NodeInvalidN count)
  else err.

Fixpoint traverseNode (fuel : nat) (t : Z) (p : ptr)
  (err : option invariance_error) : M (option invariance_error) :=
  match fuel with
  | O => fun _ => OutOfFuel
  | S fuel' =>
      nd <- deref p ;;
      let err := check_count t (n nd) err in
      if isLeaf nd then ret err
      else
        for_loop (Z.to_nat (n nd + 1)) 0 (fun i err =>
          c <- lift (index (children nd) i) ;;
          traverseNode fuel' t c err) err
  end.

(** [traverseHeight(n, level)]; [acc] is [leafHeights]. *)
Fixpoint traverseHeight (fuel : nat) (p : ptr) (level : Z) (acc : list Z)
  : M (list Z) :=
  match fuel with
  | O => fun _ => OutOfFuel
  | S fuel' =>
      nd <- deref p ;;
      if isLeaf nd then ret (acc ++ [level])
      else
        for_loop (Z.to_nat (n nd + 1)) 0 (fun i acc =>
          c <- lift (index (children nd) i) ;;
          traverseHeight fuel' c (level + 1) acc) acc
  end.

(** [for _, h := range leafHeights { if h != height {...} }] *)
Fixpoint first_mismatch (height : Z) (leafHeights : list Z)
  : option invariance_error :=
  match leafHeights with
  | [] => None
  | h :: rest =>
      if (h =? height)%Z then first_mismatch height rest
      else Some (LeafHeightMismatch h height)
  end.

Definition checkInvariances (fuel : nat) (b : btree)
  : M (option invariance_error) :=
  items <- traverseItems fuel (root b) [] ;;
  order <- lift (match items with
                 | [] => Ok None
                 | first :: rest => check_order first rest
                 end) ;;
  match order with
  | Some e => ret (Some e)
  | None =>
      rnd <- deref (root b) ;;
      if (n rnd >? 2 * t b - 1)%Z then ret (Some (RootInvalidN (n rnd)))
      else
        err <- (if isLeaf rnd then ret None
                else
                  for_loop (Z.to_nat (n rnd + 1)) 0 (fun i err =>
                    c <- lift (index (children rnd) i) ;;
                    traverseNode fuel (t b) c err) None) ;;
        match err with
        | Some e => ret (Some e)
        | None =>
            leafHeights <- traverseHeight fuel (root b) 1 [] ;;
            lift (rbind (index leafHeights 0) (fun height =>
                  Ok (first_mismatch height leafHeights)))
        end
  end.

(** A run of the public API: [newBTree(t)] and then one [insert] per item. *)
Fixpoint insert_all (fuel : nat) (b : btree) (xs : list item) : M btree :=
  match xs with
  | [] => ret b
  | x :: xs' =>
      r <- btree_insert fuel b x ;;
      insert_all fuel (snd r) xs'
  end.

Definition build (fuel : nat) (t : Z) (xs : list item) : M btree :=
  b <- newBTree t ;;
  insert_all fuel b xs.

End Program.

(** ** The item type of the repository's driver and tests *)

Definition numItem := Z.

Definition numItem_compare (a other : numItem) : Z :=
  if (a <? other)%Z then lessThan
  else if (a =? other)%Z then equal
  else greaterThan.

Definition run {item A} (m : M item A) : result (A * heap item) := m [].


(** ** The slice helper and the loop of the test *)

(** [insertAt(arr, index, item)]: the slice is changed in place and
    returned; the value is its new content. *)
Definition insertAt (arr : list Z) (index item : Z) : result (list Z) :=
  rbind (copy_within arr (index + 1) index) (fun arr =>
  rbind (assign arr index item) (fun arr =>
  Ok arr)).

Section TestLoop.
Context {item : Type}.
Variable compare : item -> item -> Z.

(** [for _, num := range nums { prev := b.insert(num); ... }] of
    [TestBtreeBasic]: the values [prev] takes, in turn, and the tree
    afterwards. *)
Fixpoint insert_each (fuel : nat) (b : btree) (nums : list item)
  : M item (list (option item) * btree) :=
  match nums with
  | [] => ret ([], b)
  | num :: nums' =>
      r <- btree_insert compare fuel b num ;;
      rs <- insert_each fuel (snd r) nums' ;;
      ret (fst r :: fst rs, snd rs)
  end.

End TestLoop.

(** * The vocabulary of the specification

    What the theorems below say about the program above: the tree that a
    heap holds behind a pointer, the B-tree conditions on it, and the
    list of items it stands for. *)

(** ** Slot arrays and sequences *)

Section Slots.
Context {A : Type}.
Implicit Types (ls : list (list A)) (ks : list A).

(** [insert_slot k v s]: [v] enters at slot [k], the slots from [k] on
    move one place to the right and the last one falls off. *)
Definition insert_slot (k : nat) (v : A) (s : list A) : list A :=
  take (length s) (take k s ++ v :: drop k s).

(** The live prefix of a slot array. *)
Definition slots_hold (s : list (option A)) (live : list A) : Prop :=
  take (length live) s = Some <$> live.

(** Children and items taken in turn: child 0, item 0, child 1, ..., the
    last child; a leaf has no children and yields its items. *)
Fixpoint interleave ls ks : list A :=
  match ls with
  | [] => ks
  | l :: ls' =>
      match ks with
      | [] => l
      | k :: ks' => l ++ k :: interleave ls' ks'
      end
  end.

(** The part of [interleave] before child [length ks]: each child
    followed by its item. *)
Fixpoint weave ls ks : list A :=
  match ls, ks with
  | l :: ls', k :: ks' => l ++ k :: weave ls' ks'
  | _, _ => []
  end.

(** The part after a child: the items and children that follow it. *)
Definition after ls ks : list A :=
  match ks with
  | [] => []
  | k :: ks' => k :: interleave ls ks'
  end.

End Slots.

(** ** The tree a pointer stands for *)

(** [TNode a lf ks cs]: the node at address [a], its leaf flag, its live
    items and the trees of its live children. *)
Inductive tree (item : Type) :=
| TNode (a : addr) (lf : bool) (ks : list item) (cs : list (tree item)).
Arguments TNode {item} a lf ks cs.

Definition taddr {item} (pt : tree item) : addr := let '(TNode a _ _ _) := pt in a.
Definition tleaf {item} (pt : tree item) : bool := let '(TNode _ lf _ _) := pt in lf.
Definition tkeys {item} (pt : tree item) : list item := let '(TNode _ _ ks _) := pt in ks.
Definition tkids {item} (pt : tree item) : list (tree item) := let '(TNode _ _ _ cs) := pt in cs.

Fixpoint inorder {item} (pt : tree item) : list item :=
  let '(TNode _ _ ks cs) := pt in interleave (inorder <$> cs) ks.

Fixpoint addrs {item} (pt : tree item) : list addr :=
  let '(TNode a _ _ cs) := pt in a :: mjoin (addrs <$> cs).

(** The nodes below the root, each before its children, as [traverseNode]
    visits them from the root's children. *)
Fixpoint nodes {item} (pt : tree item) : list (tree item) :=
  let '(TNode _ _ _ cs) := pt in
  pt :: mjoin (nodes <$> cs).

Definition nodes_below {item} (pt : tree item) : list (tree item) :=
  mjoin (nodes <$> tkids pt).

(** The level of every leaf, the node [pt] being on level [level], as
    [traverseHeight] collects them. *)
Fixpoint leaf_levels {item} (level : Z) (pt : tree item) : list Z :=
  let '(TNode _ lf _ cs) := pt in
  if lf then [level] else mjoin (leaf_levels (level + 1) <$> cs).

(** The number of levels below and including a node. *)
Fixpoint height {item} (pt : tree item) : nat :=
  let '(TNode _ _ _ cs) := pt in S (max_list (height <$> cs)).

Section Representation.
Context {item : Type}.
Local Abbreviation node := (node item).
Local Abbreviation heap := (heap item).
Local Abbreviation tree := (tree item).
Local Abbreviation M := (M item).

(** What one node record must hold to be the node of live items [ks] and
    live children at the addresses [cas]; the slot arrays have the lengths
    [newNode] gives them. *)
Definition node_ok (t : Z) (nd : node) (lf : bool) (ks : list item)
  (cas : list addr) : Prop :=
  isLeaf nd = lf /\
  n nd = Z.of_nat (length ks) /\
  Z.of_nat (length (items nd)) = (2 * t - 1)%Z /\
  slots_hold (items nd) ks /\
  if lf then children nd = [] /\ cas = []
  else Z.of_nat (length (children nd)) = (2 * t)%Z /\
       slots_hold (children nd) cas /\
       length cas = S (length ks).

(** [repr t h pt]: in heap [h] the node at [taddr pt] and the nodes below
    it, followed through the live child slots only, are the tree [pt]. *)
Inductive repr (t : Z) (h : heap) : tree -> Prop :=
| repr_node a lf ks cs nd :
    h !! a = Some nd ->
    node_ok t nd lf ks (taddr <$> cs) ->
    Forall (repr t h) cs ->
    repr t h (TNode a lf ks cs).

(** The B-tree conditions on a tree of [k] levels whose own item count is
    at least [lo]: every node holds at most [2t-1] items, every node below
    holds at least [t-1], and every leaf is on level [k]. *)
Fixpoint wf (t : Z) (k : nat) (lo : Z) (pt : tree) : Prop :=
  match k with
  | O => False
  | S k' =>
      (lo <= Z.of_nat (length (tkeys pt)) <= 2 * t - 1)%Z /\
      if tleaf pt then k' = O else Forall (wf t k' (t - 1)) (tkids pt)
  end.

(** [h'] extends [h] and agrees with it outside the addresses [F]. *)
Definition frame (F : list addr) (h h' : heap) : Prop :=
  length h <= length h' /\
  forall b, b < length h -> b ∉ F -> h' !! b = h !! b.

(** What a subtree must be for a traversal with fuel [fuel] to go through. *)
Definition reachable (tz : Z) (h : heap) (fuel : nat) (c : tree) : Prop :=
  repr tz h c /\ height c <= fuel.

(** Every node below the root holds between [t-1] and [2t-1] items, the
    root at most [2t-1]. *)
Definition occupancy (tz : Z) (pt : tree) : Prop :=
  (Z.of_nat (length (tkeys pt)) <= 2 * tz - 1)%Z /\
  Forall (fun nd => (tz - 1 <= Z.of_nat (length (tkeys nd)) <= 2 * tz - 1)%Z)
    (nodes_below pt).

(** The bounds [checkInvariances] puts on the item count of a node below
    the root. *)
Definition in_bounds (tz : Z) (nd : tree) : Prop :=
  (tz - 1 <= Z.of_nat (length (tkeys nd)) <= 2 * tz - 1)%Z.

(** Every leaf is on the same level. *)
Definition balanced (pt : tree) : Prop :=
  exists d, Forall (fun l => l = d) (leaf_levels 1 pt).


(** The body of the loop of [traverseItems]. *)
Definition items_body (fuel : nat) (nd : node) (i : Z) (acc : list (option item))
  : M (list (option item)) :=
  acc <- (if isLeaf nd then ret acc
          else
            c <- lift (index (children nd) i) ;;
            traverseItems fuel c acc) ;;
  it <- lift (index (items nd) i) ;;
  ret (acc ++ [it]).

(** [err] after the closure of [traverseNode] has seen the nodes [nds]. *)
Definition count_errors (tz : Z) (nds : list tree) (err : option (invariance_error (item := item)))
  : option invariance_error :=
  foldl (fun e nd => check_count tz (Z.of_nat (length (tkeys nd))) e) err nds.

End Representation.

(** ** The order of the items *)

Section Order.
Context {item : Type}.
Variable compare : item -> item -> Z.
Local Abbreviation node := (node item).
Local Abbreviation heap := (heap item).
Local Abbreviation tree := (tree item).
Local Abbreviation error := (invariance_error (item := item)).

(** [compare] is the three-way comparison of a strict weak order. *)
Record compare_ok : Prop := {
  cmp_three : forall x y,
    compare x y = lessThan \/ compare x y = equal \/ compare x y = greaterThan;
  cmp_flip : forall x y, compare x y = greaterThan <-> compare y x = lessThan;
  cmp_trans : forall x y z,
    compare x y = lessThan -> compare y z = lessThan -> compare x z = lessThan;
  cmp_eq_l : forall x y z,
    compare x y = equal -> compare y z = lessThan -> compare x z = lessThan;
  cmp_eq_r : forall x y z,
    compare x y = lessThan -> compare y z = equal -> compare x z = lessThan
}.

Definition lt (x y : item) : Prop := compare x y = lessThan.

(** The loops go past [c] when [x.compare(c)] is neither [equal] nor
    [lessThan]. *)
Definition passes (x c : item) : Prop :=
  compare x c <> equal /\ compare x c <> lessThan.

(** An ascending list after [x] was put in: [x] takes the place of the
    item equal to it, or enters before the first item it sorts before. *)
Fixpoint upsert (x : item) (l : list item) : list item :=
  match l with
  | [] => [x]
  | c :: l' =>
      if (compare x c =? equal)%Z then x :: l'
      else if (compare x c =? lessThan)%Z then x :: c :: l'
      else c :: upsert x l'
  end.

(** The item of an ascending list that [x] is equal to. *)
Fixpoint find_eq (x : item) (l : list item) : option item :=
  match l with
  | [] => None
  | c :: l' =>
      if (compare x c =? equal)%Z then Some c
      else if (compare x c =? lessThan)%Z then None
      else find_eq x l'
  end.

(** Where the scan of the live items [ks] stops. *)
Inductive scan_at (x : item) (ks : list item) : scan_stop -> Prop :=
| scan_at_equal k1 c k2 :
    ks = k1 ++ c :: k2 -> Forall (passes x) k1 -> compare x c = equal ->
    scan_at x ks (AtEqual (Z.of_nat (length k1)) c)
| scan_at_less k1 c k2 :
    ks = k1 ++ c :: k2 -> Forall (passes x) k1 -> compare x c = lessThan ->
    scan_at x ks (AtLess (Z.of_nat (length k1)))
| scan_at_end :
    Forall (passes x) ks ->
    scan_at x ks (AtEnd (Z.of_nat (length ks))).

(** The scan stopped in front of [k2]: at its first item, which [x] sorts
    before, or at the end. *)
Definition stops (x : item) (k2 : list item) : Prop :=
  match k2 with
  | [] => True
  | c :: _ => compare x c = lessThan
  end.

Local Abbreviation sorted := (StronglySorted lt).

(** The state of a tree handle [b] in heap [h]: its root stands for the
    tree [pt] of [k] levels, no node is reached twice, the B-tree
    conditions hold with the root exempt from the lower bound, the items
    ascend, and [len] counts them. *)
Definition tree_ok (tz : Z) (b : btree) (h : heap) (pt : tree) (k : nat) : Prop :=
  t b = tz /\
  root b = Some (taddr pt) /\
  repr tz h pt /\
  NoDup (addrs pt) /\
  wf tz k 0 pt /\
  sorted (inorder pt) /\
  len b = Z.of_nat (length (inorder pt)).

(** [checkInvariances] read off the tree: the three checks on its
    in-order sequence, its nodes and its leaf levels. *)
Definition check_tree (tz : Z) (pt : tree) : result (option error) :=
  rbind (match Some <$> inorder pt with
         | [] => Ok None
         | first :: rest => check_order compare first rest
         end) (fun order =>
  match order with
  | Some e => Ok (Some e)
  | None =>
      if (Z.of_nat (length (tkeys pt)) >? 2 * tz - 1)%Z
      then Ok (Some (RootInvalidN (Z.of_nat (length (tkeys pt)))))
      else
        match count_errors tz (nodes_below pt) None with
        | Some e => Ok (Some e)
        | None =>
            rbind (index (leaf_levels 1 pt) 0) (fun height =>
            Ok (first_mismatch height (leaf_levels 1 pt)))
        end
  end).

(** The first offending pair of an item sequence that starts with [x]. *)
Fixpoint order_error (x : item) (l : list item) : option error :=
  match l with
  | [] => None
  | y :: l' =>
      if (compare y x =? equal)%Z then Some (DuplicateItems (Some x) (Some y))
      else if (compare y x =? lessThan)%Z then Some (NotSorted (Some x) (Some y))
      else order_error y l'
  end.

(** What a result of the checker says about the tree. *)
Definition describes (tz : Z) (pt : tree) (r : option (invariance_error (item := item)))
  : Prop :=
  match r with
  | None =>
      Sorted (fun a b => passes b a) (inorder pt) /\
      (Z.of_nat (length (tkeys pt)) <= 2 * tz - 1)%Z /\
      Forall (in_bounds tz) (nodes_below pt) /\
      exists d, Forall (fun l => l = d) (leaf_levels 1 pt)
  | Some (DuplicateItems before here) =>
      exists x y l1 l2, before = Some x /\ here = Some y /\
        inorder pt = l1 ++ x :: y :: l2 /\ compare y x = equal
  | Some (NotSorted before here) =>
      exists x y l1 l2, before = Some x /\ here = Some y /\
        inorder pt = l1 ++ x :: y :: l2 /\ compare y x = lessThan
  | Some (RootInvalidN c) =>
      c = Z.of_nat (length (tkeys pt)) /\ (c > 2 * tz - 1)%Z
  | Some (NodeInvalidN c) =>
      exists nd, nd ∈ nodes_below pt /\ c = Z.of_nat (length (tkeys nd)) /\
                 ~ in_bounds tz nd
  | Some (LeafHeightMismatch l d) =>
      l ∈ leaf_levels 1 pt /\ d ∈ leaf_levels 1 pt /\ l <> d
  end.

Section Degree.
Variable T : nat.
Local Abbreviation t := (Z.of_nat T).

(** What an insertion of [x] below [pt] in heap [h] has to achieve. *)
Definition ins_post (k : nat) (lo : Z) (x : item) (h : heap) (pt : tree)
  (prev : option item) (h' : heap) (pt' : tree) : Prop :=
  taddr pt' = taddr pt /\
  repr t h' pt' /\
  NoDup (addrs pt') /\
  wf t k lo pt' /\
  inorder pt' = upsert x (inorder pt) /\
  prev = find_eq x (inorder pt) /\
  frame (addrs pt) h h' /\
  (forall b, b ∈ addrs pt' -> b ∈ addrs pt \/ length h <= b).

(** The body of [insert] on an internal node after its scan stopped at
    index [i] without finding an equal item. *)
Definition descend (fuel' : nat) (a : nat) (nd : node) (i : Z) (newItem : item)
  : M item (option item) :=
  c <- lift (index (children nd) i) ;;
  cnd <- deref c ;;
  if (n cnd =? 2 * t - 1)%Z then
    median <- splitChild (Some a) t i ;;
    r <- lift (compare_slot compare newItem median) ;;
    if (r =? lessThan)%Z then insert compare fuel' c t newItem
    else if (r =? equal)%Z then
      update (Some a) (fun nd =>
        rbind (assign (items nd) i (Some newItem)) (fun its =>
        Ok (with_items its nd))) ;;;
      ret median
    else if (r =? greaterThan)%Z then
      nd <- deref (Some a) ;;
      c <- lift (index (children nd) (i + 1)) ;;
      insert compare fuel' c t newItem
    else insert compare fuel' c t newItem
  else insert compare fuel' c t newItem.

End Degree.
End Order.
Arguments cmp_three {item compare} _ x y.
Arguments cmp_flip {item compare} _ x y.
Arguments cmp_trans {item compare} _ x y z.
Arguments cmp_eq_l {item compare} _ x y z.
Arguments cmp_eq_r {item compare} _ x y z.

(** ** Further conditions on trees and item lists *)

(** The largest minimum degree for which [make] returns the [2t-1] item
    slots and the [2t] child slots of a node. *)
Definition max_degree : Z := (2 ^ 43)%Z.

(** Every internal node of the tree holds [2t-1] items. *)
Definition all_full {item} (tz : Z) (pt : tree item) : Prop :=
  Forall (fun nd => tleaf nd = false -> Z.of_nat (length (tkeys nd)) = (2 * tz - 1)%Z)
    (nodes pt).

(** No two items of the list are equal under [compare]. *)
Fixpoint distinct_keys {item} (compare : item -> item -> Z) (xs : list item) : Prop :=
  match xs with
  | [] => True
  | x :: xs' => Forall (fun y => compare y x <> equal) xs' /\ distinct_keys compare xs'
  end.

(** What the inserts of [xs], in turn, return on a tree whose in-order
    sequence is [l]. *)
Fixpoint prevs_of {item} (compare : item -> item -> Z) (l xs : list item)
  : list (option item) :=
  match xs with
  | [] => []
  | x :: xs' => find_eq compare x l :: prevs_of compare (upsert compare x l) xs'
  end.

(** ** Concrete items and states *)

(** Items that carry a payload beside their key; only the key is compared. *)
Definition keyed : Type := Z * Z.

Definition keyed_compare (a other : keyed) : Z :=
  numItem_compare (fst a) (fst other).

(** The heap after [newBTree(2)] and the inserts 1, 2, 3, 4. *)
Definition heap1234 : heap numItem :=
  [ mkNode true 1 [Some 1; Some 2; Some 3]%Z [];
    mkNode false 1 [Some 2; None; None]%Z [Some 0; Some 2; None; None];
    mkNode true 2 [Some 3; Some 4; None]%Z [] ].

(** The tree [newBTree(2)] makes in an empty heap. *)
Definition fresh_tree : btree := mkBTree (Some 0) 2 0.
Definition fresh_heap (item : Type) : heap item :=
  [mkNode true 0 [None; None; None] []].

(** A parent without items above one full leaf: the state in which
    [insert] splits a full root. *)
Definition heap_full_child : heap numItem :=
  [ mkNode true 3 [Some 1; Some 2; Some 3]%Z [];
    mkNode false 0 [None; None; None] [Some 0; None; None; None] ].

(** A full parent above four leaves, the last of them full. *)
Definition full_parent_tree : tree numItem :=
  TNode 4 false [10; 20; 30]%Z
    [ TNode 0 true [5]%Z []; TNode 1 true [15]%Z []; TNode 2 true [25]%Z [];
      TNode 3 true [35; 40; 45]%Z [] ].
Definition heap_full_parent : heap numItem :=
  [ mkNode true 1 [Some 5; None; None]%Z [];
    mkNode true 1 [Some 15; None; None]%Z [];
    mkNode true 1 [Some 25; None; None]%Z [];
    mkNode true 3 [Some 35; Some 40; Some 45]%Z [];
    mkNode false 3 [Some 10; Some 20; Some 30]%Z [Some 0; Some 1; Some 2; Some 3] ].

(** A tree whose root is a full leaf. *)
Definition full_root_tree : btree := mkBTree (Some 0) 2 3.
Definition full_root_heap : heap numItem :=
  [mkNode true 3 [Some 1; Some 2; Some 3]%Z []].

(** A leaf root whose two items are out of order. *)
Definition unsorted_tree : btree := mkBTree (Some 0) 2 2.
Definition unsorted_heap : heap numItem :=
  [mkNode true 2 [Some 2; Some 1; None]%Z []].


(** A leaf root that holds the item 5. *)
Definition leaf5_heap : heap numItem :=
  [mkNode true 1 [Some 5; None; None]%Z []].

(** The tree after [newBTree(2)] and the inserts 1 to 8: a full root
    above four leaves. *)
Definition tree_1to8 : tree numItem :=
  TNode 1 false [2; 4; 6]%Z
    [ TNode 0 true [1]%Z []; TNode 2 true [3]%Z []; TNode 3 true [5]%Z [];
      TNode 4 true [7; 8]%Z [] ].
Definition heap_1to8 : heap numItem :=
  [ mkNode true 1 [Some 1; Some 2; Some 3]%Z [];
    mkNode false 3 [Some 2; Some 4; Some 6]%Z [Some 0; Some 2; Some 3; Some 4];
    mkNode true 1 [Some 3; Some 4; Some 5]%Z [];
    mkNode true 1 [Some 5; Some 6; Some 7]%Z [];
    mkNode true 2 [Some 7; Some 8; None]%Z [] ].

(** Two trees in one heap: a full leaf root at address 0 and another
    leaf root at address 1. *)
Definition two_trees_heap : heap numItem :=
  [ mkNode true 3 [Some 1; Some 2; Some 3]%Z [];
    mkNode true 1 [Some 7; None; None]%Z [] ].

(** * Lemmas *)

(** ** Slices *)

Section SliceFacts.
Context {A : Type}.
Implicit Types (s : list A) (i : Z).

Lemma index_ok s i a :
  (0 <= i)%Z -> s !! Z.to_nat i = Some a -> index s i = Ok a.
Proof.
  intros Hi Hl. unfold index.
  destruct (Z.ltb_spec i 0); [lia|]. by rewrite Hl.
Qed.

Lemma assign_ok s i a :
  (0 <= i < Z.of_nat (length s))%Z ->
  assign s i a = Ok (<[Z.to_nat i := a]> s).
Proof.
  intros Hi. unfold assign.
  destruct (Z.leb_spec 0 i); [|lia].
  destruct (Z.ltb_spec i (Z.of_nat (length s))); [done|lia].
Qed.

Lemma slice_from_ok s i :
  (0 <= i <= Z.of_nat (length s))%Z ->
  slice_from s i = Ok (drop (Z.to_nat i) s).
Proof.
  intros Hi. unfold slice_from.
  destruct (Z.leb_spec 0 i); [|lia].
  destruct (Z.leb_spec i (Z.of_nat (length s))); [done|lia].
Qed.

Lemma copy_length (dst src : list A) : length (copy dst src) = length dst.
Proof.
  unfold copy. rewrite length_app, length_take, length_drop. lia.
Qed.

(** Copying into a fresh slice that is at least as long as the source. *)
Lemma copy_take (dst src : list A) k :
  k <= length src -> length src <= length dst ->
  take k (copy dst src) = take k src.
Proof.
  intros Hk Hlen. unfold copy.
  rewrite (take_ge src (length dst)) by lia.
  rewrite take_app_le by lia. done.
Qed.

Lemma insert_slot_length k v s : k < length s -> length (insert_slot k v s) = length s.
Proof.
  intros Hk. unfold insert_slot.
  rewrite length_take, length_app, length_take. simpl. rewrite length_drop. lia.
Qed.

Lemma copy_within_shift s i :
  (0 <= i < Z.of_nat (length s))%Z ->
  copy_within s (i + 1) i =
    Ok (take (S (Z.to_nat i)) s ++ take (length s - S (Z.to_nat i)) (drop (Z.to_nat i) s)).
Proof.
  intros Hi. unfold copy_within.
  rewrite slice_from_ok by lia. simpl.
  rewrite slice_from_ok by lia. simpl.
  replace (Z.to_nat (i + 1)) with (S (Z.to_nat i)) by lia.
  unfold copy. rewrite !length_drop.
  rewrite (drop_ge (drop _ s)) by (rewrite length_drop; lia).
  by rewrite app_nil_r.
Qed.

Lemma shift_then_assign s (k : nat) v :
  k < length s ->
  <[k := v]> (take (S k) s ++ take (length s - S k) (drop k s)) = insert_slot k v s.
Proof.
  intros Hk. unfold insert_slot.
  rewrite insert_app_l by (rewrite length_take; lia).
  rewrite (take_S_r s k (default v (s !! k))).
  2:{ destruct (lookup_lt_is_Some_2 s k Hk) as [x ->]. done. }
  rewrite insert_app_r_alt by (rewrite length_take; lia).
  rewrite length_take. replace (k - k `min` length s) with 0 by lia. simpl.
  rewrite take_app_ge by (rewrite length_take; lia).
  rewrite length_take. replace (length s - k `min` length s) with (S (length s - S k)) by lia.
  rewrite <- app_assoc. simpl. done.
Qed.

Lemma insert_slot_take k v s m :
  k <= m -> m < length s ->
  take (S m) (insert_slot k v s) = take k s ++ v :: take (m - k) (drop k s).
Proof.
  intros Hk Hm. unfold insert_slot.
  rewrite take_take. replace (S m `min` length s) with (S m) by lia.
  rewrite take_app_ge by (rewrite length_take; lia).
  rewrite length_take. replace (S m - k `min` length s) with (S (m - k)) by lia.
  done.
Qed.

Lemma insert_slot_lookup_lt k v s j :
  j < k -> k < length s -> insert_slot k v s !! j = s !! j.
Proof.
  intros Hj Hk. unfold insert_slot.
  rewrite lookup_take_lt by lia.
  rewrite lookup_app_l by (rewrite length_take; lia).
  by rewrite lookup_take_lt by lia.
Qed.

Lemma insert_slot_lookup_eq k v s :
  k < length s -> insert_slot k v s !! k = Some v.
Proof.
  intros Hk. unfold insert_slot.
  rewrite lookup_take_lt by lia.
  rewrite lookup_app_r by (rewrite length_take; lia).
  rewrite length_take. by replace (k - k `min` length s) with 0 by lia.
Qed.
End SliceFacts.

(** ** Trees in the heap *)

Lemma tree_induction {item} (P : tree item -> Prop) :
  (forall a lf ks cs, Forall P cs -> P (TNode a lf ks cs)) ->
  forall pt, P pt.
Proof.
  intros Hstep. fix IH 1. intros [a lf ks cs]. apply Hstep.
  induction cs as [|c cs IHcs]; constructor; [apply IH | exact IHcs].
Qed.

Section RepresentationFacts.
Context {item : Type}.
Local Abbreviation node := (node item).
Local Abbreviation heap := (heap item).
Local Abbreviation tree := (tree item).
Implicit Types (h : heap) (pt : tree) (cs : list tree) (ks : list item).

Lemma repr_inv t h a lf ks cs :
  repr t h (TNode a lf ks cs) ->
  exists nd, h !! a = Some nd /\ node_ok t nd lf ks (taddr <$> cs) /\
             Forall (repr t h) cs.
Proof. inversion 1; subst. eauto. Qed.

Lemma elem_of_addrs_kids (cs : list tree) b :
  b ∈ mjoin (addrs <$> cs) <-> exists c, c ∈ cs /\ b ∈ addrs c.
Proof.
  rewrite list_elem_of_join. split.
  - intros (l & Hb & Hl). apply list_elem_of_fmap in Hl as (c & -> & Hc). eauto.
  - intros (c & Hc & Hb). exists (addrs c). split; [done|].
    apply list_elem_of_fmap. eauto.
Qed.

Lemma taddr_in_addrs (pt : tree) : taddr pt ∈ addrs pt.
Proof. destruct pt. simpl. left. Qed.

Lemma repr_addrs_lt t h pt b : repr t h pt -> b ∈ addrs pt -> b < length h.
Proof.
  revert b. induction pt as [a lf ks cs IH] using tree_induction.
  intros b Hr Hb. apply repr_inv in Hr as (nd & Ha & _ & Hcs).
  simpl in Hb. apply elem_of_cons in Hb as [->|Hb].
  - by eapply lookup_lt_Some.
  - apply elem_of_addrs_kids in Hb as (c & Hc & Hb).
    rewrite Forall_forall in IH, Hcs. eapply IH; eauto.
Qed.

Lemma repr_frame t h h' pt :
  (forall b, b ∈ addrs pt -> h' !! b = h !! b) ->
  repr t h pt -> repr t h' pt.
Proof.
  induction pt as [a lf ks cs IH] using tree_induction.
  intros Hsame Hr. apply repr_inv in Hr as (nd & Ha & Hnd & Hcs).
  econstructor; eauto.
  - rewrite Hsame; [done|]. simpl. left.
  - rewrite Forall_forall in IH, Hcs |- *. intros c Hc.
    apply IH; [done| |by apply Hcs].
    intros b Hb. apply Hsame. simpl. right.
    apply elem_of_addrs_kids. eauto.
Qed.

(** Writing one node: the trees that do not contain it stay what they were. *)
Lemma repr_store_other t h a nd pt :
  a ∉ addrs pt -> repr t h pt -> repr t (<[a := nd]> h) pt.
Proof.
  intros Ha. apply repr_frame. intros b Hb.
  apply list_lookup_insert_ne. intros ->. done.
Qed.

Lemma repr_store t h a nd lf ks cs :
  a < length h ->
  node_ok t nd lf ks (taddr <$> cs) ->
  Forall (repr t h) cs ->
  a ∉ mjoin (addrs <$> cs) ->
  repr t (<[a := nd]> h) (TNode a lf ks cs).
Proof.
  intros Ha Hnd Hcs Hfresh. econstructor; [|exact Hnd|].
  - by apply list_lookup_insert_eq.
  - rewrite Forall_forall in Hcs |- *. intros c Hc.
    apply repr_store_other; [|by apply Hcs].
    intros Hin. apply Hfresh. apply elem_of_addrs_kids. eauto.
Qed.

Lemma repr_alloc t h nd pt : repr t h pt -> repr t (h ++ [nd]) pt.
Proof.
  intros Hr. eapply repr_frame; [|exact Hr].
  intros b Hb. apply lookup_app_l. by eapply repr_addrs_lt.
Qed.

Lemma frame_refl F h : frame F h h.
Proof. split; [lia|done]. Qed.

Lemma frame_trans F F' h h1 h2 :
  frame F h h1 -> frame F' h1 h2 ->
  (forall b, b ∈ F' -> b ∈ F \/ length h <= b) ->
  frame F h h2.
Proof.
  intros [Hl1 H1] [Hl2 H2] Hsub. split; [lia|].
  intros b Hb HbF. rewrite H2, H1; [done..|lia|].
  intros HbF'. destruct (Hsub b HbF'); [done|lia].
Qed.

Lemma frame_mono F F' h h' :
  frame F h h' -> (forall b, b ∈ F -> b ∈ F') -> frame F' h h'.
Proof. intros [Hl H] Hsub. split; [done|]. intros b Hb HbF. apply H; auto. Qed.

End RepresentationFacts.

(** ** Running the monad *)

Section Steps.
Context {item : Type}.
Local Abbreviation node := (node item).
Local Abbreviation heap := (heap item).
Local Abbreviation M := (M item).

Lemma bind_ok {A B} (m : M A) (k : A -> M B) (h h' : heap) a :
  m h = Ok (a, h') -> bind m k h = k a h'.
Proof. unfold bind. by intros ->. Qed.

Lemma deref_ok (h : heap) a nd : h !! a = Some nd -> deref (Some a) h = Ok (nd, h).
Proof. unfold deref. by intros ->. Qed.

Lemma update_ok (h : heap) a nd nd' (f : node -> result node) :
  h !! a = Some nd -> f nd = Ok nd' ->
  update (Some a) f h = Ok (tt, <[a := nd']> h).
Proof.
  intros Ha Hf. unfold update.
  rewrite (bind_ok _ _ _ _ _ (deref_ok _ _ _ Ha)).
  unfold bind, lift. by rewrite Hf.
Qed.

Lemma frame_store (h : heap) a nd : frame [a] h (<[a := nd]> h).
Proof.
  unfold frame. split; [by rewrite length_insert|].
  intros b _ Hb. apply list_lookup_insert_ne. intros ->. apply Hb. left.
Qed.
End Steps.

(** ** What a valid comparison is, and the list view of an upsert *)

Section OrderFacts.
Context {item : Type}.
Variable compare : item -> item -> Z.

Lemma upsert_passes x k1 l :
  Forall (passes compare x) k1 -> upsert compare x (k1 ++ l) = k1 ++ upsert compare x l.
Proof.
  induction 1 as [|c k1 [Hne Hnl] _ IH]; [done|]. simpl.
  destruct (Z.eqb_spec (compare x c) equal); [done|].
  destruct (Z.eqb_spec (compare x c) lessThan); [done|].
  by rewrite IH.
Qed.

Lemma find_eq_passes x k1 l :
  Forall (passes compare x) k1 -> find_eq compare x (k1 ++ l) = find_eq compare x l.
Proof.
  induction 1 as [|c k1 [Hne Hnl] _ IH]; [done|]. simpl.
  destruct (Z.eqb_spec (compare x c) equal); [done|].
  destruct (Z.eqb_spec (compare x c) lessThan); done.
Qed.

Lemma upsert_all_pass x l : Forall (passes compare x) l -> upsert compare x l = l ++ [x].
Proof.
  intros H. rewrite <- (app_nil_r l) at 1. by rewrite upsert_passes.
Qed.

Lemma find_eq_all_pass x l : Forall (passes compare x) l -> find_eq compare x l = None.
Proof.
  intros H. rewrite <- (app_nil_r l). by rewrite find_eq_passes.
Qed.

Lemma upsert_equal x c l : compare x c = equal -> upsert compare x (c :: l) = x :: l.
Proof. intros H. simpl. by rewrite H. Qed.

Lemma find_eq_equal x c l : compare x c = equal -> find_eq compare x (c :: l) = Some c.
Proof. intros H. simpl. by rewrite H. Qed.

Lemma upsert_less x c l : compare x c = lessThan -> upsert compare x (c :: l) = x :: c :: l.
Proof. intros H. simpl. by rewrite H. Qed.

Lemma find_eq_less x c l : compare x c = lessThan -> find_eq compare x (c :: l) = None.
Proof. intros H. simpl. by rewrite H. Qed.

Lemma upsert_before_less x m c l :
  compare x c = lessThan -> upsert compare x (m ++ c :: l) = upsert compare x m ++ c :: l.
Proof.
  intros Hc. induction m as [|e m IH]; simpl.
  - by rewrite Hc.
  - destruct (Z.eqb_spec (compare x e) equal); [done|].
    destruct (Z.eqb_spec (compare x e) lessThan); [done|].
    by rewrite IH.
Qed.

Lemma find_eq_before_less x m c l :
  compare x c = lessThan -> find_eq compare x (m ++ c :: l) = find_eq compare x m.
Proof.
  intros Hc. induction m as [|e m IH]; simpl.
  - by rewrite Hc.
  - destruct (Z.eqb_spec (compare x e) equal); [done|].
    destruct (Z.eqb_spec (compare x e) lessThan); done.
Qed.

Lemma upsert_elem x l e : e ∈ upsert compare x l -> e = x \/ e ∈ l.
Proof.
  induction l as [|c l IH]; simpl.
  - intros ->%list_elem_of_singleton. by left.
  - destruct (Z.eqb_spec (compare x c) equal).
    { intros [->|?]%elem_of_cons; [by left|right; by right]. }
    destruct (Z.eqb_spec (compare x c) lessThan).
    { intros [->|?]%elem_of_cons; [by left|by right]. }
    intros [->|He]%elem_of_cons; [right; left|].
    destruct (IH He); [by left|right; by right].
Qed.

Lemma upsert_length x l :
  length (upsert compare x l) = match find_eq compare x l with
                        | Some _ => length l
                        | None => S (length l)
                        end.
Proof.
  induction l as [|c l IH]; simpl; [done|].
  destruct (Z.eqb_spec (compare x c) equal); [done|].
  destruct (Z.eqb_spec (compare x c) lessThan); [done|].
  simpl. rewrite IH. by destruct (find_eq compare x l).
Qed.

Section WithOrder.
Hypothesis Hcmp : compare_ok compare.

Lemma cmp_eq_sym x y : compare x y = equal -> compare y x = equal.
Proof.
  intros H. destruct (cmp_three Hcmp y x) as [Hl|[He|Hg]]; [|done|].
  - apply (cmp_flip Hcmp) in Hl. rewrite H in Hl. discriminate.
  - apply (cmp_flip Hcmp) in Hg. rewrite H in Hg. discriminate.
Qed.

Lemma passes_gt x c : passes compare x c <-> compare x c = greaterThan.
Proof.
  split.
  - intros [Hne Hnl]. by destruct (cmp_three Hcmp x c) as [?|[?|?]].
  - intros H. split; rewrite H; discriminate.
Qed.

Lemma passes_lt x c : passes compare x c <-> lt compare c x.
Proof. rewrite passes_gt. apply (cmp_flip Hcmp). Qed.

Lemma lt_not_equal x y : lt compare x y -> compare x y <> equal.
Proof. unfold lt. intros ->. discriminate. Qed.

Lemma upsert_sorted x l :
  StronglySorted (lt compare) l -> StronglySorted (lt compare) (upsert compare x l).
Proof.
  induction 1 as [|c l Hs IH Hall]; simpl.
  - repeat constructor.
  - destruct (Z.eqb_spec (compare x c) equal) as [He|Hne].
    { constructor; [done|]. eapply Forall_impl; [exact Hall|].
      intros e He'. by eapply (cmp_eq_l Hcmp). }
    destruct (Z.eqb_spec (compare x c) lessThan) as [Hl|Hnl].
    { constructor; [by constructor|]. constructor; [done|].
      eapply Forall_impl; [exact Hall|]. intros e He'. by eapply (cmp_trans Hcmp). }
    constructor; [done|]. apply Forall_forall. intros e He.
    destruct (upsert_elem _ _ _ He) as [->|Hin].
    + by apply passes_lt.
    + rewrite Forall_forall in Hall. by apply Hall.
Qed.

(** In an ascending list the scan of [find_eq compare] reaches any item equal to [x]. *)
Lemma find_eq_sorted x l c :
  StronglySorted (lt compare) l -> c ∈ l -> compare x c = equal -> find_eq compare x l = Some c.
Proof.
  induction 1 as [|e l Hs IH Hall]; [by intros ?%elem_of_nil|].
  intros [->|Hin]%elem_of_cons Hc; [by apply find_eq_equal|].
  rewrite Forall_forall in Hall.
  assert (lt compare e x) as Hex.
  { eapply (cmp_eq_r Hcmp); [by apply Hall|by apply cmp_eq_sym]. }
  apply passes_lt in Hex as [Hne Hnl]. simpl.
  destruct (Z.eqb_spec (compare x e) equal); [done|].
  destruct (Z.eqb_spec (compare x e) lessThan); [done|]. auto.
Qed.

Lemma find_eq_none x l :
  (forall c, c ∈ l -> compare x c <> equal) -> find_eq compare x l = None.
Proof.
  induction l as [|e l IH]; [done|]. intros Hall. simpl.
  destruct (Z.eqb_spec (compare x e) equal) as [He|_].
  { exfalso. eapply Hall; [left|done]. }
  destruct (Z.eqb_spec (compare x e) lessThan); [done|].
  apply IH. intros c Hc. apply Hall. by right.
Qed.

Lemma find_eq_some x l c : find_eq compare x l = Some c -> c ∈ l /\ compare x c = equal.
Proof.
  induction l as [|e l IH]; [done|]. simpl.
  destruct (Z.eqb_spec (compare x e) equal) as [He|_].
  { intros [= ->]. split; [left|done]. }
  destruct (Z.eqb_spec (compare x e) lessThan); [done|].
  intros H. destruct (IH H). split; [by right|done].
Qed.

End WithOrder.
End OrderFacts.

(** ** Live prefixes under the slot operations *)

Section SlotFacts.
Context {A : Type}.
Implicit Types (s : list (option A)) (live : list A).

Lemma slots_hold_length s live : slots_hold s live -> length live <= length s.
Proof.
  unfold slots_hold. intros H.
  apply (f_equal length) in H. rewrite length_take, length_fmap in H. lia.
Qed.

Lemma slots_hold_lookup s live i v :
  slots_hold s live -> live !! i = Some v -> s !! i = Some (Some v).
Proof.
  unfold slots_hold. intros H Hi.
  rewrite <- (lookup_take_lt s (length live) i) by (by eapply lookup_lt_Some).
  rewrite H, list_lookup_fmap, Hi. done.
Qed.

Lemma slots_hold_take s live k : slots_hold s live -> slots_hold s (take k live).
Proof.
  unfold slots_hold. intros H. rewrite length_take, fmap_take, <- H, take_take.
  done.
Qed.

Lemma slots_hold_replace s k1 c k2 x :
  slots_hold s (k1 ++ c :: k2) ->
  slots_hold (<[length k1 := Some x]> s) (k1 ++ x :: k2).
Proof.
  unfold slots_hold. rewrite !length_app. simpl. intros H.
  rewrite take_insert_lt by lia. rewrite H.
  rewrite !fmap_app. simpl.
  rewrite insert_app_r_alt by (rewrite length_fmap; lia).
  rewrite length_fmap. by replace (length k1 - length k1) with 0 by lia.
Qed.

Lemma slots_hold_insert s k1 k2 x :
  slots_hold s (k1 ++ k2) -> length (k1 ++ k2) < length s ->
  slots_hold (insert_slot (length k1) (Some x) s) (k1 ++ x :: k2).
Proof.
  unfold slots_hold. rewrite !length_app. simpl. intros H Hlen.
  replace (length k1 + S (length k2)) with (S (length k1 + length k2)) by lia.
  rewrite insert_slot_take by lia.
  assert (take (length k1) s = Some <$> k1) as ->.
  { apply (f_equal (take (length k1))) in H.
    rewrite take_take, fmap_app, take_app_length' in H by (by rewrite length_fmap).
    rewrite <- H. f_equal. lia. }
  replace (length k1 + length k2 - length k1) with (length k2) by lia.
  assert (take (length k2) (drop (length k1) s) = Some <$> k2) as ->.
  { apply (f_equal (drop (length k1))) in H.
    rewrite fmap_app, drop_app_length' in H by (by rewrite length_fmap).
    rewrite <- H, take_drop_commute. done. }
  by rewrite fmap_app.
Qed.

Lemma slots_hold_snoc s live x :
  slots_hold s live -> length live < length s ->
  slots_hold (<[length live := Some x]> s) (live ++ [x]).
Proof.
  intros H Hlen.
  pose proof (slots_hold_insert s live [] x) as Hi.
  rewrite app_nil_r in Hi. specialize (Hi H Hlen).
  unfold slots_hold in *. rewrite <- Hi.
  rewrite length_app. simpl. replace (length live + 1) with (S (length live)) by lia.
  rewrite insert_slot_take by lia.
  rewrite (take_S_r _ _ (Some x)) by (by apply list_lookup_insert_eq).
  rewrite take_insert_ge by lia.
  replace (length live - length live) with 0 by lia. by rewrite take_0.
Qed.
End SlotFacts.

(** ** The scan and the insertion into a leaf *)

Section Leaf.
Context {item : Type}.
Variable compare : item -> item -> Z.
Local Abbreviation node := (node item).
Local Abbreviation heap := (heap item).
Local Abbreviation tree := (tree item).

Lemma scan_from x its ks : forall pre,
  slots_hold its (pre ++ ks) -> Forall (passes compare x) pre ->
  exists st, scan compare x its (length ks) (Z.of_nat (length pre)) = Ok st /\
             scan_at compare x (pre ++ ks) st.
Proof.
  induction ks as [|c ks IH]; intros pre Hs Hpre.
  - exists (AtEnd (Z.of_nat (length pre))). split; [done|].
    rewrite app_nil_r. by constructor.
  - simpl.
    assert (its !! length pre = Some (Some c)) as Hc.
    { eapply slots_hold_lookup; [exact Hs|]. by rewrite list_lookup_middle. }
    rewrite (index_ok its _ (Some c)) by (rewrite ?Nat2Z.id; first [lia|done]).
    simpl.
    destruct (Z.eqb_spec (compare x c) equal) as [He|Hne].
    { eexists. split; [done|]. by econstructor. }
    destruct (Z.eqb_spec (compare x c) lessThan) as [Hl|Hnl].
    { eexists. split; [done|]. by econstructor 2. }
    destruct (IH (pre ++ [c])) as (st & Hst & Hat).
    + by rewrite <- app_assoc.
    + apply Forall_app. split; [done|]. by repeat constructor.
    + exists st. rewrite <- app_assoc in Hat. split; [|done].
      rewrite <- Hst. f_equal. rewrite length_app. simpl. lia.
Qed.

Lemma scan_ok x its ks :
  slots_hold its ks ->
  exists st, scan compare x its (length ks) 0 = Ok st /\ scan_at compare x ks st.
Proof. intros Hs. by apply (scan_from x its ks []). Qed.

Lemma insertLeaf_spec t (h : heap) a ks x :
  repr t h (TNode a true ks []) ->
  (Z.of_nat (length ks) < 2 * t - 1)%Z ->
  exists h',
    insertLeaf compare (Some a) x h = Ok (find_eq compare x ks, h') /\
    repr t h' (TNode a true (upsert compare x ks) []) /\
    frame [a] h h' /\ length h' = length h.
Proof.
  intros Hr Hroom.
  apply repr_inv in Hr as (nd & Ha & (Hlf & Hn & Hcap & Hits & Hcs & _) & _).
  pose proof (slots_hold_length _ _ Hits) as Hlen.
  pose proof (lookup_lt_Some _ _ _ Ha) as Halt.
  destruct (scan_ok x (items nd) ks Hits) as (st & Hst & Hat).
  unfold insertLeaf.
  rewrite (bind_ok _ _ _ _ _ (deref_ok _ _ _ Ha)).
  rewrite Hn, Nat2Z.id, Hst. unfold bind at 1. simpl.
  destruct Hat as [k1 c k2 -> Hk1 Hc | k1 c k2 -> Hk1 Hc | Hks].
  - (* replace the equal item in place *)
    rewrite length_app in Hlen. simpl in Hlen.
    unfold bind at 1, ret at 1.
    erewrite bind_ok.
    2:{ eapply update_ok; [exact Ha|]. rewrite assign_ok by lia. simpl. done. }
    unfold bind, ret. rewrite Nat2Z.id.
    rewrite find_eq_passes, find_eq_equal, upsert_passes, upsert_equal by done.
    eexists. split; [done|]. split; [|split; [apply frame_store|by rewrite length_insert]].
    apply repr_store; [done| |done|by intros ?%elem_of_nil].
    repeat split; simpl; try done.
    + rewrite Hn, !length_app. simpl. done.
    + by rewrite length_insert.
    + by eapply slots_hold_replace.
  - (* open a gap at the first larger item *)
    rewrite length_app in Hlen, Hroom. simpl in Hlen, Hroom.
    erewrite bind_ok.
    2:{ eapply update_ok; [exact Ha|]. rewrite copy_within_shift by lia. simpl. done. }
    erewrite bind_ok.
    2:{ eapply update_ok; [by apply list_lookup_insert_eq|]. simpl.
        rewrite assign_ok. 1: done.
        rewrite length_app, !length_take, length_drop. lia. }
    erewrite bind_ok.
    2:{ eapply update_ok; [apply list_lookup_insert_eq; by rewrite length_insert|]. done. }
    unfold ret. rewrite !list_insert_insert_eq, Nat2Z.id. simpl.
    rewrite shift_then_assign by lia.
    rewrite find_eq_passes, find_eq_less, upsert_passes, upsert_less by done.
    eexists. split; [done|]. split; [|split; [apply frame_store|by rewrite length_insert]].
    apply repr_store; [done| |done|by intros ?%elem_of_nil].
    repeat split; simpl; try done.
    + rewrite Hn, !length_app. simpl. lia.
    + rewrite insert_slot_length by lia. done.
    + apply (slots_hold_insert _ k1 (c :: k2) x); [done|].
      rewrite length_app. simpl. lia.
  - (* append after the last item *)
    erewrite bind_ok.
    2:{ unfold ret. done. }
    erewrite bind_ok.
    2:{ eapply update_ok; [exact Ha|]. rewrite assign_ok by lia. simpl. done. }
    erewrite bind_ok.
    2:{ eapply update_ok; [by apply list_lookup_insert_eq|]. done. }
    unfold ret. rewrite !list_insert_insert_eq, Nat2Z.id. simpl.
    rewrite find_eq_all_pass, upsert_all_pass by done.
    eexists. split; [done|]. split; [|split; [apply frame_store|by rewrite length_insert]].
    apply repr_store; [done| |done|by intros ?%elem_of_nil].
    repeat split; simpl; try done.
    + rewrite Hn, length_app. simpl. lia.
    + by rewrite length_insert.
    + apply slots_hold_snoc; [done|lia].
Qed.
End Leaf.

(** ** splitChild *)

Ltac heap_len := rewrite ?length_insert, ?length_app; simpl; lia.

Ltac heap_lookup :=
  repeat first
    [ rewrite list_lookup_insert_eq by heap_len
    | rewrite list_lookup_insert_ne by lia
    | rewrite lookup_app_l by heap_len
    | rewrite list_lookup_middle by done ];
  first [ eassumption | reflexivity ].

Ltac step_deref := erewrite bind_ok; [|apply deref_ok; heap_lookup].

Section Split.
Context {item : Type}.
Local Abbreviation node := (node item).
Local Abbreviation heap := (heap item).
Local Abbreviation tree := (tree item).

Lemma slots_hold_full {A} (s : list (option A)) live :
  slots_hold s live -> length live = length s -> s = Some <$> live.
Proof. unfold slots_hold. intros H Hl. by rewrite Hl, take_ge in H. Qed.

Lemma repr_framed t (h h' : heap) F pt :
  frame F h h' -> repr t h pt -> (forall b, b ∈ addrs pt -> b ∉ F) -> repr t h' pt.
Proof.
  intros [_ Hf] Hr Hdisj. eapply repr_frame; [|exact Hr].
  intros b Hb. apply Hf; [by eapply repr_addrs_lt|by apply Hdisj].
Qed.

Lemma int64_small z : (- 2 ^ 63 <= z < 2 ^ 63)%Z -> int64 z = z.
Proof.
  change (2 ^ 63)%Z with 9223372036854775808%Z. intros Hz. unfold int64.
  change (2 ^ 63)%Z with 9223372036854775808%Z.
  change (2 ^ 64)%Z with 18446744073709551616%Z.
  rewrite Z.mod_small; lia.
Qed.

Lemma newNode_ok (T : nat) lf (h : heap) :
  1 <= T -> (Z.of_nat T <= max_degree)%Z ->
  newNode (Z.of_nat T) lf h =
  Ok (Some (length h),
      h ++ [mkNode lf 0 (replicate (2 * T - 1) None)
              (if lf then [] else replicate (2 * T) None)]).
Proof.
  intros HT Hmax. unfold newNode, make.
  change max_degree with 8796093022208%Z in Hmax.
  rewrite (int64_small (2 * Z.of_nat T)), (int64_small (2 * Z.of_nat T - 1))
    by (change (2 ^ 63)%Z with 9223372036854775808%Z; lia).
  change maxAlloc with 281474976710656%Z. unfold itemSize, pointerSize.
  destruct (Z.ltb_spec (2 * Z.of_nat T - 1) 0); [lia|].
  destruct (Z.ltb_spec (2 * Z.of_nat T) 0); [lia|].
  destruct (Z.ltb_spec 281474976710656 (16 * (2 * Z.of_nat T - 1))); [lia|].
  destruct (Z.ltb_spec 281474976710656 (8 * (2 * Z.of_nat T))); [lia|].
  cbn [orb].
  replace (Z.to_nat (2 * Z.of_nat T - 1)) with (2 * T - 1) by lia.
  replace (Z.to_nat (2 * Z.of_nat T)) with (2 * T) by lia.
  by destruct lf.
Qed.

(** Beyond [max_degree] the item slots of a node cannot be allocated:
    their number is too large, or no longer positive once [2*t] has
    wrapped around. *)
Lemma newNode_too_large (tz : Z) lf (h : heap) :
  (max_degree < tz < 2 ^ 63)%Z -> newNode tz lf h = Panic MakeSliceLen.
Proof.
  change max_degree with 8796093022208%Z.
  change (2 ^ 63)%Z with 9223372036854775808%Z. intros Hz.
  unfold newNode, bind, lift, make.
  assert (int64 (int64 (2 * tz) - 1) < 0 \/ 17592186044416 < int64 (int64 (2 * tz) - 1))%Z
    as Hk.
  { unfold int64. change (2 ^ 63)%Z with 9223372036854775808%Z.
    change (2 ^ 64)%Z with 18446744073709551616%Z.
    Z.div_mod_to_equations. lia. }
  change maxAlloc with 281474976710656%Z. unfold itemSize.
  destruct (Z.ltb_spec (int64 (int64 (2 * tz) - 1)) 0) as [|Hpos]; [done|].
  destruct (Z.ltb_spec 281474976710656 (16 * int64 (int64 (2 * tz) - 1))); [done|lia].
Qed.

Lemma heap_set_last (h : heap) (x v : node) :
  <[length h := v]> (h ++ [x]) = h ++ [v].
Proof.
  rewrite insert_app_r_alt by lia. by replace (length h - length h) with 0 by lia.
Qed.

Lemma heap_set_last_under (h : heap) b (x y v : node) :
  b < length h ->
  <[length h := v]> (<[b := y]> (h ++ [x])) = <[b := y]> (h ++ [v]).
Proof.
  intros Hb. rewrite list_insert_insert_ne by lia. by rewrite heap_set_last.
Qed.

Lemma split_move_children (h0 : heap) lz b ynd znd (T : nat) :
  h0 !! b = Some ynd -> h0 !! lz = Some znd ->
  (isLeaf ynd = false -> T <= length (children ynd)) ->
  (if isLeaf ynd then ret tt
   else
     src <- lift (slice_from (children ynd) (Z.of_nat T)) ;;
     update (Some lz)
       (fun znd => Ok (with_children (copy (children znd) src) znd))) h0 =
  Ok (tt, if isLeaf ynd then h0
          else <[lz := with_children
                         (copy (children znd) (drop T (children ynd))) znd]> h0).
Proof.
  intros Hb Hz Hlen. destruct (isLeaf ynd); [done|].
  erewrite bind_ok.
  2:{ unfold lift. rewrite slice_from_ok by (specialize (Hlen eq_refl); lia). done. }
  rewrite Nat2Z.id. by eapply update_ok.
Qed.

Lemma split_into_parent (h0 : heap) a nd (i : nat) median z :
  h0 !! a = Some nd ->
  i < length (items nd) -> S i < length (children nd) ->
  (update (Some a) (fun nd =>
     rbind (copy_within (items nd) (Z.of_nat i + 1) (Z.of_nat i)) (fun its =>
     Ok (with_items its nd))) ;;;
   update (Some a) (fun nd =>
     rbind (assign (items nd) (Z.of_nat i) median) (fun its =>
     Ok (with_items its nd))) ;;;
   update (Some a) (fun nd => Ok (with_n (n nd + 1) nd)) ;;;
   update (Some a) (fun nd =>
     rbind (copy_within (children nd) (Z.of_nat i + 2) (Z.of_nat i + 1)) (fun cs =>
     Ok (with_children cs nd))) ;;;
   update (Some a) (fun nd =>
     rbind (assign (children nd) (Z.of_nat i + 1) z) (fun cs =>
     Ok (with_children cs nd))) ;;;
   ret median) h0 =
  Ok (median,
      <[a := mkNode (isLeaf nd) (n nd + 1)
               (insert_slot i median (items nd))
               (insert_slot (S i) z (children nd))]> h0).
Proof.
  intros Ha Hi HSi.
  pose proof (lookup_lt_Some _ _ _ Ha) as Halt.
  erewrite bind_ok.
  2:{ eapply update_ok; [exact Ha|]. rewrite copy_within_shift by lia. reflexivity. }
  erewrite bind_ok.
  2:{ eapply update_ok; [heap_lookup|]. cbn [items with_items].
      rewrite assign_ok by (rewrite length_app, !length_take, length_drop; lia).
      reflexivity. }
  rewrite list_insert_insert_eq, !Nat2Z.id, shift_then_assign by lia.
  erewrite bind_ok.
  2:{ eapply update_ok; [heap_lookup|]. reflexivity. }
  rewrite list_insert_insert_eq.
  erewrite bind_ok.
  2:{ eapply update_ok; [heap_lookup|]. cbn [children with_n with_items].
      replace (Z.of_nat i + 2)%Z with (Z.of_nat (S i) + 1)%Z by lia.
      replace (Z.of_nat i + 1)%Z with (Z.of_nat (S i)) by lia.
      rewrite copy_within_shift by lia. reflexivity. }
  rewrite list_insert_insert_eq.
  erewrite bind_ok.
  2:{ eapply update_ok; [heap_lookup|]. cbn [children with_children].
      replace (Z.of_nat i + 1)%Z with (Z.of_nat (S i)) by lia.
      rewrite assign_ok by (rewrite length_app, !length_take, length_drop; lia).
      reflexivity. }
  rewrite list_insert_insert_eq, !Nat2Z.id, shift_then_assign by lia.
  reflexivity.
Qed.

Lemma splitChild_run (T : nat) (h : heap) a nd b ynd (i : nat) :
  1 <= T -> (Z.of_nat T <= max_degree)%Z -> a <> b ->
  h !! a = Some nd -> h !! b = Some ynd ->
  children nd !! i = Some (Some b) ->
  length (items nd) = 2 * T - 1 -> length (children nd) = 2 * T ->
  i < 2 * T - 1 ->
  length (items ynd) = 2 * T - 1 ->
  (isLeaf ynd = false -> length (children ynd) = 2 * T) ->
  exists median, items ynd !! (T - 1) = Some median /\
  splitChild (Some a) (Z.of_nat T) (Z.of_nat i) h =
  Ok (median,
      <[a := mkNode (isLeaf nd) (n nd + 1)
               (insert_slot i median (items nd))
               (insert_slot (S i) (Some (length h)) (children nd))]>
      (<[b := with_n (Z.of_nat T - 1) ynd]>
       (h ++ [mkNode (isLeaf ynd) (Z.of_nat T - 1)
                (copy (replicate (2 * T - 1) None) (drop T (items ynd)))
                (if isLeaf ynd then []
                 else copy (replicate (2 * T) None) (drop T (children ynd)))]))).
Proof.
  intros HT HTmax Hab Ha Hb Hi Hits Hcs HiT Hyits Hycs.
  pose proof (lookup_lt_Some _ _ _ Ha) as Halt.
  pose proof (lookup_lt_Some _ _ _ Hb) as Hblt.
  destruct (lookup_lt_is_Some_2 (items ynd) (T - 1)) as [median Hm]; [lia|].
  exists median. split; [done|].
  unfold splitChild.
  step_deref.
  erewrite bind_ok.
  2:{ unfold lift. rewrite (index_ok _ _ (Some b)); [done|lia|by rewrite Nat2Z.id]. }
  step_deref.
  erewrite bind_ok.
  2:{ unfold lift. rewrite (index_ok _ _ median); [done|lia|].
      by replace (Z.to_nat (Z.of_nat T - 1)) with (T - 1) by lia. }
  erewrite bind_ok; [|by apply newNode_ok].
  step_deref.
  erewrite bind_ok.
  2:{ unfold lift. rewrite slice_from_ok by lia. done. }
  rewrite Nat2Z.id.
  erewrite bind_ok.
  2:{ eapply update_ok; [heap_lookup|done]. }
  erewrite bind_ok.
  2:{ eapply update_ok; [heap_lookup|done]. }
  erewrite bind_ok.
  2:{ eapply update_ok; [heap_lookup|done]. }
  rewrite !heap_set_last. cbn [items children isLeaf n with_n with_items with_children].
  step_deref.
  erewrite bind_ok.
  2:{ eapply split_move_children; [heap_lookup|heap_lookup|].
      cbn [isLeaf children with_n]. intros Hlf. rewrite Hycs by done. lia. }
  cbn [items children isLeaf n with_n with_items with_children].
  rewrite split_into_parent with (nd := nd).
  2:{ destruct (isLeaf ynd); heap_lookup. }
  2, 3: lia.
  do 2 f_equal. destruct (isLeaf ynd); [done|].
  by rewrite heap_set_last_under by done.
Qed.

Lemma kids_addrs_app (l1 l2 : list tree) :
  mjoin (addrs <$> (l1 ++ l2)) = mjoin (addrs <$> l1) ++ mjoin (addrs <$> l2).
Proof. by rewrite fmap_app, join_app. Qed.

Lemma kids_addrs_cons (c : tree) l :
  mjoin (addrs <$> (c :: l)) = addrs c ++ mjoin (addrs <$> l).
Proof. done. Qed.

(** [splitChild] on the tree: the full child [y] at index [length k1]
    becomes its left half [y'] and a new right half [z'] with the median
    between them in the parent. *)
Lemma splitChild_spec (T : nat) (h : heap) a k1 k2 cs1 cs2 b lf cks ccs :
  1 <= T -> (Z.of_nat T <= max_degree)%Z ->
  repr (Z.of_nat T) h (TNode a false (k1 ++ k2) (cs1 ++ TNode b lf cks ccs :: cs2)) ->
  NoDup (addrs (TNode a false (k1 ++ k2) (cs1 ++ TNode b lf cks ccs :: cs2))) ->
  length cs1 = length k1 ->
  length (k1 ++ k2) < 2 * T - 1 ->
  length cks = 2 * T - 1 ->
  exists m h',
    cks !! (T - 1) = Some m /\
    splitChild (Some a) (Z.of_nat T) (Z.of_nat (length k1)) h = Ok (Some m, h') /\
    repr (Z.of_nat T) h'
      (TNode a false (k1 ++ m :: k2)
         (cs1 ++ TNode b lf (take (T - 1) cks) (take T ccs)
              :: TNode (length h) lf (drop T cks) (drop T ccs) :: cs2)) /\
    addrs (TNode a false (k1 ++ m :: k2)
         (cs1 ++ TNode b lf (take (T - 1) cks) (take T ccs)
              :: TNode (length h) lf (drop T cks) (drop T ccs) :: cs2))
      ≡ₚ length h :: addrs (TNode a false (k1 ++ k2) (cs1 ++ TNode b lf cks ccs :: cs2)) /\
    length h' = S (length h) /\
    frame [a; b] h h'.
Proof.
  intros HT HTmax Hr Hnd Hcs1 Hroom Hfull.
  pose proof (fun x => repr_addrs_lt _ _ _ x Hr) as Hlt.
  apply repr_inv in Hr as (nd & Ha & (Hlf & Hn & Hcap & Hits & Hclen & Hcslots & Hcslen) & Hkids).
  apply Forall_app in Hkids as [Hkids1 [Hy Hkids2]%Forall_cons].
  pose proof (fun x => repr_addrs_lt _ _ _ x Hy) as Hylt.
  apply repr_inv in Hy as (ynd & Hb & (Hylf & Hyn & Hycap & Hyits & Hycs) & Hgrand).
  cbn [addrs] in Hnd, Hlt, Hylt.
  rewrite kids_addrs_app, kids_addrs_cons in Hnd, Hlt. cbn [addrs] in Hnd, Hlt.
  assert (a <> b) as Hab.
  { intros ->. apply NoDup_cons in Hnd as [Hnd _]. apply Hnd. set_solver. }
  pose proof (lookup_lt_Some _ _ _ Ha) as Halt.
  pose proof (lookup_lt_Some _ _ _ Hb) as Hblt.
  assert (children nd !! length k1 = Some (Some b)) as Hchild.
  { eapply slots_hold_lookup; [exact Hcslots|].
    rewrite list_lookup_fmap, <- Hcs1, list_lookup_middle by done. done. }
  assert (length k1 < 2 * T - 1) as Hk1 by (rewrite length_app in Hroom; lia).
  assert (isLeaf ynd = false -> length (children ynd) = 2 * T) as Hylen.
  { intros Hl. rewrite Hylf in Hl. rewrite Hl in Hycs. destruct Hycs as (? & _). lia. }
  destruct (splitChild_run T h a nd b ynd (length k1)) as (median & Hmed & Hrun);
    [done|done|done|done|done|done|lia|lia|done|lia|done|].
  destruct (lookup_lt_is_Some_2 cks (T - 1)) as [m Hm]; [lia|].
  rewrite (slots_hold_lookup _ _ _ _ Hyits Hm) in Hmed. injection Hmed as <-.
  exists m. eexists. split; [done|]. split; [exact Hrun|].
  set (h' := <[a := _]> _) in *.
  assert (frame [a; b] h h') as Hframe.
  { split; [subst h'; heap_len|]. intros c Hc Hnot. subst h'.
    rewrite !list_lookup_insert_ne by set_solver. by apply lookup_app_l. }
  assert (forall c, Forall (repr (Z.of_nat T) h) c ->
                    (forall x, x ∈ mjoin (addrs <$> c) -> x <> a /\ x <> b) ->
                    Forall (repr (Z.of_nat T) h') c) as Hmove.
  { intros c Hc Hdisj. rewrite Forall_forall in Hc |- *. intros d Hd.
    eapply repr_framed; [exact Hframe|by apply Hc|].
    intros x Hx. destruct (Hdisj x) as [? ?]; [|set_solver].
    apply elem_of_addrs_kids. eauto. }
  assert (NoDup (mjoin (addrs <$> cs1) ++ (b :: mjoin (addrs <$> ccs)) ++ mjoin (addrs <$> cs2))
          /\ a ∉ mjoin (addrs <$> cs1) ++ (b :: mjoin (addrs <$> ccs)) ++ mjoin (addrs <$> cs2))
    as [Hnd' Hafresh].
  { apply NoDup_cons in Hnd as [? ?]. done. }
  apply NoDup_app in Hnd' as (Hnd1 & Hdisj1 & Hnd').
  apply NoDup_app in Hnd' as (Hndy & Hdisj2 & Hnd2).
  apply NoDup_cons in Hndy as [Hbfresh Hndg].
  rewrite <- (take_drop T ccs) in Hgrand, Hbfresh, Hafresh, Hdisj1, Hdisj2.
  rewrite kids_addrs_app in Hbfresh, Hafresh, Hdisj1, Hdisj2.
  apply Forall_app in Hgrand as [Hg1 Hg2].
  split; [|split; [|split; [subst h'; heap_len|done]]].
  - (* the three rewritten nodes and the untouched subtrees *)
    econstructor.
    + subst h'. heap_lookup.
    + repeat split; cbn [isLeaf n items children]; try done.
      * rewrite Hn, !length_app. simpl. lia.
      * rewrite insert_slot_length by lia. done.
      * apply slots_hold_insert; [done|lia].
      * rewrite insert_slot_length by lia. done.
      * rewrite fmap_app. simpl. rewrite cons_middle, app_assoc.
        replace (S (length k1)) with (length ((taddr <$> cs1) ++ [b]))
          by (rewrite length_app, length_fmap; simpl; lia).
        apply slots_hold_insert.
        -- rewrite <- app_assoc. simpl. rewrite fmap_app in Hcslots. done.
        -- rewrite length_fmap, !length_app in Hcslen. rewrite length_app in Hroom.
           rewrite !length_app, !length_fmap. cbn [length] in *. lia.
      * rewrite length_fmap, !length_app in Hcslen. rewrite length_app in Hroom.
        rewrite length_fmap, !length_app. cbn [length] in *. lia.
    + apply Forall_app. split.
      { apply Hmove; [done|]. set_solver. }
      apply Forall_cons. split.
      { (* y, the left half *)
        econstructor.
        - subst h'. rewrite list_lookup_insert_ne by done. heap_lookup.
        - repeat split; cbn [isLeaf n items children with_n]; try done.
          + rewrite length_take. lia.
          + by apply slots_hold_take.
          + destruct lf.
            * destruct Hycs as [? ->%fmap_nil_inv]. by rewrite take_nil.
            * destruct Hycs as (? & Hys & Hyl). split; [done|].
              rewrite fmap_take. split; [by apply slots_hold_take|].
              rewrite length_fmap in Hyl. rewrite !length_take, length_fmap. lia.
        - apply Hmove; [done|]. set_solver. }
      apply Forall_cons. split.
      { (* z, the new right half *)
        econstructor.
        - subst h'. heap_lookup.
        - assert (items ynd = Some <$> cks) as Hyall by (apply slots_hold_full; [done|lia]).
          repeat split; cbn [isLeaf n items children]; try done.
          + rewrite length_drop. lia.
          + rewrite copy_length, length_replicate. lia.
          + unfold slots_hold. rewrite copy_take.
            * rewrite Hyall, <- fmap_drop, take_ge; [done|]. by rewrite length_fmap.
            * rewrite !length_drop. lia.
            * rewrite length_replicate, length_drop. lia.
          + rewrite Hylf. destruct lf.
            * destruct Hycs as [? ->%fmap_nil_inv]. by rewrite drop_nil.
            * destruct Hycs as (Hyl & Hys & Hyk).
              rewrite length_fmap in Hyk.
              assert (children ynd = Some <$> (taddr <$> ccs)) as Hcall
                by (apply slots_hold_full; [done|rewrite length_fmap; lia]).
              split; [rewrite copy_length, length_replicate; lia|].
              split; [|rewrite length_fmap, !length_drop; lia].
              unfold slots_hold. rewrite copy_take.
              -- rewrite Hcall, <- !fmap_drop, take_ge; [done|]. by rewrite !length_fmap.
              -- rewrite length_fmap, !length_drop. lia.
              -- rewrite length_replicate, length_drop. lia.
        - apply Hmove; [done|]. set_solver. }
      apply Hmove; [done|]. set_solver.
  - (* the addresses: those of before and the new node *)
    cbn [addrs]. rewrite !kids_addrs_app, !kids_addrs_cons.
    cbn [addrs]. rewrite <- (take_drop T ccs) at 3. rewrite kids_addrs_app.
    rewrite (Permutation_swap a (length h)). apply Permutation_skip.
    rewrite (Permutation_middle (mjoin (addrs <$> cs1))). apply Permutation_app_head.
    simpl. rewrite (Permutation_swap b (length h)). apply Permutation_skip.
    rewrite <- !app_assoc. symmetry. apply Permutation_middle.
Qed.
End Split.

(** ** The in-order sequence around one child *)

Section Inorder.
Context {A : Type}.
Implicit Types (ls : list (list A)) (ks : list A).

Lemma interleave_cons l ls ks : interleave (l :: ls) ks = l ++ after ls ks.
Proof. destruct ks; simpl; [by rewrite app_nil_r|done]. Qed.

Lemma interleave_app ls1 ls2 k1 k2 :
  length ls1 = length k1 ->
  interleave (ls1 ++ ls2) (k1 ++ k2) = weave ls1 k1 ++ interleave ls2 k2.
Proof.
  revert k1. induction ls1 as [|l ls1 IH]; intros [|k k1] Hlen; try done.
  simpl. rewrite IH by (simpl in Hlen; lia). by rewrite <- app_assoc.
Qed.

Lemma interleave_at ls1 l ls2 k1 k2 :
  length ls1 = length k1 ->
  interleave (ls1 ++ l :: ls2) (k1 ++ k2) = weave ls1 k1 ++ l ++ after ls2 k2.
Proof. intros Hlen. by rewrite interleave_app, interleave_cons. Qed.

Lemma weave_snoc ls l ks k :
  length ls = length ks ->
  weave (ls ++ [l]) (ks ++ [k]) = weave ls ks ++ l ++ [k].
Proof.
  revert ks. induction ls as [|l' ls IH]; intros [|k' ks] Hlen; try done.
  simpl. rewrite IH by (simpl in Hlen; lia). by rewrite <- app_assoc.
Qed.

Lemma after_split ly m lz ls ks :
  (ly ++ m :: lz) ++ after ls ks = ly ++ after (lz :: ls) (m :: ks).
Proof.
  unfold after at 2. rewrite interleave_cons. by rewrite <- app_assoc.
Qed.
End Inorder.

Section InorderTree.
Context {item : Type}.
Local Abbreviation tree := (tree item).

Lemma inorder_leaf a (ks : list item) : inorder (TNode a true ks []) = ks.
Proof. done. Qed.

Lemma inorder_node a lf (ks : list item) (cs : list tree) :
  inorder (TNode a lf ks cs) = interleave (inorder <$> cs) ks.
Proof. done. Qed.

Lemma inorder_at a lf k1 k2 (cs1 cs2 : list tree) ci :
  length cs1 = length k1 ->
  inorder (TNode a lf (k1 ++ k2) (cs1 ++ ci :: cs2)) =
  weave (inorder <$> cs1) k1 ++ inorder ci ++ after (inorder <$> cs2) k2.
Proof.
  intros Hlen. rewrite inorder_node, fmap_app, fmap_cons.
  apply interleave_at. by rewrite length_fmap.
Qed.

(** The two halves of a full node and its median give back its sequence. *)
Lemma inorder_halves (T : nat) a b (lf : bool) (cks : list item) (ccs : list tree) m :
  1 <= T -> length cks = 2 * T - 1 ->
  (if lf then ccs = [] else length ccs = 2 * T) ->
  cks !! (T - 1) = Some m ->
  inorder (TNode a lf cks ccs) =
  inorder (TNode a lf (take (T - 1) cks) (take T ccs)) ++
  m :: inorder (TNode b lf (drop T cks) (drop T ccs)).
Proof.
  intros HT Hfull Hccs Hm. rewrite !inorder_node.
  assert (cks = take (T - 1) cks ++ m :: drop T cks) as Hcks.
  { rewrite <- (take_drop_middle cks (T - 1) m) at 1 by done.
    do 3 f_equal. lia. }
  destruct lf.
  - subst ccs. rewrite take_nil, drop_nil. simpl. done.
  - destruct (lookup_lt_is_Some_2 ccs (T - 1)) as [c Hc]; [lia|].
    assert (take T ccs = take (T - 1) ccs ++ [c]) as Htake.
    { replace T with (S (T - 1)) at 1 by lia. by apply take_S_r. }
    assert (ccs = take (T - 1) ccs ++ c :: drop T ccs) as Hsplit.
    { rewrite <- (take_drop_middle ccs (T - 1) c) at 1 by done.
      do 3 f_equal. lia. }
    rewrite Hsplit at 1. rewrite Hcks at 1.
    rewrite fmap_app, fmap_cons, interleave_at
      by (rewrite length_fmap, !length_take; lia).
    rewrite Htake, fmap_app. simpl.
    rewrite <- (app_nil_r (take (T - 1) cks)) at 2.
    rewrite interleave_app by (rewrite length_fmap, !length_take; lia).
    simpl. rewrite <- !app_assoc. done.
Qed.
End InorderTree.

(** ** Insertion below a node *)

Section Insert.
Context {item : Type}.
Variable compare : item -> item -> Z.
Hypothesis Hcmp : compare_ok compare.
Variable T : nat.
Hypothesis HT : 1 <= T.
Hypothesis HTmax : (Z.of_nat T <= max_degree)%Z.
Local Abbreviation node := (node item).
Local Abbreviation heap := (heap item).
Local Abbreviation tree := (tree item).
Local Abbreviation t := (Z.of_nat T).
Local Abbreviation sorted := (StronglySorted (lt compare)).

Lemma weave_passes x (ls : list (list item)) k1 rest :
  sorted (weave ls k1 ++ rest) -> Forall (passes compare x) k1 ->
  Forall (passes compare x) (weave ls k1).
Proof.
  revert k1. induction ls as [|l ls IH]; intros [|k k1] Hs Hk1; simpl; try done.
  apply Forall_cons in Hk1 as [Hk Hk1]. simpl in Hs.
  rewrite <- app_assoc in Hs. simpl in Hs.
  apply Forall_app. split.
  - apply Forall_forall. intros e He. apply (passes_lt compare Hcmp).
    eapply (cmp_trans Hcmp); [|by apply (passes_lt compare Hcmp)].
    apply (StronglySorted_app_1_elem_of (lt compare) l _ e k Hs); [done|left].
  - apply Forall_cons. split; [done|]. apply IH; [|done].
    apply StronglySorted_app_1_r in Hs. by apply StronglySorted_cons in Hs as [_ ?].
Qed.

Lemma upsert_at_child x W M (ls2 : list (list item)) k2 :
  Forall (passes compare x) W -> stops compare x k2 ->
  upsert compare x (W ++ M ++ after ls2 k2) = W ++ upsert compare x M ++ after ls2 k2 /\
  find_eq compare x (W ++ M ++ after ls2 k2) = find_eq compare x M.
Proof.
  intros HW Hk2. rewrite upsert_passes, find_eq_passes by done.
  destruct k2 as [|c k2]; simpl.
  - by rewrite !app_nil_r.
  - by rewrite upsert_before_less, find_eq_before_less.
Qed.

Lemma upsert_at_key x P c R :
  sorted (P ++ c :: R) -> compare x c = equal ->
  upsert compare x (P ++ c :: R) = P ++ x :: R /\
  find_eq compare x (P ++ c :: R) = Some c.
Proof.
  intros Hs Hc.
  assert (Forall (passes compare x) P) as HP.
  { apply Forall_forall. intros e He. apply (passes_lt compare Hcmp).
    eapply (cmp_eq_r Hcmp); [|by apply (cmp_eq_sym compare Hcmp)].
    apply (StronglySorted_app_1_elem_of (lt compare) P _ e c Hs); [done|left]. }
  by rewrite upsert_passes, find_eq_passes, upsert_equal, find_eq_equal.
Qed.

Lemma wf_keys k lo a lf (ks ks' : list item) (cs : list tree) :
  length ks' = length ks ->
  wf t k lo (TNode a lf ks cs) -> wf t k lo (TNode a lf ks' cs).
Proof. destruct k; [done|]. simpl. by intros ->. Qed.

Lemma wf_internal k lo a (ks : list item) (cs : list tree) :
  wf t (S k) lo (TNode a false ks cs) <->
  (lo <= Z.of_nat (length ks) <= 2 * t - 1)%Z /\ Forall (wf t k (t - 1)) cs.
Proof. done. Qed.

Lemma wf_halves k a b (cks : list item) (ccs : list tree) lf :
  length cks = 2 * T - 1 ->
  wf t k (t - 1) (TNode a lf cks ccs) ->
  wf t k (t - 1) (TNode a lf (take (T - 1) cks) (take T ccs)) /\
  wf t k (t - 1) (TNode b lf (drop T cks) (drop T ccs)).
Proof.
  intros Hfull. destruct k; [done|]. simpl.
  rewrite length_take, length_drop. intros [_ Hkids].
  split; (split; [lia|]); destruct lf; try done.
  - by apply Forall_take.
  - by apply Forall_drop.
Qed.

(** The children of an internal node, split at an index within range. *)
Lemma kids_at (cs : list tree) (i : nat) :
  i < length cs ->
  exists cs1 ci cs2, cs = cs1 ++ ci :: cs2 /\ length cs1 = i.
Proof.
  intros Hi. destruct (lookup_lt_is_Some_2 cs i Hi) as [ci Hci].
  exists (take i cs), ci, (drop (S i) cs). split.
  - by rewrite take_drop_middle.
  - rewrite length_take. lia.
Qed.

(** [n.items[i] = newItem] on the item equal to [x]. *)
Lemma replace_key_spec k lo (h : heap) a k1 c k2 cs x :
  repr t h (TNode a false (k1 ++ c :: k2) cs) ->
  NoDup (addrs (TNode a false (k1 ++ c :: k2) cs)) ->
  wf t k lo (TNode a false (k1 ++ c :: k2) cs) ->
  sorted (inorder (TNode a false (k1 ++ c :: k2) cs)) ->
  compare x c = equal ->
  exists h',
    update (Some a) (fun nd =>
      rbind (assign (items nd) (Z.of_nat (length k1)) (Some x)) (fun its =>
      Ok (with_items its nd))) h = Ok (tt, h') /\
    ins_post compare T k lo x h (TNode a false (k1 ++ c :: k2) cs) (Some c) h'
      (TNode a false (k1 ++ x :: k2) cs).
Proof.
  intros Hr Hnd Hwf Hs Hc.
  pose proof Hr as (nd & Ha & Hnode & Hkids)%repr_inv.
  pose proof Hnode as (Hlf & Hn & Hcap & Hits & Hclen & Hcslots & Hcslen).
  pose proof (slots_hold_length _ _ Hits) as Hlen.
  pose proof (lookup_lt_Some _ _ _ Ha) as Halt.
  rewrite length_app in Hlen. cbn [length] in Hlen.
  eexists. split.
  { eapply update_ok; [exact Ha|]. rewrite assign_ok by lia. reflexivity. }
  rewrite Nat2Z.id.
  destruct (kids_at cs (length k1)) as (cs1 & ci & cs2 & -> & Hcs1).
  { rewrite length_fmap, length_app in Hcslen. cbn [length] in Hcslen. lia. }
  unfold ins_post.
  rewrite (inorder_at a false k1 (c :: k2)) in Hs |- * by done.
  rewrite (inorder_at a false k1 (x :: k2)) by done.
  cbn [after taddr] in Hs |- *. rewrite app_assoc in Hs.
  destruct (upsert_at_key x _ _ _ Hs Hc) as [Hup Hfind].
  apply NoDup_cons in Hnd as Hfresh. destruct Hfresh as [Hfresh _].
  split_and!.
  - done.
  - apply repr_store; [done| |done|done].
    repeat split; cbn [isLeaf n items children with_items]; try done.
    + rewrite Hn, !length_app. done.
    + by rewrite length_insert.
    + eapply slots_hold_replace. exact Hits.
    + rewrite length_fmap in Hcslen |- *. rewrite Hcslen, !length_app. done.
  - done.
  - eapply wf_keys; [|exact Hwf]. by rewrite !length_app.
  - rewrite !app_assoc. by rewrite Hup.
  - rewrite !app_assoc. by rewrite Hfind.
  - eapply frame_mono; [apply frame_store|]. intros b ->%list_elem_of_singleton. left.
  - intros b Hb. by left.
Qed.

(** The node above an insertion into its child [ci]. *)
Lemma reassemble k lo (h h' : heap) a k1 k2 cs1 ci cs2 ci' prev x :
  repr t h (TNode a false (k1 ++ k2) (cs1 ++ ci :: cs2)) ->
  NoDup (addrs (TNode a false (k1 ++ k2) (cs1 ++ ci :: cs2))) ->
  wf t (S k) lo (TNode a false (k1 ++ k2) (cs1 ++ ci :: cs2)) ->
  sorted (inorder (TNode a false (k1 ++ k2) (cs1 ++ ci :: cs2))) ->
  length cs1 = length k1 ->
  Forall (passes compare x) k1 -> stops compare x k2 ->
  ins_post compare T k (t - 1) x h ci prev h' ci' ->
  ins_post compare T (S k) lo x h (TNode a false (k1 ++ k2) (cs1 ++ ci :: cs2)) prev h'
    (TNode a false (k1 ++ k2) (cs1 ++ ci' :: cs2)).
Proof.
  intros Hr Hnd Hwf Hs Hcs1 Hk1 Hk2 (Haddr & Hr' & Hnd' & Hwf' & Hin & Hprev & Hframe & Hnew).
  pose proof (fun b => repr_addrs_lt _ _ _ b Hr) as Hlt.
  pose proof Hr as (nd & Ha & Hnode & Hkids)%repr_inv.
  apply Forall_app in Hkids as [Hkids1 [Hci Hkids2]%Forall_cons].
  cbn [addrs] in Hnd, Hlt. rewrite kids_addrs_app, kids_addrs_cons in Hnd, Hlt.
  apply NoDup_cons in Hnd as [Hafresh Hnd].
  apply NoDup_app in Hnd as (Hnd1 & Hdisj1 & Hnd).
  apply NoDup_app in Hnd as (Hndc & Hdisj2 & Hnd2).
  rewrite (inorder_at a false k1 k2) in Hs by done.
  assert (Forall (passes compare x) (weave (inorder <$> cs1) k1)) as HW
    by (eapply weave_passes; eauto).
  destruct (upsert_at_child x _ (inorder ci) (inorder <$> cs2) k2 HW Hk2) as [Hup Hfind].
  assert (forall c, Forall (repr t h) c ->
                    (forall b, b ∈ mjoin (addrs <$> c) -> b ∉ addrs ci) ->
                    Forall (repr t h') c) as Hmove.
  { intros c Hc Hdisj. rewrite Forall_forall in Hc |- *. intros d Hd.
    eapply repr_framed; [exact Hframe|by apply Hc|].
    intros b Hb. apply Hdisj. apply elem_of_addrs_kids. eauto. }
  pose proof Hframe as [Hlen Hsame].
  unfold ins_post. split_and!.
  - done.
  - econstructor.
    + rewrite Hsame; [exact Ha|by eapply lookup_lt_Some|]. set_solver.
    + rewrite fmap_app, fmap_cons, Haddr, <- fmap_cons, <- fmap_app. exact Hnode.
    + apply Forall_app. split; [apply Hmove; [done|set_solver]|].
      apply Forall_cons. split; [done|]. apply Hmove; [done|set_solver].
  - cbn [addrs]. rewrite kids_addrs_app, kids_addrs_cons.
    apply NoDup_cons. split.
    { intros Hin'. apply Hafresh.
      rewrite !elem_of_app in Hin' |- *.
      destruct Hin' as [?|[Hin'|?]]; [by left| |by right; right].
      destruct (Hnew _ Hin') as [?|Hge]; [by right; left|].
      assert (a < length h) by (apply Hlt; left). lia. }
    apply NoDup_app. split; [done|]. split.
    { intros b Hb Hin'. rewrite elem_of_app in Hin'.
      destruct Hin' as [Hin'|Hin']; [|eapply Hdisj1; [done|set_solver]].
      destruct (Hnew _ Hin') as [?|Hge]; [eapply Hdisj1; [done|set_solver]|].
      assert (b < length h) by (apply Hlt; set_solver). lia. }
    apply NoDup_app. split; [done|]. split; [|done].
    intros b Hb Hin'.
    destruct (Hnew _ Hb) as [?|Hge]; [by eapply Hdisj2|].
    assert (b < length h) by (apply Hlt; set_solver). lia.
  - apply wf_internal in Hwf as [Hbounds Hwfk]. apply wf_internal. split; [done|].
    apply Forall_app in Hwfk as [? [? ?]%Forall_cons].
    apply Forall_app. split; [done|]. by apply Forall_cons.
  - rewrite !(inorder_at a false k1 k2) by done. by rewrite Hin, Hup.
  - rewrite !(inorder_at a false k1 k2) by done. by rewrite Hfind.
  - split; [done|].
    intros b Hb Hnot. apply Hsame; [done|]. intros Hin'. apply Hnot.
    cbn [addrs]. rewrite kids_addrs_app, kids_addrs_cons. set_solver.
  - intros b. cbn [addrs]. rewrite !kids_addrs_app, !kids_addrs_cons.
    rewrite !elem_of_cons, !elem_of_app.
    intros [?|[?|[Hb|?]]]; [by left; left|by left; right; left| |by left; right; right; right].
    destruct (Hnew _ Hb); [left; right; right; by left|by right].
Qed.

(** An insertion that went through a split of the child first. *)
Lemma ins_post_via_split k lo x (h h1 h' : heap) pt pt1 prev pt' b :
  ins_post compare T k lo x h1 pt1 prev h' pt' ->
  repr t h pt ->
  taddr pt1 = taddr pt ->
  inorder pt1 = inorder pt ->
  addrs pt1 ≡ₚ length h :: addrs pt ->
  length h1 = S (length h) ->
  frame [taddr pt; b] h h1 -> b ∈ addrs pt ->
  ins_post compare T k lo x h pt prev h' pt'.
Proof.
  intros (Haddr & Hr' & Hnd' & Hwf' & Hin & Hprev & Hframe & Hnew)
    Hr Haddr1 Hin1 Hperm Hlen1 Hframe1 Hb.
  unfold ins_post. split_and!; try done.
  - congruence.
  - congruence.
  - congruence.
  - eapply frame_trans; [|exact Hframe|].
    + eapply frame_mono; [exact Hframe1|].
      intros c [->|[->|[]%elem_of_nil]%elem_of_cons]%elem_of_cons;
        [apply taddr_in_addrs|done].
    + intros c Hc. rewrite Hperm in Hc. apply elem_of_cons in Hc as [->|?]; [right; lia|by left].
  - intros c Hc. destruct (Hnew c Hc) as [Hc1|?]; [|right; lia].
    rewrite Hperm in Hc1. apply elem_of_cons in Hc1 as [->|?]; [right; lia|by left].
Qed.

Lemma insert_internal fuel' (h : heap) a nd x st :
  h !! a = Some nd -> isLeaf nd = false ->
  scan compare x (items nd) (Z.to_nat (n nd)) 0 = Ok st ->
  insert compare (S fuel') (Some a) t x h =
  match st with
  | AtEqual i curr =>
      (update (Some a) (fun nd =>
         rbind (assign (items nd) i (Some x)) (fun its =>
         Ok (with_items its nd))) ;;;
       ret (Some curr)) h
  | AtLess i | AtEnd i => descend compare T fuel' a nd i x h
  end.
Proof.
  intros Ha Hlf Hst. cbn [insert].
  rewrite (bind_ok _ _ _ _ _ (deref_ok _ _ _ Ha)). rewrite Hlf.
  unfold bind at 1. unfold lift at 1. rewrite Hst. by destruct st.
Qed.

Section Descend.
Variable k : nat.
Hypothesis IH : forall (h : heap) pt lo x,
  repr t h pt -> NoDup (addrs pt) -> wf t k lo pt ->
  length (tkeys pt) < 2 * T - 1 -> sorted (inorder pt) ->
  exists prev h' pt',
    (forall fuel, k <= fuel ->
       insert compare fuel (Some (taddr pt)) t x h = Ok (prev, h')) /\
    ins_post compare T k lo x h pt prev h' pt'.

Lemma descend_spec (h : heap) a nd k1 k2 cs lo x :
  repr t h (TNode a false (k1 ++ k2) cs) ->
  NoDup (addrs (TNode a false (k1 ++ k2) cs)) ->
  wf t (S k) lo (TNode a false (k1 ++ k2) cs) ->
  length (k1 ++ k2) < 2 * T - 1 ->
  sorted (inorder (TNode a false (k1 ++ k2) cs)) ->
  h !! a = Some nd ->
  Forall (passes compare x) k1 -> stops compare x k2 ->
  exists prev h' pt',
    (forall fuel', k <= fuel' ->
       descend compare T fuel' a nd (Z.of_nat (length k1)) x h = Ok (prev, h')) /\
    ins_post compare T (S k) lo x h (TNode a false (k1 ++ k2) cs) prev h' pt'.
Proof.
  intros Hr Hnd Hwf Hroom Hs Ha Hk1 Hk2.
  pose proof (fun b => repr_addrs_lt _ _ _ b Hr) as Hlt.
  pose proof Hr as (nd' & Ha' & Hnode & Hkids)%repr_inv.
  assert (nd' = nd) as -> by congruence. clear Ha'.
  pose proof Hnode as (Hlf & Hn & Hcap & Hits & Hclen & Hcslots & Hcslen).
  rewrite length_fmap in Hcslen.
  destruct (kids_at cs (length k1)) as (cs1 & [b lfc cks ccs] & cs2 & -> & Hcs1).
  { rewrite length_app in Hcslen. lia. }
  pose proof Hkids as [_ [Hci _]%Forall_cons]%Forall_app.
  pose proof Hci as (cnd & Hb & Hcnode & Hgrand)%repr_inv.
  pose proof Hcnode as (Hclf & Hcn & Hccap & Hcits & Hccs).
  pose proof Hwf as [Hbounds Hwfk]%wf_internal.
  pose proof Hwfk as [_ [Hwfc _]%Forall_cons]%Forall_app.
  assert (index (children nd) (Z.of_nat (length k1)) = Ok (Some b)) as Hidx.
  { apply index_ok; [lia|]. rewrite Nat2Z.id.
    eapply slots_hold_lookup; [exact Hcslots|].
    rewrite list_lookup_fmap, <- Hcs1, list_lookup_middle by done. done. }
  pose proof Hs as Hs'. rewrite (inorder_at a false k1 k2) in Hs' by done.
  assert (sorted (inorder (TNode b lfc cks ccs))) as Hsc.
  { apply StronglySorted_app_1_r in Hs'. by apply StronglySorted_app_1_l in Hs'. }
  assert (NoDup (addrs (TNode b lfc cks ccs))) as Hndc.
  { cbn [addrs] in Hnd. rewrite kids_addrs_app, kids_addrs_cons in Hnd.
    apply NoDup_cons in Hnd as [_ Hnd]. apply NoDup_app in Hnd as (_ & _ & Hnd).
    by apply NoDup_app in Hnd as (? & _ & _). }
  assert (b ∈ addrs (TNode a false (k1 ++ k2) (cs1 ++ TNode b lfc cks ccs :: cs2))) as Hbin.
  { cbn [addrs]. rewrite kids_addrs_app, kids_addrs_cons. cbn [addrs]. set_solver. }
  destruct (decide (length cks = 2 * T - 1)) as [Hfull|Hnotfull].
  - (* the child is full: split it first *)
    destruct (splitChild_spec T h a k1 k2 cs1 cs2 b lfc cks ccs)
      as (m & h1 & Hm & Hsplit & Hr1 & Hperm & Hlen1 & Hframe1); try done.
    set (y' := TNode b lfc (take (T - 1) cks) (take T ccs)) in *.
    set (z' := TNode (length h) lfc (drop T cks) (drop T ccs)) in *.
    set (pt := TNode a false (k1 ++ k2) (cs1 ++ TNode b lfc cks ccs :: cs2)) in *.
    set (pt1 := TNode a false (k1 ++ m :: k2) (cs1 ++ y' :: z' :: cs2)) in *.
    assert (NoDup (addrs pt1)) as Hnd1.
    { rewrite Hperm. apply NoDup_cons. split; [|done].
      intros Hin. apply Hlt in Hin. lia. }
    destruct (wf_halves k b (length h) cks ccs lfc Hfull Hwfc) as [Hwfy Hwfz].
    assert (wf t (S k) lo pt1) as Hwf1.
    { apply wf_internal. split.
      - rewrite length_app in Hroom, Hbounds |- *. cbn [length]. lia.
      - apply Forall_app in Hwfk as [? [_ ?]%Forall_cons].
        apply Forall_app. split; [done|].
        apply Forall_cons. split; [done|]. apply Forall_cons. by split. }
    assert (inorder pt1 = inorder pt) as Hin1.
    { subst pt pt1. rewrite (inorder_at a false k1 k2), (inorder_at a false k1 (m :: k2)) by done.
      rewrite (inorder_halves T b (length h) lfc cks ccs m); try done.
      - fold y' z'. by rewrite after_split.
      - destruct lfc.
        + destruct Hccs as [_ ?%fmap_nil_inv]. done.
        + destruct Hccs as (_ & _ & Hl). rewrite length_fmap in Hl. lia. }
    assert (sorted (inorder pt1)) as Hs1 by (by rewrite Hin1).
    pose proof Hr1 as (nd1 & Ha1 & Hnode1 & Hkids1)%repr_inv.
    pose proof Hkids1 as [_ [Hry [Hrz _]%Forall_cons]%Forall_cons]%Forall_app.
    assert (NoDup (addrs y') /\ NoDup (addrs z')) as [Hndy Hndz].
    { subst pt1. cbn [addrs] in Hnd1. rewrite kids_addrs_app, !kids_addrs_cons in Hnd1.
      apply NoDup_cons in Hnd1 as [_ Hnd1]. apply NoDup_app in Hnd1 as (_ & _ & Hnd1).
      apply NoDup_app in Hnd1 as (? & _ & Hnd1).
      by apply NoDup_app in Hnd1 as (? & _ & _). }
    assert (forall fuel' : nat,
      descend compare T fuel' a nd (Z.of_nat (length k1)) x h =
      (r <- lift (compare_slot compare x (Some m)) ;;
       if (r =? lessThan)%Z then insert compare fuel' (Some b) t x
       else if (r =? equal)%Z then
         update (Some a) (fun nd =>
           rbind (assign (items nd) (Z.of_nat (length k1)) (Some x)) (fun its =>
           Ok (with_items its nd))) ;;;
         ret (Some m)
       else if (r =? greaterThan)%Z then
         nd <- deref (Some a) ;;
         c <- lift (index (children nd) (Z.of_nat (length k1) + 1)) ;;
         insert compare fuel' c t x
       else insert compare fuel' (Some b) t x) h1) as Hcode.
    { intros fuel'. unfold descend.
      erewrite bind_ok; [|unfold lift; by rewrite Hidx].
      step_deref.
      destruct (Z.eqb_spec (n cnd) (2 * t - 1)) as [_|Hne]; [|lia].
      erewrite bind_ok; [|exact Hsplit]. done. }
    destruct (cmp_three Hcmp x m) as [Hxm|[Hxm|Hxm]].
    + (* into the left half *)
      destruct (IH h1 y' (t - 1)%Z x) as (prev & h' & y'' & Hrun & Hpost); try done.
      { subst y'. cbn [tkeys]. rewrite length_take. lia. }
      { subst pt1. rewrite (inorder_at a false k1 (m :: k2)) in Hs1 by done.
        apply StronglySorted_app_1_r in Hs1. by apply StronglySorted_app_1_l in Hs1. }
      exists prev, h', (TNode a false (k1 ++ m :: k2) (cs1 ++ y'' :: z' :: cs2)). split.
      * intros fuel' Hfuel. rewrite Hcode. unfold bind, lift, compare_slot.
        rewrite Hxm. simpl. by apply Hrun.
      * eapply (ins_post_via_split _ _ _ h h1 h' pt pt1); try done.
        by eapply reassemble.
    + (* the median is the equal item *)
      destruct (replace_key_spec (S k) lo h1 a k1 m k2 (cs1 ++ y' :: z' :: cs2) x)
        as (h' & Hupd & Hpost); try done.
      exists (Some m), h', (TNode a false (k1 ++ x :: k2) (cs1 ++ y' :: z' :: cs2)). split.
      * intros fuel' Hfuel. rewrite Hcode. unfold bind at 1. unfold lift, compare_slot.
        rewrite Hxm. simpl.
        erewrite bind_ok; [|exact Hupd]. done.
      * by eapply (ins_post_via_split _ _ _ h h1 h' pt pt1).
    + (* into the new right half *)
      destruct (IH h1 z' (t - 1)%Z x) as (prev & h' & z'' & Hrun & Hpost); try done.
      { subst z'. cbn [tkeys]. rewrite length_drop. lia. }
      { subst pt1. rewrite cons_middle, app_assoc in Hs1.
        rewrite (cons_middle y'), app_assoc in Hs1.
        rewrite (inorder_at a false (k1 ++ [m]) k2) in Hs1
          by (rewrite !length_app; simpl; lia).
        apply StronglySorted_app_1_r in Hs1. by apply StronglySorted_app_1_l in Hs1. }
      exists prev, h', (TNode a false (k1 ++ m :: k2) (cs1 ++ y' :: z'' :: cs2)). split.
      * intros fuel' Hfuel. rewrite Hcode. unfold bind at 1. unfold lift, compare_slot.
        rewrite Hxm. simpl.
        step_deref.
        erewrite bind_ok.
        2:{ unfold lift. rewrite (index_ok _ _ (Some (length h))); [done|lia|].
            destruct Hnode1 as (_ & _ & _ & _ & _ & Hslots1 & _).
            eapply slots_hold_lookup; [exact Hslots1|].
            replace (Z.to_nat (Z.of_nat (length k1) + 1)) with (length (cs1 ++ [y'])).
            2:{ rewrite length_app. simpl. lia. }
            rewrite list_lookup_fmap.
            change (cs1 ++ y' :: z' :: cs2) with (cs1 ++ [y'] ++ z' :: cs2).
            rewrite app_assoc, list_lookup_middle by done. done. }
        by apply Hrun.
      * eapply (ins_post_via_split _ _ _ h h1 h' pt pt1); try done.
        subst pt1.
        replace (k1 ++ m :: k2) with ((k1 ++ [m]) ++ k2) in * by (by rewrite <- app_assoc).
        replace (cs1 ++ y' :: z' :: cs2) with ((cs1 ++ [y']) ++ z' :: cs2) in *
          by (by rewrite <- app_assoc).
        replace (cs1 ++ y' :: z'' :: cs2) with ((cs1 ++ [y']) ++ z'' :: cs2)
          by (by rewrite <- app_assoc).
        eapply reassemble; try done.
        -- rewrite !length_app. simpl. lia.
        -- apply Forall_app. split; [done|]. apply Forall_cons. split; [|done].
           by apply (passes_gt compare Hcmp).
  - (* room in the child *)
    destruct (IH h (TNode b lfc cks ccs) (t - 1)%Z x) as (prev & h' & ci' & Hrun & Hpost);
      try done.
    { destruct k; [done|]. destruct Hwfc as [? _]. cbn [tkeys] in *. lia. }
    exists prev, h', (TNode a false (k1 ++ k2) (cs1 ++ ci' :: cs2)). split.
    + intros fuel' Hfuel. unfold descend.
      erewrite bind_ok; [|unfold lift; by rewrite Hidx].
      step_deref.
      destruct (Z.eqb_spec (n cnd) (2 * t - 1)) as [Heq|_]; [lia|].
      by apply Hrun.
    + by eapply reassemble.
Qed.
End Descend.
(** [insert] below a node that has room: the heap afterwards holds the
    tree with [x] put in, of the same height, and [prev] is the item [x]
    replaced. *)
Lemma insert_spec k : forall (h : heap) pt lo x,
  repr t h pt -> NoDup (addrs pt) -> wf t k lo pt ->
  length (tkeys pt) < 2 * T - 1 -> sorted (inorder pt) ->
  exists prev h' pt',
    (forall fuel, k <= fuel ->
       insert compare fuel (Some (taddr pt)) t x h = Ok (prev, h')) /\
    ins_post compare T k lo x h pt prev h' pt'.
Proof.
  induction k as [|k IH]; intros h [a lf ks cs] lo x Hr Hnd Hwf Hroom Hs; [done|].
  cbn [tkeys taddr] in *.
  pose proof Hr as (nd & Ha & Hnode & Hkids)%repr_inv.
  pose proof Hnode as (Hlf & Hn & Hcap & Hits & Hcs).
  destruct lf.
  - (* a leaf *)
    destruct Hcs as [Hnil ->%fmap_nil_inv].
    destruct (insertLeaf_spec compare t h a ks x Hr) as (h' & Hrun & Hr' & Hframe & Hlen); [lia|].
    exists (find_eq compare x ks), h', (TNode a true (upsert compare x ks) []).
    split.
    + intros [|fuel] Hfuel; [lia|]. cbn [insert].
      rewrite (bind_ok _ _ _ _ _ (deref_ok _ _ _ Ha)). by rewrite Hlf.
    + unfold ins_post. split_and!; try done.
      * destruct Hwf as [Hb Hk]. split; [|done]. cbn [tkeys] in *.
        rewrite upsert_length. destruct (find_eq compare x ks); lia.
      * intros b Hb. by left.
  - (* an internal node *)
    destruct (scan_ok compare x (items nd) ks Hits) as (st & Hst & Hat).
    assert (scan compare x (items nd) (Z.to_nat (n nd)) 0 = Ok st) as Hst'
      by (by rewrite Hn, Nat2Z.id).
    destruct Hat as [k1 c k2 -> Hk1 Hc | k1 c k2 -> Hk1 Hc | Hks].
    + destruct (replace_key_spec (S k) lo h a k1 c k2 cs x) as (h' & Hupd & Hpost);
        try done.
      exists (Some c), h', (TNode a false (k1 ++ x :: k2) cs). split; [|done].
      intros [|fuel] Hfuel; [lia|].
      rewrite (insert_internal fuel h a nd x _ Ha Hlf Hst').
      erewrite bind_ok; [|exact Hupd]. done.
    + destruct (descend_spec k IH h a nd k1 (c :: k2) cs lo x)
        as (prev & h' & pt' & Hrun & Hpost); try done.
      exists prev, h', pt'. split; [|done].
      intros [|fuel] Hfuel; [lia|].
      rewrite (insert_internal fuel h a nd x _ Ha Hlf Hst').
      apply Hrun. lia.
    + destruct (descend_spec k IH h a nd ks [] cs lo x)
        as (prev & h' & pt' & Hrun & Hpost); rewrite ?app_nil_r; try done.
      rewrite app_nil_r in Hpost.
      exists prev, h', pt'. split; [|done].
      intros [|fuel] Hfuel; [lia|].
      rewrite (insert_internal fuel h a nd x _ Ha Hlf Hst').
      apply Hrun. lia.
Qed.
End Insert.

(** ** The tree handle *)

Section Tree.
Context {item : Type}.
Variable compare : item -> item -> Z.
Local Abbreviation node := (node item).
Local Abbreviation heap := (heap item).
Local Abbreviation tree := (tree item).
Local Abbreviation sorted := (StronglySorted (lt compare)).

Lemma newBTree_ok (T : nat) (h : heap) :
  2 <= T -> (Z.of_nat T <= max_degree)%Z ->
  newBTree (Z.of_nat T) h =
    Ok (mkBTree (Some (length h)) (Z.of_nat T) 0,
        h ++ [mkNode true 0 (replicate (2 * T - 1) None) []]) /\
  tree_ok compare (Z.of_nat T) (mkBTree (Some (length h)) (Z.of_nat T) 0)
    (h ++ [mkNode true 0 (replicate (2 * T - 1) None) []])
    (TNode (length h) true [] []) 1.
Proof.
  intros HT HTmax. split.
  - unfold newBTree. destruct (Z.ltb_spec (Z.of_nat T) 2); [lia|].
    erewrite bind_ok; [|apply newNode_ok; [lia|done]]. done.
  - unfold tree_ok. split_and!; try done.
    + econstructor; [by apply list_lookup_middle| |done].
      repeat split; cbn [isLeaf n items children]; try done.
      rewrite length_replicate. lia.
    + cbn. apply NoDup_singleton.
    + cbn. lia.
    + cbn. constructor.
Qed.

(** The degrees of the trees that exist: [newBTree] returns for no other
    64-bit [int]. *)
Lemma newBTree_degree (tz : Z) (h : heap) b h' :
  (- 2 ^ 63 <= tz < 2 ^ 63)%Z -> newBTree tz h = Ok (b, h') ->
  (2 <= tz <= max_degree)%Z.
Proof.
  intros Hint Hrun. unfold newBTree in Hrun.
  destruct (Z.ltb_spec tz 2) as [|Hge]; [done|]. split; [done|].
  destruct (Z_le_gt_dec tz max_degree) as [|Hgt]; [done|].
  unfold bind in Hrun. rewrite newNode_too_large in Hrun; [done|lia].
Qed.

Lemma wf_lo tz k lo lo' (pt : tree) :
  wf tz k lo pt -> (lo' <= Z.of_nat (length (tkeys pt)))%Z -> wf tz k lo' pt.
Proof. destruct k; [done|]. simpl. intros [[? ?] ?] ?. split; [lia|done]. Qed.

(** Growing: the new root holds the old root's median alone, above the
    two halves of the old root. *)
Lemma growRoot_spec (T : nat) b (h : heap) pt k :
  2 <= T -> (Z.of_nat T <= max_degree)%Z ->
  tree_ok compare (Z.of_nat T) b h pt k ->
  length (tkeys pt) = 2 * T - 1 ->
  exists m h1,
    tkeys pt !! (T - 1) = Some m /\
    let y := TNode (taddr pt) (tleaf pt) (take (T - 1) (tkeys pt)) (take T (tkids pt)) in
    let z := TNode (S (length h)) (tleaf pt) (drop T (tkeys pt)) (drop T (tkids pt)) in
    let pt1 := TNode (length h) false [m] [y; z] in
    let b1 := mkBTree (Some (length h)) (Z.of_nat T) (len b) in
    growRoot b h = Ok (b1, h1) /\
    tree_ok compare (Z.of_nat T) b1 h1 pt1 (S k) /\
    inorder pt1 = inorder pt /\
    length h1 = S (S (length h)).
Proof.
  intros HT HTmax (Ht & Hroot & Hr & Hnd & Hwf & Hs & Hlen) Hfull.
  destruct pt as [a lf ks cs]. cbn [tkeys tleaf tkids taddr] in *.
  pose proof (fun x => repr_addrs_lt _ _ _ x Hr) as Hlt.
  set (nd0 := mkNode false 0 (replicate (2 * T - 1) (@None item))
                (<[0 := Some a]> (replicate (2 * T) None))).
  assert (repr (Z.of_nat T) (h ++ [nd0]) (TNode (length h) false [] [TNode a lf ks cs])) as Hr0.
  { econstructor; [by apply list_lookup_middle| |].
    - subst nd0. repeat split; cbn [isLeaf n items children]; try done.
      + rewrite length_replicate. lia.
      + rewrite length_insert, length_replicate. lia.
      + unfold slots_hold. cbn [fmap list_fmap length taddr].
        destruct T as [|T']; [lia|]. replace (2 * S T') with (S (S (2 * T'))) by lia.
        done.
    - apply Forall_cons. split; [|done]. by apply repr_alloc. }
  assert (NoDup (addrs (TNode (length h) false [] [TNode a lf ks cs]))) as Hnd0.
  { cbn [addrs fmap list_fmap mjoin list_join]. rewrite app_nil_r.
    apply NoDup_cons. split; [|done].
    intros Hin. apply Hlt in Hin. lia. }
  destruct (splitChild_spec T (h ++ [nd0]) (length h) [] [] [] [] a lf ks cs)
    as (m & h1 & Hm & Hsplit & Hr1 & Hperm & Hlen1 & Hframe1); try done; try (cbn; lia).
  rewrite length_app in Hr1, Hperm, Hlen1. cbn [length] in Hr1, Hperm, Hlen1.
  replace (length h + 1) with (S (length h)) in * by lia.
  cbn [app] in Hr1, Hperm.
  assert (inorder (TNode (length h) false [m]
                    [TNode a lf (take (T - 1) ks) (take T cs);
                     TNode (S (length h)) lf (drop T ks) (drop T cs)]) =
          inorder (TNode a lf ks cs)) as Hin1.
  { rewrite (inorder_halves T a (S (length h)) lf ks cs m); try done; try lia.
    apply repr_inv in Hr as (nd & _ & (_ & _ & _ & _ & Hcs) & _).
    destruct lf.
    - by destruct Hcs as [_ ?%fmap_nil_inv].
    - destruct Hcs as (_ & _ & Hl). rewrite length_fmap in Hl. lia. }
  exists m, h1. split; [done|]. cbn zeta. split_and!.
  - unfold growRoot. rewrite Ht, Hroot.
    erewrite bind_ok; [|apply newNode_ok; [lia|done]]. cbn [root].
    erewrite bind_ok.
    2:{ eapply update_ok; [by apply list_lookup_middle|]. cbn [children].
        rewrite assign_ok by (rewrite length_replicate; lia). reflexivity. }
    rewrite heap_set_last. cbn [t len].
    erewrite bind_ok; [|exact Hsplit]. done.
  - unfold tree_ok. split_and!; try done.
    + rewrite Hperm. apply NoDup_cons. split; [|done].
      intros Hin.
      cbn [addrs fmap list_fmap mjoin list_join] in Hin. rewrite app_nil_r in Hin.
      apply elem_of_cons in Hin as [?|Hin]; [lia|]. apply Hlt in Hin. lia.
    + apply wf_internal. split; [cbn [length]; lia|].
      destruct (wf_halves T ltac:(lia) k a (S (length h)) ks cs lf Hfull) as [Hy Hz].
      { eapply wf_lo; [exact Hwf|]. cbn [tkeys]. lia. }
      apply Forall_cons. split; [done|]. apply Forall_cons. by split.
    + by rewrite Hin1.
    + cbn [len]. by rewrite Hin1.
  - done.
  - done.
Qed.

Section TreeInsert.
Hypothesis Hcmp : compare_ok compare.
Variable T : nat.
Hypothesis HT : 2 <= T.
Hypothesis HTmax : (Z.of_nat T <= max_degree)%Z.

(** The handle after [insert] went below its (possibly new) root. *)
Lemma tree_ok_after b (h h' : heap) pt pt' k x prev :
  tree_ok compare (Z.of_nat T) b h pt k ->
  ins_post compare T k 0 x h pt prev h' pt' ->
  tree_ok compare (Z.of_nat T)
    (match prev with
     | None => mkBTree (root b) (t b) (len b + 1)
     | Some _ => b
     end) h' pt' k.
Proof.
  intros (Ht & Hroot & Hr & Hnd & Hwf & Hs & Hlen)
    (Haddr & Hr' & Hnd' & Hwf' & Hin & Hprev & _).
  assert (length (inorder pt') =
          match prev with None => S (length (inorder pt)) | Some _ => length (inorder pt) end)
    as Hl by (by rewrite Hin, upsert_length, <- Hprev).
  assert (sorted (inorder pt')) as Hs' by (rewrite Hin; by apply upsert_sorted).
  unfold tree_ok. destruct prev; cbn [t root len]; split_and!; try done;
    try congruence; lia.
Qed.

Lemma btree_insert_spec b (h : heap) pt k x :
  tree_ok compare (Z.of_nat T) b h pt k ->
  exists prev b' h' pt',
    (forall fuel, S k <= fuel ->
       btree_insert compare fuel b x h = Ok ((prev, b'), h')) /\
    tree_ok compare (Z.of_nat T) b' h' pt'
      (if decide (length (tkeys pt) = 2 * T - 1) then S k else k) /\
    inorder pt' = upsert compare x (inorder pt) /\
    prev = find_eq compare x (inorder pt) /\
    len b' = match prev with None => (len b + 1)%Z | Some _ => len b end /\
    root b' = (if decide (length (tkeys pt) = 2 * T - 1) then Some (length h)
               else root b).
Proof.
  intros Hok. pose proof Hok as (Ht & Hroot & Hr & Hnd & Hwf & Hs & Hlen).
  destruct pt as [a lf ks cs]. cbn [tkeys taddr] in *.
  pose proof Hr as (nd & Ha & (Hlf & Hn & _) & _)%repr_inv.
  destruct (decide (length ks = 2 * T - 1)) as [Hfull|Hroom].
  - (* a full root: grow, then insert below the new root *)
    destruct (growRoot_spec T b h (TNode a lf ks cs) k ltac:(lia) HTmax Hok Hfull)
      as (m & h1 & Hm & Hgrow & Hok1 & Hin1 & Hlen1).
    cbn [tkeys taddr tleaf tkids] in *.
    set (pt1 := TNode (length h) false [m] _) in *.
    set (b1 := mkBTree (Some (length h)) (Z.of_nat T) (len b)) in *.
    pose proof Hok1 as (_ & _ & Hr1 & Hnd1 & Hwf1 & Hs1 & _).
    destruct (insert_spec compare Hcmp T ltac:(lia) HTmax (S k) h1 pt1 0%Z x)
      as (prev & h' & pt' & Hrun & Hpost); try done.
    { subst pt1. cbn [tkeys length]. lia. }
    pose proof (tree_ok_after b1 h1 h' pt1 pt' (S k) x prev Hok1 Hpost) as Hok'.
    destruct Hpost as (_ & _ & _ & _ & Hin & Hprev & _).
    eexists prev, _, h', pt'. split_and!.
    + intros fuel Hfuel. unfold btree_insert. rewrite Hroot.
      rewrite (bind_ok _ _ _ _ _ (deref_ok _ _ _ Ha)).
      destruct (Z.eqb_spec (n nd) (2 * t b - 1)) as [_|Hne]; [|lia].
      erewrite bind_ok; [|exact Hgrow].
      erewrite bind_ok; [|apply Hrun; lia]. reflexivity.
    + exact Hok'.
    + by rewrite Hin, Hin1.
    + by rewrite Hprev, Hin1.
    + by destruct prev.
    + by destruct prev.
  - (* room in the root *)
    assert (length ks < 2 * T - 1) as Hlt.
    { destruct k; [done|]. destruct Hwf as [? _]. cbn [tkeys] in *. lia. }
    destruct (insert_spec compare Hcmp T ltac:(lia) HTmax k h (TNode a lf ks cs) 0%Z x)
      as (prev & h' & pt' & Hrun & Hpost); try done.
    pose proof (tree_ok_after b h h' _ pt' k x prev Hok Hpost) as Hok'.
    destruct Hpost as (_ & _ & _ & _ & Hin & Hprev & _).
    eexists prev, _, h', pt'. split_and!.
    + intros fuel Hfuel. unfold btree_insert. rewrite Hroot.
      rewrite (bind_ok _ _ _ _ _ (deref_ok _ _ _ Ha)).
      destruct (Z.eqb_spec (n nd) (2 * t b - 1)) as [Heq|_]; [lia|].
      unfold bind at 1, ret at 1. rewrite Hroot, Ht.
      erewrite bind_ok; [|apply Hrun; lia]. rewrite <- Hroot, <- Ht. reflexivity.
    + exact Hok'.
    + done.
    + done.
    + by destruct prev.
    + by destruct prev.
Qed.

Lemma insert_all_spec xs : forall b (h : heap) pt k fuel,
  tree_ok compare (Z.of_nat T) b h pt k ->
  k + length xs + 1 <= fuel ->
  exists b' h' pt' k',
    insert_all compare fuel b xs h = Ok (b', h') /\
    tree_ok compare (Z.of_nat T) b' h' pt' k' /\
    k' <= k + length xs /\
    inorder pt' = foldl (fun l x => upsert compare x l) (inorder pt) xs.
Proof.
  induction xs as [|x xs IH]; intros b h pt k fuel Hok Hfuel.
  - exists b, h, pt, k. split_and!; [done|done|lia|done].
  - cbn [length] in Hfuel.
    destruct (btree_insert_spec b h pt k x Hok)
      as (prev & b1 & h1 & pt1 & Hrun & Hok1 & Hin1 & _).
    set (k1 := if decide (length (tkeys pt) = 2 * T - 1) then S k else k) in *.
    assert (k1 <= S k) as Hk1 by (subst k1; case_decide; lia).
    destruct (IH b1 h1 pt1 k1 fuel Hok1) as (b' & h' & pt' & k' & Hall & Hok' & Hk' & Hin');
      [lia|].
    exists b', h', pt', k'. split_and!; [|done|cbn [length]; lia|].
    + cbn [insert_all]. erewrite bind_ok; [|apply Hrun; lia]. done.
    + cbn [foldl]. by rewrite Hin', Hin1.
Qed.
End TreeInsert.

(** *** The three global invariants, read off the tree *)

Lemma wf_nodes tz (h : heap) k : forall pt,
  repr tz h pt -> wf tz k (tz - 1) pt ->
  Forall (fun nd => (tz - 1 <= Z.of_nat (length (tkeys nd)) <= 2 * tz - 1)%Z) (nodes pt).
Proof.
  induction k as [|k IH]; intros [a lf ks cs] Hr Hwf; [done|].
  apply repr_inv in Hr as (nd & _ & (_ & _ & _ & _ & Hcs) & Hkids).
  destruct Hwf as [Hb Hwf]. cbn [tkeys tleaf tkids] in *.
  cbn [nodes]. apply Forall_cons. split; [done|].
  destruct lf.
  - destruct Hcs as [_ ->%fmap_nil_inv]. constructor.
  - apply Forall_forall. intros x (l & Hx & (c & -> & Hc)%list_elem_of_fmap)%list_elem_of_join.
    rewrite Forall_forall in Hkids, Hwf.
    specialize (IH c (Hkids c Hc) (Hwf c Hc)). rewrite Forall_forall in IH. by apply IH.
Qed.

Lemma wf_leaf_levels tz (h : heap) k : forall pt lo level,
  repr tz h pt -> wf tz k lo pt ->
  Forall (fun l => l = (level + Z.of_nat k - 1)%Z) (leaf_levels level pt).
Proof.
  induction k as [|k IH]; intros [a lf ks cs] lo level Hr Hwf; [done|].
  apply repr_inv in Hr as (nd & _ & _ & Hkids).
  destruct Hwf as [Hb Hwf]. cbn [tkeys tleaf tkids] in *.
  cbn [leaf_levels]. destruct lf.
  - subst k. repeat constructor. lia.
  - apply Forall_forall. intros x (l & Hx & (c & -> & Hc)%list_elem_of_fmap)%list_elem_of_join.
    rewrite Forall_forall in Hkids, Hwf.
    specialize (IH c _ (level + 1)%Z (Hkids c Hc) (Hwf c Hc)).
    rewrite Forall_forall in IH. rewrite (IH x Hx). lia.
Qed.

Lemma tree_ok_invariants tz b (h : heap) pt k :
  tree_ok compare tz b h pt k ->
  sorted (inorder pt) /\ occupancy tz pt /\ balanced pt.
Proof.
  intros (Ht & Hroot & Hr & Hnd & Hwf & Hs & Hlen). split_and!; [done| |].
  - destruct k; [done|]. destruct pt as [a lf ks cs].
    pose proof Hr as (nd & _ & (_ & _ & _ & _ & Hcs) & Hkids)%repr_inv.
    destruct Hwf as [Hb Hwf]. cbn [tkeys tleaf tkids] in *.
    split; [cbn [tkeys]; lia|]. unfold nodes_below. cbn [tkids].
    destruct lf.
    + destruct Hcs as [_ ->%fmap_nil_inv]. constructor.
    + apply Forall_forall.
      intros x (l & Hx & (c & -> & Hc)%list_elem_of_fmap)%list_elem_of_join.
      rewrite Forall_forall in Hkids, Hwf.
      pose proof (wf_nodes tz h k c (Hkids c Hc) (Hwf c Hc)) as Hn.
      rewrite Forall_forall in Hn. by apply Hn.
  - eexists. by eapply wf_leaf_levels.
Qed.
End Tree.

(** ** checkInvariances *)

Section ReadOnly.
Context {item : Type}.
Variable compare : item -> item -> Z.
Local Abbreviation M := (M item).











End ReadOnly.

Section Traversals.
Context {item : Type}.
Local Abbreviation node := (node item).
Local Abbreviation heap := (heap item).
Local Abbreviation tree := (tree item).

Lemma height_child a lf (ks : list item) (cs : list tree) c :
  c ∈ cs -> height c < height (TNode a lf ks cs).
Proof.
  intros Hc. cbn [height]. apply Nat.lt_succ_r, max_list_elem_of_le.
  apply list_elem_of_fmap. eauto.
Qed.

Lemma weave_nil_r {A} (ls : list (list A)) : weave ls [] = [].
Proof. by destruct ls. Qed.

Lemma weave_extra {A} (ls1 ls2 : list (list A)) ks :
  length ls1 = length ks -> weave (ls1 ++ ls2) ks = weave ls1 ks.
Proof.
  revert ks. induction ls1 as [|l ls1 IH]; intros [|k ks] Hlen; try done.
  - by rewrite weave_nil_r.
  - simpl. rewrite IH; [done|]. simpl in Hlen. lia.
Qed.

Lemma interleave_weave {A} (ls : list (list A)) l ks :
  length ls = length ks -> interleave (ls ++ [l]) ks = weave ls ks ++ l.
Proof.
  intros Hlen. rewrite <- (app_nil_r ks) at 1.
  by rewrite interleave_app.
Qed.

Lemma reachable_kids tz (h : heap) fuel a lf ks cs :
  repr tz h (TNode a lf ks cs) -> height (TNode a lf ks cs) <= S fuel ->
  Forall (reachable tz h fuel) cs.
Proof.
  intros (nd & _ & _ & Hkids)%repr_inv Hh.
  rewrite Forall_forall in Hkids |- *. intros c Hc. split; [by apply Hkids|].
  pose proof (height_child a lf ks cs c Hc). lia.
Qed.

Section ItemsLoop.
Variables (tz : Z) (h : heap) (fuel : nat) (nd : node).
Hypothesis IH : forall pt acc, reachable tz h fuel pt ->
  traverseItems fuel (Some (taddr pt)) acc h = Ok (acc ++ (Some <$> inorder pt), h).

Lemma traverseItems_loop_leaf k2 : forall k1 acc,
  isLeaf nd = true -> slots_hold (items nd) (k1 ++ k2) ->
  for_loop (length k2) (Z.of_nat (length k1)) (items_body fuel nd) acc h =
  Ok (acc ++ (Some <$> k2), h).
Proof.
  induction k2 as [|c k2 IHk]; intros k1 acc Hlf Hits; cbn [for_loop length].
  - by rewrite app_nil_r.
  - erewrite bind_ok.
    2:{ unfold items_body. rewrite Hlf. unfold bind, ret, lift.
        rewrite (index_ok _ _ (Some c)); [done|lia|].
        rewrite Nat2Z.id. eapply slots_hold_lookup; [done|]. by apply list_lookup_middle. }
    replace (Z.of_nat (length k1) + 1)%Z with (Z.of_nat (length (k1 ++ [c])))
      by (rewrite length_app; simpl; lia).
    rewrite IHk; [|done|by rewrite <- app_assoc].
    by rewrite <- app_assoc.
Qed.

Lemma traverseItems_loop_internal k2 : forall k1 cs1 cs2 acc,
  isLeaf nd = false ->
  slots_hold (items nd) (k1 ++ k2) ->
  slots_hold (children nd) (taddr <$> cs1 ++ cs2) ->
  length cs1 = length k1 -> length k2 <= length cs2 ->
  Forall (reachable tz h fuel) cs2 ->
  for_loop (length k2) (Z.of_nat (length k1)) (items_body fuel nd) acc h =
  Ok (acc ++ (Some <$> weave (inorder <$> cs2) k2), h).
Proof.
  induction k2 as [|c k2 IHk]; intros k1 cs1 cs2 acc Hlf Hits Hcs Hlen1 Hlen2 Hreach;
    cbn [for_loop length].
  - by rewrite weave_nil_r, app_nil_r.
  - destruct cs2 as [|ci cs2]; [simpl in Hlen2; lia|].
    apply Forall_cons in Hreach as [Hci Hreach].
    erewrite bind_ok.
    2:{ unfold items_body. rewrite Hlf.
        erewrite bind_ok.
        2:{ erewrite bind_ok.
            2:{ unfold lift. rewrite (index_ok _ _ (Some (taddr ci))); [done|lia|].
                rewrite Nat2Z.id. eapply slots_hold_lookup; [done|].
                rewrite list_lookup_fmap, <- Hlen1, list_lookup_middle by done. done. }
            by apply IH. }
        unfold bind, ret, lift.
        rewrite (index_ok _ _ (Some c)); [done|lia|].
        rewrite Nat2Z.id. eapply slots_hold_lookup; [done|]. by apply list_lookup_middle. }
    replace (Z.of_nat (length k1) + 1)%Z with (Z.of_nat (length (k1 ++ [c])))
      by (rewrite length_app; simpl; lia).
    rewrite (IHk (k1 ++ [c]) (cs1 ++ [ci]) cs2); try done.
    + cbn [fmap list_fmap weave]. rewrite fmap_app, fmap_cons.
      rewrite <- !app_assoc. done.
    + by rewrite <- app_assoc.
    + by rewrite <- app_assoc.
    + rewrite !length_app. simpl. lia.
    + simpl in Hlen2. lia.
Qed.
End ItemsLoop.

Lemma traverseItems_spec tz (h : heap) fuel : forall pt acc,
  reachable tz h fuel pt ->
  traverseItems fuel (Some (taddr pt)) acc h = Ok (acc ++ (Some <$> inorder pt), h).
Proof.
  induction fuel as [|fuel IH]; intros [a lf ks cs] acc [Hr Hh].
  { cbn [height] in Hh. lia. }
  pose proof (reachable_kids _ _ _ _ _ _ _ Hr Hh) as Hkids.
  apply repr_inv in Hr as (nd & Ha & (Hlf & Hn & _ & Hits & Hcs) & _).
  cbn [traverseItems taddr].
  rewrite (bind_ok _ _ _ _ _ (deref_ok _ _ _ Ha)).
  rewrite Hn, Nat2Z.id. destruct lf.
  - destruct Hcs as [_ ->%fmap_nil_inv].
    erewrite bind_ok; [|by apply (traverseItems_loop_leaf h fuel nd ks [])].
    by rewrite Hlf.
  - destruct Hcs as (_ & Hslots & Hlen). rewrite length_fmap in Hlen.
    erewrite bind_ok.
    2:{ apply (traverseItems_loop_internal tz h fuel nd IH ks [] [] cs); try done. lia. }
    rewrite Hlf.
    destruct (lookup_lt_is_Some_2 cs (length ks)) as [cl Hcl]; [lia|].
    erewrite bind_ok.
    2:{ unfold lift. rewrite (index_ok _ _ (Some (taddr cl))); [done|lia|].
        rewrite Nat2Z.id. eapply slots_hold_lookup; [done|].
        by rewrite list_lookup_fmap, Hcl. }
    rewrite IH.
    2:{ rewrite Forall_forall in Hkids. apply Hkids. by eapply list_elem_of_lookup_2. }
    assert (cs = take (length ks) cs ++ [cl]) as Hsplit.
    { rewrite <- (take_drop (length ks) cs) at 1. f_equal.
      rewrite (drop_S _ cl) by done. rewrite drop_ge by lia. done. }
    rewrite inorder_node.
    assert (interleave (inorder <$> cs) ks = weave (inorder <$> cs) ks ++ inorder cl) as ->.
    { rewrite Hsplit, fmap_app. change (inorder <$> [cl]) with [inorder cl].
      rewrite interleave_weave, weave_extra by (rewrite length_fmap, length_take; lia).
      done. }
    by rewrite fmap_app, app_assoc.
Qed.

(** A loop that visits the live children of a node in turn. *)
Lemma for_loop_kids {S : Type} (h : heap) (nd : node)
  (visit : option nat -> S -> M item S) (g : tree -> S -> S) cs2 :
  forall cs1 s,
  slots_hold (children nd) (taddr <$> cs1 ++ cs2) ->
  (forall c s, c ∈ cs2 -> visit (Some (taddr c)) s h = Ok (g c s, h)) ->
  for_loop (length cs2) (Z.of_nat (length cs1))
    (fun i s => c <- lift (index (children nd) i) ;; visit c s) s h =
  Ok (foldl (fun s c => g c s) s cs2, h).
Proof.
  induction cs2 as [|ci cs2 IH]; intros cs1 s Hslots Hvisit; cbn [for_loop length foldl].
  - done.
  - erewrite bind_ok.
    2:{ erewrite bind_ok.
        2:{ unfold lift. rewrite (index_ok _ _ (Some (taddr ci))); [done|lia|].
            rewrite Nat2Z.id. eapply slots_hold_lookup; [done|].
            by rewrite list_lookup_fmap, list_lookup_middle. }
        apply Hvisit. left. }
    replace (Z.of_nat (length cs1) + 1)%Z with (Z.of_nat (length (cs1 ++ [ci])))
      by (rewrite length_app; simpl; lia).
    apply IH.
    + by rewrite <- app_assoc.
    + intros c s' Hc. apply Hvisit. by right.
Qed.

Lemma count_errors_kids tz (cs : list tree) err :
  foldl (fun e c => count_errors tz (nodes c) e) err cs =
  count_errors tz (mjoin (nodes <$> cs)) err.
Proof.
  revert err. induction cs as [|c cs IH]; intros err; [done|].
  cbn [foldl fmap list_fmap mjoin list_join]. unfold count_errors at 3.
  rewrite foldl_app. apply IH.
Qed.

Lemma traverseNode_spec tz (h : heap) fuel : forall pt err,
  reachable tz h fuel pt ->
  traverseNode fuel tz (Some (taddr pt)) err h = Ok (count_errors tz (nodes pt) err, h).
Proof.
  induction fuel as [|fuel IH]; intros [a lf ks cs] err [Hr Hh].
  { cbn [height] in Hh. lia. }
  pose proof (reachable_kids _ _ _ _ _ _ _ Hr Hh) as Hkids.
  apply repr_inv in Hr as (nd & Ha & (Hlf & Hn & _ & Hits & Hcs) & _).
  cbn [traverseNode taddr nodes].
  rewrite (bind_ok _ _ _ _ _ (deref_ok _ _ _ Ha)).
  rewrite Hn, Hlf. unfold count_errors. cbn [foldl tkeys]. destruct lf.
  - destruct Hcs as [_ ->%fmap_nil_inv]. done.
  - destruct Hcs as (_ & Hslots & Hlen). rewrite length_fmap in Hlen.
    replace (Z.to_nat (Z.of_nat (length ks) + 1)) with (length cs) by lia.
    rewrite (for_loop_kids h nd (traverseNode fuel tz)
               (fun c e => count_errors tz (nodes c) e) cs []); [|done|].
    + by rewrite count_errors_kids.
    + intros c e Hc. apply IH. rewrite Forall_forall in Hkids. by apply Hkids.
Qed.

Lemma leaf_levels_kids level (cs : list tree) (acc : list Z) :
  foldl (fun s c => s ++ leaf_levels level c) acc cs =
  acc ++ mjoin (leaf_levels level <$> cs).
Proof.
  revert acc. induction cs as [|c cs IH]; intros acc.
  - by rewrite app_nil_r.
  - cbn [foldl fmap list_fmap mjoin list_join]. by rewrite IH, app_assoc.
Qed.

Lemma traverseHeight_spec tz (h : heap) fuel : forall pt level acc,
  reachable tz h fuel pt ->
  traverseHeight fuel (Some (taddr pt)) level acc h =
  Ok (acc ++ leaf_levels level pt, h).
Proof.
  induction fuel as [|fuel IH]; intros [a lf ks cs] level acc [Hr Hh].
  { cbn [height] in Hh. lia. }
  pose proof (reachable_kids _ _ _ _ _ _ _ Hr Hh) as Hkids.
  apply repr_inv in Hr as (nd & Ha & (Hlf & Hn & _ & Hits & Hcs) & _).
  cbn [traverseHeight taddr leaf_levels].
  rewrite (bind_ok _ _ _ _ _ (deref_ok _ _ _ Ha)).
  rewrite Hn, Hlf. destruct lf; [done|].
  destruct Hcs as (_ & Hslots & Hlen). rewrite length_fmap in Hlen.
  replace (Z.to_nat (Z.of_nat (length ks) + 1)) with (length cs) by lia.
  rewrite (for_loop_kids h nd (fun c s => traverseHeight fuel c (level + 1) s)
             (fun c s => s ++ leaf_levels (level + 1) c) cs []); [|done|].
  - by rewrite leaf_levels_kids.
  - intros c s Hc. apply IH. rewrite Forall_forall in Hkids. by apply Hkids.
Qed.
End Traversals.

Section CheckSpec.
Context {item : Type}.
Variable compare : item -> item -> Z.
Local Abbreviation node := (node item).
Local Abbreviation heap := (heap item).
Local Abbreviation tree := (tree item).
Local Abbreviation error := (invariance_error (item := item)).

Lemma checkInvariances_spec tz b (h : heap) pt fuel :
  t b = tz -> root b = Some (taddr pt) -> reachable tz h fuel pt ->
  checkInvariances compare fuel b h = lift (check_tree compare tz pt) h.
Proof.
  intros Ht Hroot Hreach. pose proof Hreach as [Hr Hh].
  unfold checkInvariances, check_tree. rewrite Hroot, Ht.
  erewrite bind_ok; [|by eapply traverseItems_spec]. cbn [app].
  set (order := match Some <$> inorder pt with [] => _ | _ => _ end).
  destruct order as [[e|]| |]; cbn [rbind]; unfold bind at 1; cbn [lift]; try done.
  destruct pt as [a lf ks cs]. cbn [taddr tkeys] in *.
  destruct fuel as [|fuel]; [cbn [height] in Hh; lia|].
  pose proof (reachable_kids _ _ _ _ _ _ _ Hr Hh) as Hkids.
  pose proof Hr as (nd & Ha & (Hlf & Hn & _ & Hits & Hcs) & _)%repr_inv.
  rewrite (bind_ok _ _ _ _ _ (deref_ok _ _ _ Ha)). rewrite Hn.
  destruct (Z.of_nat (length ks) >? 2 * tz - 1)%Z; [done|].
  assert (forall c, c ∈ cs -> reachable tz h (S fuel) c) as Hkids'.
  { intros c Hc. rewrite Forall_forall in Hkids. destruct (Hkids c Hc). split; [done|lia]. }
  assert ((if isLeaf nd then ret None
           else
             for_loop (Z.to_nat (Z.of_nat (length ks) + 1)) 0 (fun i err =>
               c <- lift (index (children nd) i) ;;
               traverseNode (S fuel) tz c err) None) h =
          Ok (count_errors tz (nodes_below (TNode a lf ks cs)) None, h)) as Hstep.
  { rewrite Hlf. unfold nodes_below. cbn [tkids]. destruct lf.
    - destruct Hcs as [_ ->%fmap_nil_inv]. done.
    - destruct Hcs as (_ & Hslots & Hlen). rewrite length_fmap in Hlen.
      replace (Z.to_nat (Z.of_nat (length ks) + 1)) with (length cs) by lia.
      rewrite (for_loop_kids h nd (traverseNode (S fuel) tz)
                 (fun c e => count_errors tz (nodes c) e) cs []); [|done|].
      + by rewrite count_errors_kids.
      + intros c e Hc. apply traverseNode_spec. by apply Hkids'. }
  erewrite bind_ok; [|exact Hstep].
  destruct (count_errors tz (nodes_below (TNode a lf ks cs)) None); [done|].
  erewrite bind_ok; [|by apply (traverseHeight_spec tz h (S fuel) (TNode a lf ks cs))].
  done.
Qed.

Lemma check_order_items x l :
  check_order compare (Some x) (Some <$> l) = Ok (order_error compare x l).
Proof.
  revert x. induction l as [|y l IH]; intros x; [done|].
  cbn [fmap list_fmap check_order order_error compare_slot rbind].
  destruct (compare y x =? equal)%Z; [done|].
  destruct (compare y x =? lessThan)%Z; [done|]. apply IH.
Qed.

Lemma order_error_some x l e :
  order_error compare x l = Some e ->
  exists a b l1 l2, x :: l = l1 ++ a :: b :: l2 /\
    ((e = DuplicateItems (Some a) (Some b) /\ compare b a = equal) \/
     (e = NotSorted (Some a) (Some b) /\ compare b a = lessThan)).
Proof.
  revert x. induction l as [|y l IH]; intros x; [done|]. cbn [order_error].
  destruct (Z.eqb_spec (compare y x) equal) as [Heq|_].
  { intros [= <-]. exists x, y, [], l. split; [done|]. by left. }
  destruct (Z.eqb_spec (compare y x) lessThan) as [Hlt|_].
  { intros [= <-]. exists x, y, [], l. split; [done|]. by right. }
  intros (a & b & l1 & l2 & Hl & He)%IH.
  exists a, b, (x :: l1), l2. split; [by rewrite Hl|done].
Qed.

Lemma order_error_none x l :
  order_error compare x l = None <->
  Sorted (fun a b => passes compare b a) (x :: l).
Proof.
  revert x. induction l as [|y l IH]; intros x.
  - split; [repeat constructor|done].
  - cbn [order_error]. split.
    + destruct (Z.eqb_spec (compare y x) equal) as [|Hne]; [done|].
      destruct (Z.eqb_spec (compare y x) lessThan) as [|Hnl]; [done|].
      intros H%IH. constructor; [done|]. by constructor.
    + intros Hs. apply Sorted_inv in Hs as [Hs Hhd]. apply HdRel_inv in Hhd as [Hne Hnl].
      destruct (Z.eqb_spec (compare y x) equal) as [|_]; [done|].
      destruct (Z.eqb_spec (compare y x) lessThan) as [|_]; [done|].
      by apply IH.
Qed.

Lemma check_count_cases tz c (err : option error) :
  ((tz - 1 <= c <= 2 * tz - 1)%Z /\ check_count tz c err = err) \/
  (((c < tz - 1)%Z \/ (c > 2 * tz - 1)%Z) /\
   check_count tz c err = Some (NodeInvalidN c)).
Proof.
  unfold check_count.
  destruct (Z.ltb_spec c (tz - 1)); cbn [orb]; [right; split; [lia|done]|].
  destruct (Z.gtb_spec c (2 * tz - 1)); [right; split; [lia|done]|].
  left. split; [lia|done].
Qed.

Lemma count_errors_some tz (nds : list tree) e :
  count_errors tz nds None = Some e ->
  exists nd, nd ∈ nds /\ e = NodeInvalidN (Z.of_nat (length (tkeys nd))) /\
             ~ in_bounds tz nd.
Proof.
  induction nds as [|nd nds IH] using rev_ind; [done|].
  unfold count_errors in *. rewrite foldl_snoc.
  destruct (check_count_cases tz (Z.of_nat (length (tkeys nd)))
              (foldl (fun e nd => check_count tz (Z.of_nat (length (tkeys nd))) e) None nds))
    as [[_ ->]|[Hout ->]].
  - intros (nd' & ? & ?)%IH. exists nd'. split; [set_solver|done].
  - intros [= <-]. exists nd. split; [set_solver|]. split; [done|].
    unfold in_bounds. lia.
Qed.

Lemma count_errors_none tz (nds : list tree) :
  count_errors tz nds None = None <-> Forall (in_bounds tz) nds.
Proof.
  induction nds as [|nd nds IH] using rev_ind; [by split; [constructor|]|].
  unfold count_errors in *. rewrite foldl_snoc, Forall_app, Forall_singleton.
  destruct (check_count_cases tz (Z.of_nat (length (tkeys nd)))
              (foldl (fun e nd => check_count tz (Z.of_nat (length (tkeys nd))) e) None nds))
    as [[Hin ->]|[Hout ->]].
  - rewrite IH. unfold in_bounds. naive_solver.
  - unfold in_bounds. split; [done|]. intros [_ ?]. lia.
Qed.

Lemma first_mismatch_some d l (e : error) :
  first_mismatch d l = Some e ->
  exists x, x ∈ l /\ e = LeafHeightMismatch x d /\ x <> d.
Proof.
  induction l as [|x l IH]; [done|]. cbn [first_mismatch].
  destruct (Z.eqb_spec x d) as [->|Hne].
  - intros (y & ? & ?)%IH. exists y. split; [by right|done].
  - intros [= <-]. exists x. split; [left|done].
Qed.

Lemma first_mismatch_none d l :
  first_mismatch (item := item) d l = None <-> Forall (fun x => x = d) l.
Proof.
  induction l as [|x l IH]; [by split; [constructor|]|]. cbn [first_mismatch].
  rewrite Forall_cons. destruct (Z.eqb_spec x d) as [->|Hne]; [naive_solver|].
  split; [done|]. by intros [? _].
Qed.

Lemma leaf_levels_nonempty tz (h : heap) : forall pt level,
  repr tz h pt -> leaf_levels level pt <> [].
Proof.
  induction pt as [a lf ks cs IH] using tree_induction. intros level Hr.
  apply repr_inv in Hr as (nd & _ & (_ & _ & _ & _ & Hcs) & Hkids).
  cbn [leaf_levels]. destruct lf; [done|].
  destruct Hcs as (_ & _ & Hlen). rewrite length_fmap in Hlen.
  destruct cs as [|c cs]; [simpl in Hlen; lia|].
  apply Forall_cons in IH as [IHc _]. apply Forall_cons in Hkids as [Hc _].
  cbn [fmap list_fmap mjoin list_join]. intros [Hnil _]%app_nil.
  by eapply IHc.
Qed.
End CheckSpec.

Section CheckFacts.
Context {item : Type}.
Variable compare : item -> item -> Z.
Local Abbreviation heap := (heap item).
Local Abbreviation tree := (tree item).

Lemma max_list_le (ns : list nat) m : Forall (fun x => x <= m) ns -> max_list ns <= m.
Proof. induction 1; simpl; lia. Qed.

Lemma wf_height tz (h : heap) k : forall pt lo,
  repr tz h pt -> wf tz k lo pt -> height pt <= k.
Proof.
  induction k as [|k IH]; intros [a lf ks cs] lo Hr Hwf; [done|].
  apply repr_inv in Hr as (nd & _ & (_ & _ & _ & _ & Hcs) & Hkids).
  destruct Hwf as [_ Hwf]. cbn [tleaf tkids] in Hwf. cbn [height].
  apply le_n_S, max_list_le, Forall_fmap, Forall_forall. intros c Hc. cbn.
  destruct lf.
  - destruct Hcs as [_ ->%fmap_nil_inv]. by apply elem_of_nil in Hc.
  - rewrite Forall_forall in Hkids, Hwf. eapply IH; eauto.
Qed.

Lemma sorted_passes (l : list item) :
  compare_ok compare -> StronglySorted (lt compare) l ->
  Sorted (fun a b => passes compare b a) l.
Proof.
  intros Hcmp Hs. apply StronglySorted_Sorted in Hs.
  induction Hs as [|x l Hs IH Hhd]; constructor; [done|].
  destruct Hhd; constructor. by apply (passes_lt compare Hcmp).
Qed.

Lemma check_tree_ok tz b (h : heap) pt k :
  compare_ok compare -> tree_ok compare tz b h pt k ->
  check_tree compare tz pt = Ok None.
Proof.
  intros Hcmp Hok.
  destruct (tree_ok_invariants compare tz b h pt k Hok) as (Hs & [Hroot Hocc] & [d Hbal]).
  destruct Hok as (_ & _ & Hr & _).
  unfold check_tree.
  assert (match Some <$> inorder pt with
          | [] => Ok None
          | first :: rest => check_order compare first rest
          end = Ok None) as ->.
  { destruct (inorder pt) as [|x l]; [done|]. cbn [fmap list_fmap].
    rewrite check_order_items. f_equal. apply order_error_none. by apply sorted_passes. }
  cbn [rbind]. destruct (Z.gtb_spec (Z.of_nat (length (tkeys pt))) (2 * tz - 1)); [lia|].
  assert (count_errors tz (nodes_below pt) None = None) as -> by (by apply count_errors_none).
  pose proof (leaf_levels_nonempty tz h pt 1%Z Hr) as Hne.
  destruct (leaf_levels 1 pt) as [|l0 ls] eqn:Hl; [done|].
  change (index (l0 :: ls) 0) with (Ok l0). cbn [rbind]. f_equal.
  apply first_mismatch_none. apply Forall_cons in Hbal as [-> Hbal].
  by apply Forall_cons.
Qed.

(** On every tree that satisfies the invariants the checker passes. *)
Lemma checkInvariances_passes tz b (h : heap) pt k fuel :
  compare_ok compare -> tree_ok compare tz b h pt k -> k <= fuel ->
  checkInvariances compare fuel b h = Ok (None, h).
Proof.
  intros Hcmp Hok Hfuel. pose proof Hok as (Ht & Hroot & Hr & _ & Hwf & _).
  rewrite (checkInvariances_spec compare tz b h pt fuel); try done.
  - by rewrite (check_tree_ok tz b h pt k).
  - split; [done|]. pose proof (wf_height tz h k pt 0%Z Hr Hwf). lia.
Qed.

Lemma check_tree_describes tz (h : heap) pt :
  repr tz h pt ->
  exists r, check_tree compare tz pt = Ok r /\ describes compare tz pt r.
Proof.
  intros Hr. unfold check_tree.
  assert (exists o, match Some <$> inorder pt with
                    | [] => Ok None
                    | first :: rest => check_order compare first rest
                    end = Ok o /\
                    match o with
                    | Some e => describes compare tz pt (Some e)
                    | None => Sorted (fun a b => passes compare b a) (inorder pt)
                    end) as (o & -> & Ho).
  { destruct (inorder pt) as [|x l] eqn:Hin; [exists None; split; [done|constructor]|].
    cbn [fmap list_fmap]. rewrite check_order_items. eexists. split; [done|].
    destruct (order_error compare x l) as [e|] eqn:He; [|by apply order_error_none].
    apply order_error_some in He as (a & b & l1 & l2 & Hl & [[-> Hc]|[-> Hc]]);
      cbn; rewrite Hin; by exists a, b, l1, l2. }
  cbn [rbind]. destruct o as [e|]; [by exists (Some e)|].
  destruct (Z.gtb_spec (Z.of_nat (length (tkeys pt))) (2 * tz - 1)) as [Hgt|Hle].
  { eexists. split; [done|]. cbn. split; [done|lia]. }
  destruct (count_errors tz (nodes_below pt) None) as [e|] eqn:Hc.
  { apply count_errors_some in Hc as (nd & Hnd & -> & Hout).
    eexists. split; [done|]. cbn. by exists nd. }
  apply count_errors_none in Hc.
  pose proof (leaf_levels_nonempty tz h pt 1%Z Hr) as Hne.
  destruct (leaf_levels 1 pt) as [|l0 ls] eqn:Hl; [done|].
  change (index (l0 :: ls) 0) with (Ok l0). cbn [rbind].
  eexists. split; [done|].
  destruct (first_mismatch l0 (l0 :: ls)) as [e|] eqn:Hm.
  - apply first_mismatch_some in Hm as (x & Hx & -> & Hne'). cbn. rewrite Hl.
    split_and!; [done|left|done].
  - apply first_mismatch_none in Hm. cbn. rewrite Hl. split_and!; try done.
    by exists l0.
Qed.

End CheckFacts.

(** * The claims *)

(** ** Construction, insertion, splitting and checking *)

(** C5: [splitChild(t, i)] on a parent that is not full and whose child
    [y] at index [i] is full: [y] keeps its first [t-1] items (and first [t]
    children), exactly one node [z] is allocated and holds [y]'s items
    from index [t] on (and its children from index [t] on), both with
    [t-1] items; the item of [y] at index [t-1] is returned as the median
    and enters the parent's items at position [i], [z] enters the
    parent's children right after [y], the parent's items and children to
    the right move by one slot, and no other node changes.  The minimum degree is one that a tree
    can have, from 2 to [max_degree]: [newBTree] returns for no other. *)
Theorem splitChild_halves {item : Type} (tz : Z) (h : heap item) a k1 k2 cs1 cs2
  y lf cks ccs :
  (2 <= tz)%Z -> (tz <= max_degree)%Z ->
  repr tz h (TNode a false (k1 ++ k2) (cs1 ++ TNode y lf cks ccs :: cs2)) ->
  NoDup (addrs (TNode a false (k1 ++ k2) (cs1 ++ TNode y lf cks ccs :: cs2))) ->
  length cs1 = length k1 ->
  (Z.of_nat (length (k1 ++ k2)) < 2 * tz - 1)%Z ->
  Z.of_nat (length cks) = (2 * tz - 1)%Z ->
  exists median h',
    splitChild (Some a) tz (Z.of_nat (length k1)) h = Ok (Some median, h') /\
    cks !! Z.to_nat (tz - 1) = Some median /\
    repr tz h'
      (TNode a false (k1 ++ median :: k2)
         (cs1 ++ TNode y lf (take (Z.to_nat (tz - 1)) cks) (take (Z.to_nat tz) ccs)
              :: TNode (length h) lf (drop (Z.to_nat tz) cks) (drop (Z.to_nat tz) ccs)
              :: cs2)) /\
    Z.of_nat (length (take (Z.to_nat (tz - 1)) cks)) = (tz - 1)%Z /\
    Z.of_nat (length (drop (Z.to_nat tz) cks)) = (tz - 1)%Z /\
    length h' = S (length h) /\
    (forall b, b < length h -> b <> a -> b <> y -> h' !! b = h !! b).
Proof.
  intros Ht Hmax Hr Hnd Hcs1 Hroom Hfull.
  rewrite <- (Z2Nat.id tz) in Hr |- * by lia.
  destruct (splitChild_spec (Z.to_nat tz) h a k1 k2 cs1 cs2 y lf cks ccs)
    as (m & h' & Hm & Hrun & Hr' & _ & Hlen & [_ Hframe]); try done; try lia.
  replace (Z.to_nat (Z.of_nat (Z.to_nat tz) - 1)) with (Z.to_nat tz - 1) by lia.
  rewrite Nat2Z.id.
  exists m, h'. split_and!; try done.
  - rewrite length_take. lia.
  - rewrite length_drop. lia.
  - intros b Hb Hba Hby. apply Hframe; [done|]. set_solver.
Qed.

Section Claims.
Context {item : Type}.
Variable compare : item -> item -> Z.
Local Abbreviation heap := (heap item).
Local Abbreviation tree := (tree item).

Lemma upsert_contains x (l : list item) : x ∈ upsert compare x l.
Proof.
  induction l as [|c l IH]; simpl; [left|].
  destruct (compare x c =? equal)%Z; [left|].
  destruct (compare x c =? lessThan)%Z; [left|by right].
Qed.

(** C8: [newBTree] panics for every minimum degree below 2 and produces
    no tree.  For every minimum degree from 2 to [max_degree] it returns
    a tree whose root is a freshly allocated empty leaf and whose [len]
    is 0.  For every larger minimum degree of a 64-bit [int] it produces
    no tree either: [make] panics, the [2*t-1] item slots of the root
    being more than the runtime allocates, or, once [2*t] has wrapped
    around, negative. *)
Theorem newBTree_guard (tz : Z) (h : heap) :
  ((tz < 2)%Z -> newBTree tz h = Panic InvalidMinDegree) /\
  ((2 <= tz)%Z -> (tz <= max_degree)%Z ->
   exists b h' nd,
     newBTree tz h = Ok (b, h') /\
     t b = tz /\ len b = 0%Z /\
     root b = Some (length h) /\ h' = h ++ [nd] /\
     isLeaf nd = true /\ n nd = 0%Z /\ children nd = [] /\
     repr tz h' (TNode (length h) true [] [])) /\
  ((max_degree < tz)%Z -> (tz < 2 ^ 63)%Z -> newBTree tz h = Panic MakeSliceLen).
Proof.
  split_and!.
  - intros Hlt. unfold newBTree. by destruct (Z.ltb_spec tz 2); [|lia].
  - intros Hge Hmax.
    destruct (newBTree_ok compare (Z.to_nat tz) h ltac:(lia) ltac:(lia)) as [Hrun Hok].
    rewrite Z2Nat.id in Hrun, Hok by lia.
    destruct Hok as (_ & _ & Hr & _).
    eexists _, _, _. split; [exact Hrun|]. by split_and!.
  - intros Hgt Hint. unfold newBTree.
    destruct (Z.ltb_spec tz 2) as [Hlt|_].
    { change max_degree with 8796093022208%Z in Hgt. lia. }
    unfold bind. by rewrite newNode_too_large.
Qed.

(** C3: in every state of a tree, [insert(x)] returns absent and adds one
    to [len] when no stored item is equal to [x], and returns the stored
    item equal to [x] and leaves [len] alone when there is one.  So a
    second insert of a key equal to a fresh [x] returns [x] itself, the
    first payload, and [len] has counted the key once.  The minimum degree is one that a tree
    can have, from 2 to [max_degree]: [newBTree] returns for no other. *)
Theorem insert_returns_previous (tz : Z) b (h : heap) pt k x (fuel : nat) :
  compare_ok compare -> (2 <= tz)%Z -> (tz <= max_degree)%Z ->
  tree_ok compare tz b h pt k -> S k <= fuel ->
  exists prev b' h' pt' k',
    btree_insert compare fuel b x h = Ok ((prev, b'), h') /\
    tree_ok compare tz b' h' pt' k' /\
    ((forall c, c ∈ inorder pt -> compare x c <> equal) ->
     prev = None /\ len b' = (len b + 1)%Z) /\
    (forall c, c ∈ inorder pt -> compare x c = equal ->
     prev = Some c /\ len b' = len b) /\
    (forall x2 fuel2,
       (forall c, c ∈ inorder pt -> compare x c <> equal) ->
       compare x2 x = equal -> S k' <= fuel2 ->
       exists b'' h'',
         btree_insert compare fuel2 b' x2 h' = Ok ((Some x, b''), h'') /\
         len b'' = (len b + 1)%Z).
Proof.
  intros Hcmp Ht Hmax Hok Hfuel.
  rewrite <- (Z2Nat.id tz) in Hok |- * by lia.
  destruct (btree_insert_spec compare Hcmp (Z.to_nat tz) ltac:(lia) ltac:(lia) b h pt k x Hok)
    as (prev & b' & h' & pt' & Hrun & Hok' & Hin & Hprev & Hlen & _).
  pose proof Hok as (_ & _ & _ & _ & _ & Hs & _).
  assert ((forall c, c ∈ inorder pt -> compare x c <> equal) ->
          prev = None /\ len b' = (len b + 1)%Z) as Hfresh.
  { intros Hnone. assert (prev = None) as ->; [|done].
    rewrite Hprev. by apply find_eq_none. }
  eexists prev, b', h', pt', _. split_and!; [by apply Hrun|exact Hok'|done| |].
  - intros c Hc Heq. assert (prev = Some c) as ->; [|done].
    rewrite Hprev. by apply find_eq_sorted.
  - intros x2 fuel2 Hnone Heq Hfuel2.
    destruct (btree_insert_spec compare Hcmp (Z.to_nat tz) ltac:(lia) ltac:(lia) b' h' pt' _ x2 Hok')
      as (prev2 & b'' & h'' & pt'' & Hrun2 & Hok'' & _ & Hprev2 & Hlen2 & _).
    pose proof Hok' as (_ & _ & _ & _ & _ & Hs' & _).
    assert (prev2 = Some x) as ->.
    { rewrite Hprev2. apply find_eq_sorted; [done|done| |done].
      rewrite Hin. apply upsert_contains. }
    exists b'', h''. split; [by apply Hrun2|].
    destruct (Hfresh Hnone) as [_ ?]. congruence.
Qed.

(** C6: [insert] on a tree of [k] levels.  If the root is full, a new
    internal root is allocated with the old root as its child 0 and split
    at once, so that it holds one item above two children, and only then
    the item is inserted below the new root: the tree has [k+1] levels
    afterwards.  If the root is not full, the root stays and the tree
    keeps its [k] levels.  The minimum degree is one that a tree
    can have, from 2 to [max_degree]: [newBTree] returns for no other. *)
Theorem insert_grows_at_full_root (tz : Z) b (h : heap) pt k x (fuel : nat) :
  compare_ok compare -> (2 <= tz)%Z -> (tz <= max_degree)%Z ->
  tree_ok compare tz b h pt k -> S k <= fuel ->
  exists prev b' h' pt',
    btree_insert compare fuel b x h = Ok ((prev, b'), h') /\
    Forall (fun l => l = Z.of_nat k) (leaf_levels 1 pt) /\
    if decide (Z.of_nat (length (tkeys pt)) = 2 * tz - 1)%Z
    then
      (exists m y z b1 h1,
         growRoot b h = Ok (b1, h1) /\
         root b1 = Some (length h) /\
         tree_ok compare tz b1 h1 (TNode (length h) false [m] [y; z]) (S k) /\
         root b = Some (taddr y) /\
         insert compare fuel (root b1) tz x h1 = Ok (prev, h')) /\
      root b' = Some (length h) /\
      tree_ok compare tz b' h' pt' (S k) /\
      Forall (fun l => l = Z.of_nat (S k)) (leaf_levels 1 pt')
    else
      root b' = root b /\
      tree_ok compare tz b' h' pt' k /\
      Forall (fun l => l = Z.of_nat k) (leaf_levels 1 pt').
Proof.
  intros Hcmp Ht Hmax Hok Hfuel.
  assert (forall q j b0 (h0 : heap), tree_ok compare tz b0 h0 q j ->
            Forall (fun l => l = Z.of_nat j) (leaf_levels 1 q)) as Hlev.
  { intros q j b0 h0 (_ & _ & Hr & _ & Hwf & _).
    eapply Forall_impl; [by eapply (wf_leaf_levels tz h0 j q 0%Z 1%Z)|].
    intros l ->. lia. }
  pose proof (Hlev pt k b h Hok) as Hlevels.
  rewrite <- (Z2Nat.id tz) in Hok by lia.
  destruct (btree_insert_spec compare Hcmp (Z.to_nat tz) ltac:(lia) ltac:(lia) b h pt k x Hok)
    as (prev & b' & h' & pt' & Hrun & Hok' & _ & _ & _ & Hroot').
  specialize (Hrun fuel Hfuel).
  exists prev, b', h', pt'. split; [done|]. split; [done|].
  destruct (decide (Z.of_nat (length (tkeys pt)) = 2 * tz - 1)%Z) as [Hfull|Hroom].
  - destruct (decide (length (tkeys pt) = 2 * Z.to_nat tz - 1)) as [Hfull'|]; [|lia].
    destruct (growRoot_spec compare (Z.to_nat tz) b h pt k ltac:(lia) ltac:(lia) Hok Hfull')
      as (m & h1 & Hm & Hgrow & Hok1 & _ & _).
    rewrite Z2Nat.id in Hok', Hok1, Hgrow by lia.
    split_and!; [|done|done|exact (Hlev _ _ _ _ Hok')].
    eexists m, _, _, _, h1. split_and!; [exact Hgrow|done|exact Hok1| |].
    + destruct Hok as (_ & ? & _). done.
    + pose proof Hok as (Htb & Hrt & Hr & _).
      pose proof Hr as Hr2. destruct pt as [a lf ks cs].
      apply repr_inv in Hr2 as (nd & Ha & (_ & Hn & _) & _).
      unfold btree_insert in Hrun. cbn [taddr tkeys] in *. rewrite Hrt in Hrun.
      rewrite (bind_ok _ _ _ _ _ (deref_ok _ _ _ Ha)) in Hrun.
      destruct (Z.eqb_spec (n nd) (2 * t b - 1)) as [_|Hne]; [|lia].
      erewrite bind_ok in Hrun; [|exact Hgrow].
      unfold bind, ret in Hrun. cbn [root t] in Hrun |- *.
      destruct (insert compare fuel (Some (length h)) tz x h1) as [[p0 hh]| |];
        [|done|done].
      by injection Hrun as -> _ ->.
  - destruct (decide (length (tkeys pt) = 2 * Z.to_nat tz - 1)) as [|_]; [lia|].
    rewrite Z2Nat.id in Hok' by lia.
    split_and!; [done|done|exact (Hlev _ _ _ _ Hok')].
Qed.

(** C2: after [newTree(t)] with a [t] from 2 to [max_degree], for which
    it returns a tree, and any sequence of inserts the tree satisfies the three global invariants: its in-order item
    sequence is strictly ascending (so free of duplicates), every node
    below the root holds between [t-1] and [2t-1] items and the root at
    most [2t-1], and all leaves are on one level; [checkInvariances]
    returns no error on it.  The run never panics; fuel [length xs + 2]
    is enough. *)
Theorem inserts_keep_invariants (tz : Z) (xs : list item) (h0 : heap) (fuel : nat) :
  compare_ok compare -> (2 <= tz)%Z -> (tz <= max_degree)%Z ->
  length xs + 2 <= fuel ->
  exists b h pt,
    build compare fuel tz xs h0 = Ok (b, h) /\
    root b = Some (taddr pt) /\ repr tz h pt /\
    StronglySorted (lt compare) (inorder pt) /\
    occupancy tz pt /\ balanced pt /\
    checkInvariances compare fuel b h = Ok (None, h) /\
    inorder pt = foldl (fun l x => upsert compare x l) [] xs /\
    len b = Z.of_nat (length (inorder pt)).
Proof.
  intros Hcmp Ht Hmax Hfuel.
  destruct (newBTree_ok compare (Z.to_nat tz) h0 ltac:(lia) ltac:(lia)) as [Hnew Hok].
  destruct (insert_all_spec compare Hcmp (Z.to_nat tz) ltac:(lia) ltac:(lia) xs _ _ _ _ fuel Hok)
    as (b & h & pt & k & Hrun & Hok' & Hk & Hin); [lia|].
  rewrite Z2Nat.id in Hnew, Hrun, Hok' by lia.
  exists b, h, pt. split.
  { unfold build. erewrite bind_ok; [|exact Hnew]. exact Hrun. }
  destruct (tree_ok_invariants compare _ _ _ _ _ Hok') as (? & ? & ?).
  pose proof (checkInvariances_passes compare tz b h pt k fuel Hcmp Hok' ltac:(lia)).
  destruct Hok' as (_ & ? & ? & _ & _ & _ & ?). by split_and!.
Qed.

End Claims.

(** ** The driver's items: concrete runs *)

Lemma degree_2_allocates : (2 <= max_degree)%Z.
Proof. vm_compute. congruence. Defined.

Lemma numItem_compare_ok : compare_ok numItem_compare.
Proof.
  split; unfold numItem_compare, lessThan, equal, greaterThan; intros;
    repeat match goal with
           | H : context [(?a <? ?b)%Z] |- _ => destruct (Z.ltb_spec a b)
           | H : context [(?a =? ?b)%Z] |- _ => destruct (Z.eqb_spec a b)
           | |- context [(?a <? ?b)%Z] => destruct (Z.ltb_spec a b)
           | |- context [(?a =? ?b)%Z] => destruct (Z.eqb_spec a b)
           end; try split; intros; try lia; try discriminate; auto.
Defined.

Lemma keyed_compare_ok : compare_ok keyed_compare.
Proof.
  destruct numItem_compare_ok as [H1 H2 H3 H4 H5].
  split; unfold keyed_compare; intros; eauto.
Defined.

Lemma build_1234 :
  build numItem_compare 10 2 [1; 2; 3; 4]%Z [] = Ok (mkBTree (Some 1) 2 4, heap1234).
Proof. vm_compute. reflexivity. Qed.

(** C1: the run [newBTree(2)], insert 1, 2, 3, 4, search 4.  The item 4
    was inserted and never replaced, and [search] does not return it: at
    the root (one item, two live children) the scan ends past the last
    item and [search] follows [children[len(children)-1]], which is nil. *)
Theorem search_inserted_item_panics :
  run (b <- build numItem_compare 10 2 [1; 2; 3; 4]%Z ;;
       btree_search numItem_compare 10 b 4%Z) = Panic NilDereference.
Proof. vm_compute. reflexivity. Qed.

(** C4: [search] for 4 on the root of [heap1234], whose only item 2 is
    smaller.  The node has item count 1; its child at index 1 holds 4,
    but [search] takes the child at index [len(children)-1 = 3], a nil
    slot, and panics. *)
Theorem search_takes_last_slot :
  (exists nd, heap1234 !! 1 = Some nd /\ isLeaf nd = false /\ n nd = 1%Z /\
     scan numItem_compare 4%Z (items nd) (Z.to_nat (n nd)) 0 = Ok (AtEnd 1) /\
     index (children nd) (n nd) = Ok (Some 2) /\
     search numItem_compare 10 (Some 2) 4%Z heap1234 = Ok (Some 4%Z, heap1234) /\
     index (children nd) (Z.of_nat (length (children nd)) - 1) = Ok None) /\
  search numItem_compare 10 (Some 1) 4%Z heap1234 = Panic NilDereference.
Proof.
  split; [|vm_compute; reflexivity].
  eexists. split; [reflexivity|]. vm_compute. by split_and!.
Qed.

(** C7: the run [newBTree(2)], insert 5, search 3.  The root is a leaf
    whose item 5 is larger than 3; [search] indexes the nil [children]
    slice of the leaf and panics with an index out of range. *)
Theorem search_absent_item_panics :
  run (b <- build numItem_compare 10 2 [5]%Z ;;
       btree_search numItem_compare 10 b 3%Z) = Panic IndexOutOfRange.
Proof. vm_compute. reflexivity. Qed.

Ltac concrete_repr :=
  repeat match goal with
         | |- repr _ _ _ =>
             eapply repr_node; [reflexivity | vm_compute; by split_and! | ]
         | |- Forall _ [] => apply Forall_nil_2
         | |- Forall _ (_ :: _) => apply Forall_cons_2
         end.

(** C10: a replace can restructure.  After the inserts 1, 2, 3 with
    [t = 2] the root is a full leaf holding 1; inserting 1 again returns
    the stored 1 and leaves [len] and the in-order sequence as they were,
    but the root is now a new internal node with one item above two
    leaves: the root was split before the equal item was found. *)
Theorem replace_can_restructure :
  exists (b b' : btree) (h h' : heap numItem),
    build numItem_compare 10 2 [1; 2; 3]%Z [] = Ok (b, h) /\
    root b = Some 0 /\
    repr 2 h (TNode 0 true [1; 2; 3]%Z []) /\
    btree_insert numItem_compare 10 b 1%Z h = Ok ((Some 1%Z, b'), h') /\
    root b' = Some 1 /\
    repr 2 h' (TNode 1 false [2%Z] [TNode 0 true [1%Z] []; TNode 2 true [3%Z] []]) /\
    inorder (TNode 1 false [2%Z] [TNode 0 true [1%Z] []; TNode 2 true [3%Z] []]) =
      inorder (TNode 0 true [1; 2; 3]%Z []) /\
    len b' = len b.
Proof.
  eexists _, _, _, _.
  split; [vm_compute; reflexivity|].
  split; [reflexivity|].
  split; [concrete_repr|].
  split; [vm_compute; reflexivity|].
  split; [reflexivity|].
  split; [concrete_repr|].
  split; reflexivity.
Qed.

(** *** Instances of the general theorems *)

Lemma newBTree_guard_witness :
  newBTree 1 ([] : heap numItem) = Panic InvalidMinDegree /\
  (exists b h' nd,
    newBTree 2 ([] : heap numItem) = Ok (b, h') /\
    t b = 2%Z /\ len b = 0%Z /\
    root b = Some 0 /\ h' = [] ++ [nd] /\
    isLeaf nd = true /\ n nd = 0%Z /\ children nd = [] /\
    repr 2 h' (TNode 0 true [] [])) /\
  newBTree (max_degree + 1) ([] : heap numItem) = Panic MakeSliceLen.
Proof.
  split_and!.
  - apply (proj1 (newBTree_guard numItem_compare 1 [])). lia.
  - apply (proj1 (proj2 (newBTree_guard numItem_compare 2 []))).
    + lia.
    + vm_compute. congruence.
  - apply (proj2 (proj2 (newBTree_guard numItem_compare (max_degree + 1) []))).
    + lia.
    + vm_compute. reflexivity.
Defined.

(** The claim's counterexample: a minimum degree of at least 2 for which
    [newBTree] returns no tree.  [2*t] wraps around to [-2^63], the
    number of item slots to [2^63-1], and [make] panics. *)
Theorem newBTree_huge_degree_panics :
  (2 <= 2 ^ 62)%Z /\
  newBTree (2 ^ 62) ([] : heap numItem) = Panic MakeSliceLen.
Proof. split; [lia|]. vm_compute. reflexivity. Qed.

Lemma fresh_tree_ok :
  tree_ok keyed_compare 2 fresh_tree (fresh_heap keyed) (TNode 0 true [] []) 1.
Proof. exact (proj2 (newBTree_ok keyed_compare 2 [] ltac:(lia) degree_2_allocates)). Defined.

Lemma insert_returns_previous_witness :
  compare_ok keyed_compare /\ (2 <= 2)%Z /\ (2 <= max_degree)%Z /\
  tree_ok keyed_compare 2 fresh_tree (fresh_heap keyed) (TNode 0 true [] []) 1 /\
  2 <= 2 /\
  exists prev b' h' pt' k',
    btree_insert keyed_compare 2 fresh_tree (10, 1)%Z (fresh_heap keyed)
      = Ok ((prev, b'), h') /\
    tree_ok keyed_compare 2 b' h' pt' k' /\
    ((forall c, c ∈ inorder (TNode 0 true ([] : list keyed) []) ->
        keyed_compare (10, 1)%Z c <> equal) ->
     prev = None /\ len b' = (len fresh_tree + 1)%Z) /\
    (forall c, c ∈ inorder (TNode 0 true ([] : list keyed) []) ->
       keyed_compare (10, 1)%Z c = equal ->
     prev = Some c /\ len b' = len fresh_tree) /\
    (forall x2 fuel2,
       (forall c, c ∈ inorder (TNode 0 true ([] : list keyed) []) ->
          keyed_compare (10, 1)%Z c <> equal) ->
       keyed_compare x2 (10, 1)%Z = equal -> S k' <= fuel2 ->
       exists b'' h'',
         btree_insert keyed_compare fuel2 b' x2 h' = Ok ((Some (10, 1)%Z, b''), h'') /\
         len b'' = (len fresh_tree + 1)%Z).
Proof.
  split; [exact keyed_compare_ok|]. split; [lia|]. split; [exact degree_2_allocates|].
  split; [exact fresh_tree_ok|]. split; [lia|].
  apply (insert_returns_previous keyed_compare 2 fresh_tree (fresh_heap keyed)
           (TNode 0 true [] []) 1 (10, 1)%Z 2).
  - exact keyed_compare_ok.
  - lia.
  - exact degree_2_allocates.
  - exact fresh_tree_ok.
  - lia.
Defined.

Lemma heap_full_child_repr :
  repr 2 heap_full_child (TNode 1 false ([] ++ []) ([] ++ TNode 0 true [1; 2; 3]%Z [] :: [])).
Proof. simpl. concrete_repr. Defined.

Lemma heap_full_child_nodup :
  NoDup (addrs (TNode 1 false (([] : list numItem) ++ [])
                  ([] ++ TNode 0 true [1; 2; 3]%Z [] :: []))).
Proof. simpl. apply NoDup_cons. split; [set_solver|]. apply NoDup_singleton. Defined.

Lemma splitChild_halves_witness :
  (2 <= 2)%Z /\ (2 <= max_degree)%Z /\
  exists median h',
    splitChild (Some 1) 2 (Z.of_nat (length ([] : list numItem))) heap_full_child
      = Ok (Some median, h') /\
    [1; 2; 3]%Z !! Z.to_nat (2 - 1) = Some median /\
    repr 2 h'
      (TNode 1 false ([] ++ median :: [])
         ([] ++ TNode 0 true (take (Z.to_nat (2 - 1)) [1; 2; 3]%Z) (take (Z.to_nat 2) [])
             :: TNode (length heap_full_child) true
                  (drop (Z.to_nat 2) [1; 2; 3]%Z) (drop (Z.to_nat 2) [])
             :: [])) /\
    Z.of_nat (length (take (Z.to_nat (2 - 1)) [1; 2; 3]%Z)) = (2 - 1)%Z /\
    Z.of_nat (length (drop (Z.to_nat 2) [1; 2; 3]%Z)) = (2 - 1)%Z /\
    length h' = S (length heap_full_child) /\
    (forall b, b < length heap_full_child -> b <> 1 -> b <> 0 ->
               h' !! b = heap_full_child !! b).
Proof.
  split; [lia|]. split; [exact degree_2_allocates|].
  apply (splitChild_halves 2 heap_full_child 1 [] [] [] [] 0 true [1; 2; 3]%Z []).
  - lia.
  - exact degree_2_allocates.
  - exact heap_full_child_repr.
  - exact heap_full_child_nodup.
  - reflexivity.
  - simpl. lia.
  - simpl. lia.
Defined.

(** C5, without room in the parent: [splitChild(2, 3)] on a full parent
    whose last child is full.  The child is full, as the precondition
    asks, and the call panics at [n.items[i+1:]], since [i+1 = 4] is
    beyond the three item slots of the parent; no median is returned. *)
Theorem splitChild_full_parent_panics :
  repr 2 heap_full_parent full_parent_tree /\
  NoDup (addrs full_parent_tree) /\
  (exists y, tkids full_parent_tree !! 3 = Some y /\
             Z.of_nat (length (tkeys y)) = (2 * 2 - 1)%Z) /\
  splitChild (Some 4) 2 3 heap_full_parent = Panic SliceBounds.
Proof.
  split; [unfold full_parent_tree; concrete_repr|].
  split; [vm_compute; repeat (apply NoDup_cons; split; [set_solver|]); apply NoDup_nil_2|].
  split; [eexists; split; reflexivity|].
  vm_compute. reflexivity.
Qed.

Lemma full_root_ok :
  tree_ok numItem_compare 2 full_root_tree full_root_heap (TNode 0 true [1; 2; 3]%Z []) 1.
Proof.
  unfold tree_ok. split_and!; try reflexivity.
  - concrete_repr.
  - apply NoDup_singleton.
  - simpl. lia.
  - simpl. repeat constructor.
Defined.

Lemma insert_grows_at_full_root_witness :
  compare_ok numItem_compare /\ (2 <= 2)%Z /\ (2 <= max_degree)%Z /\
  tree_ok numItem_compare 2 full_root_tree full_root_heap (TNode 0 true [1; 2; 3]%Z []) 1 /\
  2 <= 2 /\
  exists prev b' h' pt',
    btree_insert numItem_compare 2 full_root_tree 4%Z full_root_heap
      = Ok ((prev, b'), h') /\
    Forall (fun l => l = Z.of_nat 1) (leaf_levels 1 (TNode 0 true [1; 2; 3]%Z [])) /\
    if decide (Z.of_nat (length (tkeys (TNode 0 true [1; 2; 3]%Z []))) = 2 * 2 - 1)%Z
    then
      (exists m y z b1 h1,
         growRoot full_root_tree full_root_heap = Ok (b1, h1) /\
         root b1 = Some (length full_root_heap) /\
         tree_ok numItem_compare 2 b1 h1
           (TNode (length full_root_heap) false [m] [y; z]) 2 /\
         root full_root_tree = Some (taddr y) /\
         insert numItem_compare 2 (root b1) 2 4%Z h1 = Ok (prev, h')) /\
      root b' = Some (length full_root_heap) /\
      tree_ok numItem_compare 2 b' h' pt' 2 /\
      Forall (fun l => l = Z.of_nat 2) (leaf_levels 1 pt')
    else
      root b' = root full_root_tree /\
      tree_ok numItem_compare 2 b' h' pt' 1 /\
      Forall (fun l => l = Z.of_nat 1) (leaf_levels 1 pt').
Proof.
  split; [exact numItem_compare_ok|]. split; [lia|]. split; [exact degree_2_allocates|].
  split; [exact full_root_ok|]. split; [lia|].
  apply (insert_grows_at_full_root numItem_compare 2 full_root_tree full_root_heap
           (TNode 0 true [1; 2; 3]%Z []) 1 4%Z 2).
  - exact numItem_compare_ok.
  - lia.
  - exact degree_2_allocates.
  - exact full_root_ok.
  - lia.
Defined.

Lemma inserts_keep_invariants_witness :
  compare_ok numItem_compare /\ (2 <= 2)%Z /\ (2 <= max_degree)%Z /\
  length [5; 3; 8; 1; 4; 7; 2; 6]%Z + 2 <= 10 /\
  exists b h pt,
    build numItem_compare 10 2 [5; 3; 8; 1; 4; 7; 2; 6]%Z [] = Ok (b, h) /\
    root b = Some (taddr pt) /\ repr 2 h pt /\
    StronglySorted (lt numItem_compare) (inorder pt) /\
    occupancy 2 pt /\ balanced pt /\
    checkInvariances numItem_compare 10 b h = Ok (None, h) /\
    inorder pt =
      foldl (fun l x => upsert numItem_compare x l) [] [5; 3; 8; 1; 4; 7; 2; 6]%Z /\
    len b = Z.of_nat (length (inorder pt)).
Proof.
  split; [exact numItem_compare_ok|]. split; [lia|]. split; [exact degree_2_allocates|]. split; [simpl; lia|].
  apply (inserts_keep_invariants numItem_compare 2 [5; 3; 8; 1; 4; 7; 2; 6]%Z [] 10).
  - exact numItem_compare_ok.
  - lia.
  - exact degree_2_allocates.
  - simpl. lia.
Defined.



(** The error the checker returns on the unsorted leaf. *)
Lemma checkInvariances_unsorted :
  checkInvariances numItem_compare 1 unsorted_tree unsorted_heap =
  Ok (Some (NotSorted (Some 2%Z) (Some 1%Z)), unsorted_heap).
Proof. vm_compute. reflexivity. Qed.

(** * Further properties of the program *)

(** ** insertAt *)

(** X1: [insertAt(arr, index, item)] with [0 <= index < len(arr)] puts
    [item] at [index], moves the elements from [index] on one place to
    the right and drops the last one, so the length stays; with any
    other [index] (including [len(arr)] and [-1]) it panics on a slice
    bound before anything is written. *)
Theorem insertAt_shifts (arr : list Z) (index item : Z) :
  insertAt arr index item =
  if decide (0 <= index < Z.of_nat (length arr))%Z
  then Ok (take (Z.to_nat index) arr ++
           item :: take (length arr - S (Z.to_nat index)) (drop (Z.to_nat index) arr))
  else Panic SliceBounds.
Proof.
  unfold insertAt. case_decide as Hi.
  - rewrite copy_within_shift by done. cbn [rbind].
    rewrite assign_ok.
    2:{ rewrite length_app, !length_take, length_drop. lia. }
    cbn [rbind]. f_equal.
    rewrite shift_then_assign by lia. unfold insert_slot.
    rewrite take_app_ge by (rewrite length_take; lia).
    rewrite length_take. replace (Z.to_nat index `min` length arr) with (Z.to_nat index) by lia.
    f_equal. destruct (length arr - Z.to_nat index) as [|m] eqn:Hm; [lia|].
    cbn [take]. f_equal. f_equal. lia.
  - unfold copy_within, slice_from.
    destruct (Z.leb_spec 0 (index + 1)), (Z.leb_spec (index + 1) (Z.of_nat (length arr)));
      cbn [andb rbind]; try done.
    destruct (Z.leb_spec 0 index), (Z.leb_spec index (Z.of_nat (length arr)));
      cbn [andb rbind]; try done. lia.
Qed.

(** ** numItem *)

(** X2: [numItem.compare] on two numbers answers [lessThan], [equal] or
    [greaterThan] exactly when the receiver is smaller than, the same as
    or larger than the argument; so it is a comparison as the tree
    needs one, and equal items are the same number. *)
Theorem numItem_compare_order :
  compare_ok numItem_compare /\
  forall a b : numItem,
    (numItem_compare a b = lessThan <-> (a < b)%Z) /\
    (numItem_compare a b = equal <-> a = b) /\
    (numItem_compare a b = greaterThan <-> (b < a)%Z).
Proof.
  split; [exact numItem_compare_ok|].
  intros a b. unfold numItem_compare, lessThan, equal, greaterThan.
  destruct (Z.ltb_spec a b), (Z.eqb_spec a b); split_and!; split; intros; try lia; done.
Qed.

(** ** The traversals of checkInvariances *)

Section CheckerFacts.
Context {item : Type}.
Variable compare : item -> item -> Z.
Local Abbreviation heap := (heap item).
Local Abbreviation tree := (tree item).

(** X3: [traverseItems] on a node hands the items below it to its
    callback one by one in in-order, child before item before next
    child, and changes nothing: with the appending callback of
    [checkInvariances] the collected slice grows by the in-order
    sequence of the subtree.  Fuel for the height of the subtree is
    enough. *)
Theorem traverseItems_inorder (tz : Z) (h : heap) (pt : tree) fuel acc :
  repr tz h pt -> height pt <= fuel ->
  traverseItems fuel (Some (taddr pt)) acc h = Ok (acc ++ (Some <$> inorder pt), h).
Proof. intros Hr Hh. by apply (traverseItems_spec tz). Qed.

Lemma lt_transitive : compare_ok compare -> Transitive (lt compare).
Proof. intros Hcmp x y z. apply (cmp_trans Hcmp). Qed.

Lemma passes_sorted (l : list item) :
  compare_ok compare -> Sorted (fun a b => passes compare b a) l ->
  StronglySorted (lt compare) l.
Proof.
  intros Hcmp Hs. apply Sorted.Sorted_StronglySorted; [by apply lt_transitive|].
  induction Hs as [|x l Hs IH Hhd]; constructor; [done|].
  destruct Hhd; constructor. by apply (passes_lt compare Hcmp).
Qed.

Lemma lt_flip_equal x y : compare_ok compare -> lt compare x y -> compare y x = greaterThan.
Proof. intros Hcmp Hxy. by apply (cmp_flip Hcmp). Qed.

(** X4: on a heap that holds a tree behind the root, [checkInvariances]
    returns no error exactly when the in-order sequence is strictly
    ascending, every node below the root holds between [t-1] and [2t-1]
    items and the root at most [2t-1], and all leaves are on one level:
    it accepts no tree that breaks one of the three conditions and
    rejects none that keeps them. *)
Theorem checkInvariances_exact (tz : Z) b (h : heap) (pt : tree) fuel :
  compare_ok compare ->
  t b = tz -> root b = Some (taddr pt) -> repr tz h pt -> height pt <= fuel ->
  checkInvariances compare fuel b h = Ok (None, h) <->
  StronglySorted (lt compare) (inorder pt) /\ occupancy tz pt /\ balanced pt.
Proof.
  intros Hcmp Ht Hroot Hr Hh.
  rewrite (checkInvariances_spec compare tz b h pt fuel) by done.
  destruct (check_tree_describes compare tz h pt Hr) as (r & -> & Hd).
  cbn [lift]. split.
  - intros [= ->]. destruct Hd as (Hs & Hrt & Hocc & Hbal).
    split_and!; [by apply passes_sorted|by split|done].
  - intros (Hs & [Hrt Hocc] & [d Hbal]).
    destruct r as [[before here|before here|c|c|l d']|]; [exfalso..|done].
    + destruct Hd as (x & y & l1 & l2 & _ & _ & Hin & Heq). rewrite Hin in Hs.
      apply StronglySorted_app_1_r in Hs. apply StronglySorted_cons in Hs as [Hx _].
      apply Forall_cons in Hx as [Hxy _]. apply (lt_flip_equal _ _ Hcmp) in Hxy.
      rewrite Heq in Hxy. discriminate.
    + destruct Hd as (x & y & l1 & l2 & _ & _ & Hin & Hlt). rewrite Hin in Hs.
      apply StronglySorted_app_1_r in Hs. apply StronglySorted_cons in Hs as [Hx _].
      apply Forall_cons in Hx as [Hxy _]. apply (lt_flip_equal _ _ Hcmp) in Hxy.
      rewrite Hlt in Hxy. discriminate.
    + destruct Hd as [-> ?]. lia.
    + destruct Hd as (nd & Hnd & _ & Hout). apply Hout.
      rewrite Forall_forall in Hocc. by apply Hocc.
    + destruct Hd as (Hl & Hd' & Hne). rewrite Forall_forall in Hbal.
      apply Hbal in Hl, Hd'. congruence.
Qed.

End CheckerFacts.

(** ** search *)

Section SearchFacts.
Context {item : Type}.
Variable compare : item -> item -> Z.
Local Abbreviation node := (node item).
Local Abbreviation heap := (heap item).
Local Abbreviation tree := (tree item).
Local Abbreviation sorted := (StronglySorted (lt compare)).

Lemma scan_equal x (its : list (option item)) rem : forall i0 i c,
  scan compare x its rem i0 = Ok (AtEqual i c) ->
  (i0 <= i < i0 + Z.of_nat rem)%Z /\ index its i = Ok (Some c) /\ compare x c = equal.
Proof.
  induction rem as [|rem IH]; intros i0 i c; cbn [scan]; [done|].
  destruct (index its i0) as [s| |] eqn:Hidx; cbn [rbind]; [|done..].
  destruct s as [y|]; cbn [compare_slot rbind]; [|done].
  destruct (Z.eqb_spec (compare x y) equal) as [Heq|Hne].
  - intros [= <- <-]. split_and!; [lia|lia|done|done].
  - destruct (compare x y =? lessThan)%Z; [done|].
    intros (? & ? & ?)%IH. split_and!; [lia|lia|done|done].
Qed.

(** X5: whatever the heap holds, a call of [search] that returns leaves
    the heap as it was, and an item it returns compares equal to the
    target and sits in a live item slot of a node of the heap. *)
Theorem search_sound fuel : forall p x (h : heap) r h',
  search compare fuel p x h = Ok (r, h') ->
  h' = h /\
  forall y, r = Some y ->
    compare x y = equal /\
    exists a nd i, h !! a = Some nd /\ (0 <= i < n nd)%Z /\
                   index (items nd) i = Ok (Some y).
Proof.
  induction fuel as [|fuel IH]; intros p x h r h'; cbn [search]; [done|].
  destruct p as [a|]; [|done].
  unfold bind at 1. unfold deref. destruct (h !! a) as [nd|] eqn:Ha; [|done].
  unfold bind at 1, lift at 1.
  destruct (scan compare x (items nd) (Z.to_nat (n nd)) 0) as [st| |] eqn:Hst; [|done..].
  destruct st as [i c|i|i].
  - apply scan_equal in Hst as (Hi & Hidx & Heq).
    unfold lift. rewrite Hidx. intros [= <- <-]. split; [done|].
    intros y [= <-]. split; [done|]. exists a, nd, i. split_and!; [done|lia|lia|done].
  - unfold bind at 1, lift at 1.
    destruct (index (children nd) i) as [c| |]; [|done..]. apply IH.
  - destruct (isLeaf nd).
    + intros [= <- <-]. by split.
    + unfold bind at 1, lift at 1.
      destruct (index (children nd) (Z.of_nat (length (children nd)) - 1)) as [c| |];
        [|done..].
      apply IH.
Qed.

Lemma elem_of_interleave_keys {A} (ls : list (list A)) : forall ks k,
  k ∈ ks -> k ∈ interleave ls ks.
Proof.
  induction ls as [|l ls IH]; intros ks k Hk; [done|].
  destruct ks as [|k0 ks]; [by apply elem_of_nil in Hk|]. cbn [interleave].
  apply elem_of_app. right. apply elem_of_cons in Hk as [->|Hk]; [left|right; by apply IH].
Qed.

Lemma all_full_inv tz a lf (ks : list item) (cs : list tree) :
  all_full tz (TNode a lf ks cs) ->
  (lf = false -> Z.of_nat (length ks) = (2 * tz - 1)%Z) /\ Forall (all_full tz) cs.
Proof.
  unfold all_full. cbn [nodes]. intros [Hhere Hbelow]%Forall_cons. split; [done|].
  apply Forall_forall. intros c Hc. apply Forall_forall. intros nd Hnd.
  rewrite Forall_forall in Hbelow. apply Hbelow.
  apply list_elem_of_join. exists (nodes c). split; [done|].
  apply list_elem_of_fmap. by exists c.
Qed.

Section Found.
Hypothesis Hcmp : compare_ok compare.
Variables (tz : Z) (h : heap).

Lemma search_in_child fuel a nd k1 k2 (cs1 cs2 : list tree) ci x c :
  (forall pt x c,
     repr tz h pt -> sorted (inorder pt) -> all_full tz pt -> height pt <= fuel ->
     find_eq compare x (inorder pt) = Some c ->
     search compare fuel (Some (taddr pt)) x h = Ok (Some c, h)) ->
  repr tz h (TNode a false (k1 ++ k2) (cs1 ++ ci :: cs2)) ->
  h !! a = Some nd ->
  sorted (inorder (TNode a false (k1 ++ k2) (cs1 ++ ci :: cs2))) ->
  all_full tz (TNode a false (k1 ++ k2) (cs1 ++ ci :: cs2)) ->
  height (TNode a false (k1 ++ k2) (cs1 ++ ci :: cs2)) <= S fuel ->
  length cs1 = length k1 ->
  Forall (passes compare x) k1 -> stops compare x k2 ->
  find_eq compare x (inorder (TNode a false (k1 ++ k2) (cs1 ++ ci :: cs2))) = Some c ->
  (c0 <- lift (index (children nd) (Z.of_nat (length k1))) ;;
   search compare fuel c0 x) h = Ok (Some c, h).
Proof.
  intros IH Hr Ha Hs Hfull Hh Hcs1 Hk1 Hk2 Hfind.
  pose proof Hr as (nd' & Ha' & Hnode & Hkids)%repr_inv.
  assert (nd' = nd) as -> by congruence.
  destruct Hnode as (_ & _ & _ & _ & _ & Hcslots & _).
  assert (index (children nd) (Z.of_nat (length k1)) = Ok (Some (taddr ci))) as Hidx.
  { apply index_ok; [lia|]. rewrite Nat2Z.id.
    eapply slots_hold_lookup; [exact Hcslots|].
    rewrite list_lookup_fmap, <- Hcs1, list_lookup_middle by done. done. }
  unfold bind, lift. rewrite Hidx.
  rewrite (inorder_at a false k1 k2) in Hs, Hfind by done.
  apply IH.
  - by apply Forall_app in Hkids as [_ [? _]%Forall_cons].
  - apply StronglySorted_app_1_r in Hs. by apply StronglySorted_app_1_l in Hs.
  - apply all_full_inv in Hfull as [_ Hfull].
    by apply Forall_app in Hfull as [_ [? _]%Forall_cons].
  - pose proof (height_child a false (k1 ++ k2) (cs1 ++ ci :: cs2) ci) as Hlt.
    assert (ci ∈ cs1 ++ ci :: cs2) as Hin by set_solver. apply Hlt in Hin. lia.
  - rewrite <- Hfind. symmetry. apply upsert_at_child; [|done].
    by apply (weave_passes compare Hcmp x _ k1 _ Hs).
Qed.

Lemma search_full_spec fuel : forall (pt : tree) x c,
  repr tz h pt -> sorted (inorder pt) -> all_full tz pt -> height pt <= fuel ->
  find_eq compare x (inorder pt) = Some c ->
  search compare fuel (Some (taddr pt)) x h = Ok (Some c, h).
Proof.
  induction fuel as [|fuel IH]; intros [a lf ks cs] x c Hr Hs Hfull Hh Hfind;
    [cbn [height] in Hh; lia|].
  pose proof Hr as (nd & Ha & Hnode & Hkids)%repr_inv.
  pose proof Hnode as (Hlf & Hn & Hcap & Hits & Hcs).
  cbn [search taddr]. rewrite (bind_ok _ _ _ _ _ (deref_ok _ _ _ Ha)).
  destruct (scan_ok compare x (items nd) ks Hits) as (st & Hscan & Hat).
  replace (Z.to_nat (n nd)) with (length ks) by lia.
  unfold bind at 1, lift at 1. rewrite Hscan.
  destruct Hat as [k1 c' k2 -> Hk1 Heq|k1 c' k2 -> Hk1 Hless|Hall].
  - (* found in this node *)
    assert (c' ∈ inorder (TNode a lf (k1 ++ c' :: k2) cs)) as Hin.
    { cbn [inorder]. apply elem_of_interleave_keys. set_solver. }
    rewrite (find_eq_sorted compare Hcmp x _ c' Hs Hin Heq) in Hfind.
    injection Hfind as <-.
    unfold lift. rewrite (index_ok _ _ (Some c')); [done|lia|].
    rewrite Nat2Z.id. eapply slots_hold_lookup; [exact Hits|].
    by rewrite list_lookup_middle.
  - (* the target sorts before an item *)
    destruct lf.
    + destruct Hcs as [_ ->%fmap_nil_inv]. rewrite inorder_leaf in Hfind.
      by rewrite find_eq_passes, find_eq_less in Hfind.
    + destruct Hcs as (_ & _ & Hlen). rewrite length_fmap, length_app in Hlen.
      destruct (kids_at 1 ltac:(lia) cs (length k1)) as (cs1 & ci & cs2 & -> & Hcs1);
        [cbn [length] in Hlen; lia|].
      by apply (search_in_child fuel a nd k1 (c' :: k2) cs1 cs2 ci x c IH).
  - (* the target is beyond the last item *)
    destruct lf.
    + destruct Hcs as [_ ->%fmap_nil_inv]. rewrite inorder_leaf in Hfind.
      by rewrite find_eq_all_pass in Hfind.
    + rewrite Hlf. destruct Hcs as (Hclen & _ & Hlen). rewrite length_fmap in Hlen.
      destruct (all_full_inv _ _ _ _ _ Hfull) as [Hn' _]. specialize (Hn' eq_refl).
      replace (Z.of_nat (length (children nd)) - 1)%Z with (Z.of_nat (length ks)) by lia.
      destruct (kids_at 1 ltac:(lia) cs (length ks)) as (cs1 & ci & cs2 & -> & Hcs1);
        [lia|].
      rewrite <- (app_nil_r ks) in Hr, Hs, Hfull, Hh, Hfind |- *.
      rewrite (app_nil_r ks) at 1.
      by apply (search_in_child fuel a nd ks [] cs1 cs2 ci x c IH).
Qed.

End Found.

(** X6: on a tree with ascending items in which every internal node is
    full ([2t-1] items), [search(x)] returns the stored item that
    compares equal to [x], for every stored key, and changes nothing.
    Fuel for the height of the tree is enough.  (A tree whose root is a
    leaf has no internal node and is such a tree.) *)
Theorem search_finds_in_full_tree (tz : Z) (h : heap) (pt : tree) x c fuel :
  compare_ok compare ->
  repr tz h pt -> sorted (inorder pt) -> all_full tz pt -> height pt <= fuel ->
  c ∈ inorder pt -> compare x c = equal ->
  search compare fuel (Some (taddr pt)) x h = Ok (Some c, h).
Proof.
  intros Hcmp Hr Hs Hfull Hh Hc Heq.
  apply (search_full_spec Hcmp tz h fuel pt x c); try done.
  by apply find_eq_sorted.
Qed.

End SearchFacts.

Section SearchLeaf.
Context {item : Type}.
Variable compare : item -> item -> Z.
Hypothesis Hcmp : compare_ok compare.
Local Abbreviation heap := (heap item).
Local Abbreviation tree := (tree item).
Local Abbreviation sorted := (StronglySorted (lt compare)).

Lemma cmp_refl x : compare x x = equal.
Proof.
  destruct (cmp_three Hcmp x x) as [Hl|[He|Hg]]; [|done|].
  - pose proof Hl as Hg%(cmp_flip Hcmp). rewrite Hl in Hg. discriminate.
  - pose proof Hg as Hl%(cmp_flip Hcmp). rewrite Hl in Hg. discriminate.
Qed.

Lemma cmp_eq_trans x y z :
  compare x y = equal -> compare y z = equal -> compare x z = equal.
Proof.
  intros Hxy Hyz. destruct (cmp_three Hcmp x z) as [Hl|[He|Hg]]; [|done|].
  - pose proof (cmp_eq_l Hcmp y x z (cmp_eq_sym compare Hcmp _ _ Hxy) Hl) as H.
    rewrite Hyz in H. discriminate.
  - apply (cmp_flip Hcmp) in Hg.
    pose proof (cmp_eq_r Hcmp z x y Hg Hxy) as H.
    rewrite (cmp_eq_sym compare Hcmp _ _ Hyz) in H. discriminate.
Qed.

Lemma lt_asym x y : lt compare x y -> lt compare y x -> False.
Proof.
  unfold lt. intros Hxy Hyx. apply (cmp_flip Hcmp) in Hxy. rewrite Hxy in Hyx. discriminate.
Qed.

End SearchLeaf.

(** ** insert, then search *)

Section RoundTrip.
Context {item : Type}.
Variable compare : item -> item -> Z.
Hypothesis Hcmp : compare_ok compare.
Local Abbreviation heap := (heap item).
Local Abbreviation tree := (tree item).
Local Abbreviation sorted := (StronglySorted (lt compare)).
Local Abbreviation upsert_all := (foldl (fun l x => upsert compare x l)).

Lemma wf_one_leaf tz (h : heap) lo (pt : tree) :
  repr tz h pt -> wf tz 1 lo pt ->
  tleaf pt = true /\ inorder pt = tkeys pt.
Proof.
  destruct pt as [a lf ks cs]. intros (nd & _ & Hnode & _)%repr_inv [_ Hwf].
  cbn [tleaf tkids tkeys] in *. destruct lf.
  - split; [done|]. destruct Hnode as (_ & _ & _ & _ & _ & ->%fmap_nil_inv).
    apply inorder_leaf.
  - destruct Hnode as (_ & _ & _ & _ & _ & _ & Hlen). rewrite length_fmap in Hlen.
    destruct cs as [|c cs]; [done|]. by apply Forall_cons in Hwf as [? _].
Qed.

Lemma upsert_keeps z (l : list item) y :
  y ∈ l -> compare z y <> equal -> y ∈ upsert compare z l.
Proof.
  induction l as [|c l IH]; intros Hy Hne; [by apply elem_of_nil in Hy|]. cbn [upsert].
  destruct (Z.eqb_spec (compare z c) equal) as [Heq|_].
  - apply elem_of_cons in Hy as [->|Hy]; [done|]. by right.
  - destruct (compare z c =? lessThan)%Z; [by right|].
    apply elem_of_cons in Hy as [->|Hy]; [left|right; by apply IH].
Qed.

Lemma upsert_all_elem xs : forall (l : list item) y,
  y ∈ upsert_all l xs -> y ∈ l \/ y ∈ xs.
Proof.
  induction xs as [|x xs IH]; intros l y Hy; cbn [foldl] in Hy; [by left|].
  apply IH in Hy as [Hy|Hy]; [|right; by right].
  apply upsert_elem in Hy as [->|Hy]; [right; left|by left].
Qed.

Lemma upsert_all_sorted xs : forall l : list item, sorted l -> sorted (upsert_all l xs).
Proof.
  induction xs as [|x xs IH]; intros l Hs; cbn [foldl]; [done|].
  apply IH. by apply upsert_sorted.
Qed.

Lemma upsert_all_length xs : forall l : list item,
  length (upsert_all l xs) <= length l + length xs.
Proof.
  induction xs as [|x xs IH]; intros l; cbn [foldl length]; [lia|].
  specialize (IH (upsert compare x l)). rewrite upsert_length in IH.
  destruct (find_eq compare x l); lia.
Qed.

Lemma upsert_all_has xs : forall (l : list item) x,
  x ∈ xs -> exists y, y ∈ upsert_all l xs /\ compare x y = equal.
Proof.
  induction xs as [|z xs IH] using rev_ind; intros l x Hx; [by apply elem_of_nil in Hx|].
  rewrite foldl_snoc. apply elem_of_app in Hx as [Hx| ->%list_elem_of_singleton].
  - destruct (IH l x Hx) as (y & Hy & Hxy).
    destruct (Z.eqb_spec (compare z y) equal) as [Hzy|Hzy].
    + exists z. split; [apply upsert_contains|].
      eapply (cmp_eq_trans compare Hcmp); [exact Hxy|].
      by apply (cmp_eq_sym compare Hcmp).
    + exists y. split; [by apply upsert_keeps|done].
  - exists z. split; [apply upsert_contains|apply (cmp_refl compare Hcmp)].
Qed.

Section Degree.
Variable T : nat.
Hypothesis HT : 2 <= T.
Hypothesis HTmax : (Z.of_nat T <= max_degree)%Z.

Lemma insert_all_leaf xs : forall b (h : heap) (pt : tree) fuel,
  tree_ok compare (Z.of_nat T) b h pt 1 ->
  length (inorder pt) + length xs <= 2 * T - 1 -> 2 <= fuel ->
  exists b' h' pt',
    insert_all compare fuel b xs h = Ok (b', h') /\
    tree_ok compare (Z.of_nat T) b' h' pt' 1 /\
    inorder pt' = upsert_all (inorder pt) xs.
Proof.
  induction xs as [|x xs IH]; intros b h pt fuel Hok Hlen Hfuel.
  - exists b, h, pt. by split_and!.
  - cbn [length] in Hlen.
    destruct (btree_insert_spec compare Hcmp T HT HTmax b h pt 1 x Hok)
      as (prev & b1 & h1 & pt1 & Hrun & Hok1 & Hin1 & _).
    pose proof Hok as (_ & _ & Hr & _ & Hwf & _).
    destruct (wf_one_leaf _ _ _ _ Hr Hwf) as [_ Hkeys].
    destruct (decide (length (tkeys pt) = 2 * T - 1)) as [Hfull|_];
      [rewrite <- Hkeys in Hfull; lia|].
    destruct (IH b1 h1 pt1 fuel Hok1) as (b' & h' & pt' & Hall & Hok' & Hin'); [|done|].
    { rewrite Hin1, upsert_length. destruct (find_eq compare x (inorder pt)); lia. }
    exists b', h', pt'. split_and!; [|done|].
    + cbn [insert_all]. erewrite bind_ok; [|apply Hrun; lia]. done.
    + cbn [foldl]. by rewrite Hin', Hin1.
Qed.

End Degree.

End RoundTrip.

(** ** insertLeaf on a full leaf *)

Section FullLeaf.
Context {item : Type}.
Variable compare : item -> item -> Z.
Local Abbreviation heap := (heap item).

Lemma scan_to_less x (its : list (option item)) c k2 : forall k1 pre,
  slots_hold its (pre ++ k1 ++ c :: k2) ->
  Forall (passes compare x) k1 -> compare x c = lessThan ->
  scan compare x its (length (k1 ++ c :: k2)) (Z.of_nat (length pre)) =
  Ok (AtLess (Z.of_nat (length pre + length k1))).
Proof.
  induction k1 as [|k k1 IH]; intros pre Hits Hk1 Hc; cbn [app length scan];
    cbn [app] in Hits.
  - rewrite (index_ok _ _ (Some c)); [|lia|].
    2:{ rewrite Nat2Z.id. eapply slots_hold_lookup; [exact Hits|].
        by rewrite list_lookup_middle. }
    cbn [rbind compare_slot]. rewrite Hc.
    change (lessThan =? equal)%Z with false. rewrite Z.eqb_refl.
    do 2 f_equal. lia.
  - apply Forall_cons in Hk1 as [[Hne Hnl] Hk1].
    rewrite (index_ok _ _ (Some k)); [|lia|].
    2:{ rewrite Nat2Z.id. eapply slots_hold_lookup; [exact Hits|].
        by rewrite list_lookup_middle. }
    cbn [rbind compare_slot].
    destruct (Z.eqb_spec (compare x k) equal); [done|].
    destruct (Z.eqb_spec (compare x k) lessThan); [done|].
    replace (Z.of_nat (length pre) + 1)%Z with (Z.of_nat (length (pre ++ [k])))
      by (rewrite length_app; cbn [length]; lia).
    rewrite IH; [|by rewrite <- app_assoc|done|done].
    do 2 f_equal. rewrite length_app. cbn [length]. lia.
Qed.

Lemma insert_slot_full (k1 k2 : list item) c x :
  insert_slot (length k1) (Some x) (Some <$> k1 ++ c :: k2) =
  Some <$> k1 ++ x :: take (length k2) (c :: k2).
Proof.
  unfold insert_slot. rewrite fmap_app.
  rewrite (take_app_length' (Some <$> k1)) by (by rewrite length_fmap).
  rewrite (drop_app_length' (Some <$> k1)) by (by rewrite length_fmap).
  rewrite length_app, !length_fmap. cbn [length].
  rewrite take_app_ge by (rewrite length_fmap; lia).
  rewrite length_fmap.
  replace (length k1 + S (length k2) - length k1) with (S (length k2)) by lia.
  rewrite fmap_app, !fmap_cons, fmap_take, fmap_cons. done.
Qed.

(** X9: [insertLeaf] on a leaf that is already full ([2t-1] items) and
    holds no item equal to the new one.  If the new item sorts after
    every item, the call panics with an index out of range.  If it
    sorts before the item [c], the call returns absent, but the shift
    that makes room pushes the largest item of the leaf out of the
    slice, and the count becomes [2t], one more than the leaf has
    slots.  Nothing but the leaf is written. *)
Theorem insertLeaf_on_full_leaf (tz : Z) (h : heap) a (ks : list item) x :
  repr tz h (TNode a true ks []) ->
  Z.of_nat (length ks) = (2 * tz - 1)%Z ->
  (Forall (passes compare x) ks ->
   insertLeaf compare (Some a) x h = Panic IndexOutOfRange) /\
  (forall k1 c k2,
     ks = k1 ++ c :: k2 -> Forall (passes compare x) k1 -> compare x c = lessThan ->
     insertLeaf compare (Some a) x h =
     Ok (None,
         <[a := mkNode true (2 * tz)
                  (Some <$> k1 ++ x :: take (length k2) (c :: k2)) []]> h)).
Proof.
  intros Hr Hfull.
  apply repr_inv in Hr as (nd & Ha & (Hlf & Hn & Hcap & Hits & Hcs & _) & _).
  assert (length ks = length (items nd)) as Hlen by lia.
  pose proof (slots_hold_full _ _ Hits Hlen) as Hitems.
  split.
  - intros Hall.
    destruct (scan_ok compare x (items nd) ks Hits) as (st & Hst & Hat).
    assert (st = AtEnd (Z.of_nat (length ks))) as ->.
    { rewrite Forall_forall in Hall.
      destruct Hat as [k1 c k2 -> _ Hc|k1 c k2 -> _ Hc|_]; [| |done].
      - destruct (Hall c) as [? _]; [set_solver|done].
      - destruct (Hall c) as [_ ?]; [set_solver|done]. }
    unfold insertLeaf.
    rewrite (bind_ok _ _ _ _ _ (deref_ok _ _ _ Ha)).
    rewrite Hn, Nat2Z.id, Hst. unfold bind at 1. cbn [lift].
    unfold bind at 1, ret at 1.
    unfold bind at 1, update. rewrite (bind_ok _ _ _ _ _ (deref_ok _ _ _ Ha)).
    unfold bind, lift, assign.
    destruct (Z.ltb_spec (Z.of_nat (length ks)) (Z.of_nat (length (items nd)))); [lia|].
    by rewrite andb_false_r.
  - intros k1 c k2 -> Hk1 Hc.
    rewrite length_app in Hlen, Hfull. cbn [length] in Hlen, Hfull.
    pose proof (scan_to_less x (items nd) c k2 k1 [] Hits Hk1 Hc) as Hst.
    cbn [length] in Hst. change (Z.of_nat 0) with 0%Z in Hst.
    unfold insertLeaf.
    rewrite (bind_ok _ _ _ _ _ (deref_ok _ _ _ Ha)).
    rewrite Hn, Nat2Z.id, Hst. unfold bind at 1. cbn [lift Nat.add].
    erewrite bind_ok.
    2:{ eapply update_ok; [exact Ha|]. rewrite copy_within_shift by lia. cbn [rbind]. done. }
    erewrite bind_ok.
    2:{ eapply update_ok; [apply list_lookup_insert_eq; by eapply lookup_lt_Some|].
        cbn [items with_items]. rewrite assign_ok; [done|].
        rewrite length_app, !length_take, length_drop. lia. }
    erewrite bind_ok.
    2:{ eapply update_ok; [apply list_lookup_insert_eq; rewrite length_insert;
                           by eapply lookup_lt_Some|]. done. }
    unfold ret. rewrite !list_insert_insert_eq, Nat2Z.id.
    rewrite shift_then_assign by lia.
    do 3 f_equal. unfold with_n, with_items. cbn [isLeaf n items children].
    rewrite Hlf, Hcs, Hn, Hitems, insert_slot_full. f_equal.
    rewrite length_app. cbn [length]. lia.
Qed.

End FullLeaf.

(** ** Runs of inserts *)

Section Runs.
Context {item : Type}.
Variable compare : item -> item -> Z.
Hypothesis Hcmp : compare_ok compare.
Local Abbreviation heap := (heap item).
Local Abbreviation tree := (tree item).
Local Abbreviation sorted := (StronglySorted (lt compare)).
Local Abbreviation upsert_all := (foldl (fun l x => upsert compare x l)).

Lemma upsert_same x (l : list item) : sorted l -> x ∈ l -> upsert compare x l = l.
Proof.
  induction l as [|c l IH]; intros Hs Hx; [by apply elem_of_nil in Hx|].
  apply StronglySorted_cons in Hs as [Hc Hs]. rewrite Forall_forall in Hc.
  cbn [upsert]. apply elem_of_cons in Hx as [->|Hx].
  - by rewrite (cmp_refl compare Hcmp), Z.eqb_refl.
  - pose proof (Hc x Hx) as Hcx. apply (cmp_flip Hcmp) in Hcx. rewrite Hcx.
    change (greaterThan =? equal)%Z with false.
    change (greaterThan =? lessThan)%Z with false. f_equal. by apply IH.
Qed.

Lemma upsert_all_keeps xs : forall (l : list item) y,
  y ∈ l -> Forall (fun z => compare z y <> equal) xs -> y ∈ upsert_all l xs.
Proof.
  induction xs as [|z xs IH]; intros l y Hy Hxs; cbn [foldl]; [done|].
  apply Forall_cons in Hxs as [Hz Hxs]. apply IH; [|done]. by apply upsert_keeps.
Qed.

Lemma upsert_all_distinct xs : forall l : list item,
  distinct_keys compare xs -> forall x, x ∈ xs -> x ∈ upsert_all l xs.
Proof.
  induction xs as [|z xs IH]; intros l Hd x Hx; [by apply elem_of_nil in Hx|].
  destruct Hd as [Hz Hd]. cbn [foldl]. apply elem_of_cons in Hx as [->|Hx]; [|by apply IH].
  apply upsert_all_keeps; [apply upsert_contains|done].
Qed.

Lemma prevs_of_fresh xs : forall l : list item,
  distinct_keys compare xs ->
  (forall x y, x ∈ xs -> y ∈ l -> compare x y <> equal) ->
  prevs_of compare l xs = replicate (length xs) None /\
  length (upsert_all l xs) = length l + length xs.
Proof.
  induction xs as [|x xs IH]; intros l Hd Hnew; [cbn; split; [done|lia]|].
  destruct Hd as [Hx Hd]. cbn [prevs_of foldl length replicate].
  assert (find_eq compare x l = None) as Hnone.
  { apply find_eq_none. intros c Hc. apply Hnew; [left|done]. }
  destruct (IH (upsert compare x l) Hd) as [-> ->].
  - intros x' y Hx' [->|Hy]%upsert_elem.
    + rewrite Forall_forall in Hx. by apply Hx.
    + apply Hnew; [by right|done].
  - rewrite Hnone, upsert_length, Hnone. split; [done|lia].
Qed.

Lemma prevs_of_stored xs : forall l : list item,
  sorted l -> (forall x, x ∈ xs -> x ∈ l) ->
  prevs_of compare l xs = Some <$> xs /\ upsert_all l xs = l.
Proof.
  induction xs as [|x xs IH]; intros l Hs Hin; [done|].
  cbn [prevs_of foldl fmap list_fmap].
  assert (x ∈ l) as Hx by (apply Hin; left).
  rewrite (upsert_same x l Hs Hx).
  rewrite (find_eq_sorted compare Hcmp x l x Hs Hx (cmp_refl compare Hcmp x)).
  destruct (IH l Hs) as [-> ->]; [|done]. intros x' Hx'. apply Hin. by right.
Qed.

Lemma distinct_keys_perm (xs ys : list item) :
  xs ≡ₚ ys -> distinct_keys compare xs -> distinct_keys compare ys.
Proof.
  induction 1 as [|x l l' Hp IH|x y l|l1 l2 l3 _ IH1 _ IH2]; [done| | |auto].
  - intros [Hx Hd]. split; [by rewrite <- Hp|by apply IH].
  - intros [[Hxy Hy]%Forall_cons [Hx Hd]]. cbn [distinct_keys]. split_and!; try done.
    apply Forall_cons. split; [|done]. intros Heq.
    by apply (cmp_eq_sym compare Hcmp) in Heq.
Qed.

Lemma upsert_perm_fresh x (l : list item) :
  (forall y, y ∈ l -> compare x y <> equal) -> upsert compare x l ≡ₚ x :: l.
Proof.
  induction l as [|c l IH]; intros Hnew; [done|]. cbn [upsert].
  destruct (Z.eqb_spec (compare x c) equal) as [Heq|_]; [destruct (Hnew c); [left|done]|].
  destruct (compare x c =? lessThan)%Z; [done|].
  rewrite IH; [apply Permutation_swap|]. intros y Hy. apply Hnew. by right.
Qed.

Lemma upsert_all_perm xs : forall l : list item,
  distinct_keys compare xs ->
  (forall x y, x ∈ xs -> y ∈ l -> compare x y <> equal) ->
  upsert_all l xs ≡ₚ l ++ xs.
Proof.
  induction xs as [|x xs IH]; intros l Hd Hnew; cbn [foldl]; [by rewrite app_nil_r|].
  destruct Hd as [Hx Hd]. rewrite IH; [|done|].
  - rewrite upsert_perm_fresh; [cbn [app]; apply Permutation_middle|].
    intros y Hy. apply Hnew; [left|done].
  - intros x' y Hx' [->|Hy]%upsert_elem.
    + rewrite Forall_forall in Hx. by apply Hx.
    + apply Hnew; [by right|done].
Qed.

Section Degree.
Variable T : nat.
Hypothesis HT : 2 <= T.
Hypothesis HTmax : (Z.of_nat T <= max_degree)%Z.

Lemma insert_each_spec xs : forall b (h : heap) (pt : tree) k fuel,
  tree_ok compare (Z.of_nat T) b h pt k ->
  k + length xs + 1 <= fuel ->
  exists b' h' pt' k',
    insert_each compare fuel b xs h = Ok ((prevs_of compare (inorder pt) xs, b'), h') /\
    tree_ok compare (Z.of_nat T) b' h' pt' k' /\
    k' <= k + length xs /\
    inorder pt' = upsert_all (inorder pt) xs.
Proof.
  induction xs as [|x xs IH]; intros b h pt k fuel Hok Hfuel.
  - exists b, h, pt, k. split_and!; [done|done|lia|done].
  - cbn [length] in Hfuel.
    destruct (btree_insert_spec compare Hcmp T HT HTmax b h pt k x Hok)
      as (prev & b1 & h1 & pt1 & Hrun & Hok1 & Hin1 & Hprev & _).
    set (k1 := if decide (length (tkeys pt) = 2 * T - 1) then S k else k) in *.
    assert (k1 <= S k) as Hk1 by (subst k1; case_decide; lia).
    destruct (IH b1 h1 pt1 k1 fuel Hok1) as (b' & h' & pt' & k' & Hall & Hok' & Hk' & Hin');
      [lia|].
    exists b', h', pt', k'. split_and!; [|done|cbn [length]; lia|].
    + cbn [insert_each prevs_of]. erewrite bind_ok; [|apply Hrun; lia]. cbn [snd fst].
      erewrite bind_ok; [|exact Hall]. cbn [fst snd]. unfold ret.
      by rewrite Hprev, Hin1.
    + cbn [foldl]. by rewrite Hin', Hin1.
Qed.

End Degree.

End Runs.

(** ** Search on a leaf, and runs of inserts *)

Section RunClaims.
Context {item : Type}.
Variable compare : item -> item -> Z.
Local Abbreviation heap := (heap item).
Local Abbreviation tree := (tree item).
Local Abbreviation upsert_all := (foldl (fun l x => upsert compare x l)).

(** X7: [search] for an absent key on a tree whose root is a leaf (the
    empty tree included) returns absent when the key is larger than
    every item of the leaf, and panics with an index out of range when
    some item is larger than the key: it then indexes the nil [children]
    of the leaf. *)
Theorem search_leaf_absent (tz : Z) (h : heap) a (ks : list item) x fuel :
  compare_ok compare ->
  repr tz h (TNode a true ks []) ->
  (forall c, c ∈ ks -> compare x c <> equal) ->
  (Forall (fun c => lt compare c x) ks ->
   search compare (S fuel) (Some a) x h = Ok (None, h)) /\
  ((exists c, c ∈ ks /\ lt compare x c) ->
   search compare (S fuel) (Some a) x h = Panic IndexOutOfRange).
Proof.
  intros Hcmp Hr Habsent.
  pose proof Hr as (nd & Ha & (Hlf & Hn & Hcap & Hits & Hcs & _) & _)%repr_inv.
  destruct (scan_ok compare x (items nd) ks Hits) as (st & Hscan & Hat).
  assert (search compare (S fuel) (Some a) x h =
          match st with
          | AtEqual i _ => lift (index (items nd) i) h
          | AtLess i => Panic IndexOutOfRange
          | AtEnd _ => Ok (None, h)
          end) as ->.
  { cbn [search]. rewrite (bind_ok _ _ _ _ _ (deref_ok _ _ _ Ha)).
    replace (Z.to_nat (n nd)) with (length ks) by lia.
    unfold bind at 1, lift at 1. rewrite Hscan. destruct st as [i c|i|i]; [done| |].
    - rewrite Hcs. unfold bind, lift, index. destruct (i <? 0)%Z; [done|].
      by rewrite lookup_nil.
    - by rewrite Hlf. }
  destruct Hat as [k1 c' k2 -> Hk1 Heq|k1 c' k2 -> Hk1 Hless|Hall].
  - destruct (Habsent c'); [set_solver|done].
  - split; [|done]. intros Hbelow. rewrite Forall_forall in Hbelow.
    destruct (lt_asym compare Hcmp x c'); [done|]. apply Hbelow. set_solver.
  - split; [done|]. intros (c & Hc & Hlt). rewrite Forall_forall in Hall.
    destruct (Hall c Hc) as [_ Hnl]. done.
Qed.

(** X8: after [newBTree(t)], for a [t] from 2 to [max_degree], and at
    most [2t-1] inserts the root is still
    a leaf, and [search(x)] for every inserted [x] returns an inserted
    item that compares equal to [x]; the tree is left as it was.  Fuel 2
    is enough. *)
Theorem search_after_few_inserts (tz : Z) (xs : list item) x (h0 : heap) fuel :
  compare_ok compare ->
  (2 <= tz)%Z -> (tz <= max_degree)%Z ->
  (Z.of_nat (length xs) <= 2 * tz - 1)%Z -> 2 <= fuel ->
  x ∈ xs ->
  exists b h y,
    build compare fuel tz xs h0 = Ok (b, h) /\
    btree_search compare fuel b x h = Ok (Some y, h) /\
    compare x y = equal /\ y ∈ xs.
Proof.
  intros Hcmp Ht Hmax Hlen Hfuel Hx.
  destruct (newBTree_ok compare (Z.to_nat tz) h0 ltac:(lia) ltac:(lia)) as [Hnew Hok].
  destruct (insert_all_leaf compare Hcmp (Z.to_nat tz) ltac:(lia) ltac:(lia) xs _ _ _ fuel Hok)
    as (b & h & pt & Hrun & Hok' & Hin); [cbn [inorder interleave fmap list_fmap length]; lia|done|].
  rewrite Z2Nat.id in Hnew, Hrun, Hok' by lia.
  destruct (upsert_all_has compare Hcmp xs [] x Hx) as (y & Hy & Hxy).
  cbn [inorder interleave fmap list_fmap] in Hin.
  exists b, h, y. split_and!; [|  |done|].
  - unfold build. erewrite bind_ok; [|exact Hnew]. exact Hrun.
  - destruct Hok' as (_ & Hroot & Hr & _ & Hwf & Hs & _).
    unfold btree_search. rewrite Hroot.
    destruct (wf_one_leaf _ _ _ _ Hr Hwf) as [Hleaf _].
    apply (search_full_spec compare Hcmp tz h fuel pt x y); try done.
    + unfold all_full. destruct pt as [a lf ks cs]. cbn [tleaf] in Hleaf. subst lf.
      apply repr_inv in Hr as (nd & _ & (_ & _ & _ & _ & _ & ->%fmap_nil_inv) & _).
      cbn [nodes fmap list_fmap mjoin list_join]. by apply Forall_singleton.
    + pose proof (wf_height tz h 1 pt 0%Z Hr Hwf). lia.
    + apply find_eq_sorted; try done. by rewrite Hin.
  - apply (upsert_all_elem compare) in Hy as [Hy|Hy]; [by apply elem_of_nil in Hy|done].
Qed.

(** X10: the first three phases of [TestBtreeBasic], for every list of
    items with pairwise different keys (every shuffle of the test's
    numbers is one) and every [t] from 2 to [max_degree].  The new tree passes
    [checkInvariances] with [len] 0; every insert of the first round
    returns absent, after which the tree passes the check and [len] is
    the number of items; every insert of the second round returns the
    item stored in the first, after which the tree passes the check and
    [len] is unchanged.  Nothing panics; fuel [2 * len(nums) + 2] is
    enough. *)
Theorem inserts_then_reinserts (tz : Z) (nums : list item) (h : heap) fuel :
  compare_ok compare ->
  (2 <= tz)%Z -> (tz <= max_degree)%Z ->
  distinct_keys compare nums -> 2 * length nums + 2 <= fuel ->
  exists b0 h0 b1 h1 b2 h2,
    newBTree tz h = Ok (b0, h0) /\
    checkInvariances compare fuel b0 h0 = Ok (None, h0) /\ len b0 = 0%Z /\
    insert_each compare fuel b0 nums h0 =
      Ok ((replicate (length nums) None, b1), h1) /\
    checkInvariances compare fuel b1 h1 = Ok (None, h1) /\
    len b1 = Z.of_nat (length nums) /\
    insert_each compare fuel b1 nums h1 = Ok ((Some <$> nums, b2), h2) /\
    checkInvariances compare fuel b2 h2 = Ok (None, h2) /\
    len b2 = Z.of_nat (length nums).
Proof.
  intros Hcmp Ht Hmax Hd Hfuel.
  destruct (newBTree_ok compare (Z.to_nat tz) h ltac:(lia) ltac:(lia)) as [Hnew Hok0].
  destruct (insert_each_spec compare Hcmp (Z.to_nat tz) ltac:(lia) ltac:(lia) nums _ _ _ _ fuel Hok0)
    as (b1 & h1 & pt1 & k1 & Hrun1 & Hok1 & Hk1 & Hin1); [lia|].
  destruct (insert_each_spec compare Hcmp (Z.to_nat tz) ltac:(lia) ltac:(lia) nums _ _ _ _ fuel Hok1)
    as (b2 & h2 & pt2 & k2 & Hrun2 & Hok2 & Hk2 & Hin2); [lia|].
  rewrite Z2Nat.id in Hnew, Hok0, Hrun1, Hok1, Hok2 by lia.
  cbn [inorder interleave fmap list_fmap] in Hrun1, Hin1.
  destruct (prevs_of_fresh compare nums [] Hd) as [Hprev1 Hlen1];
    [by intros ? ? _ ?%elem_of_nil|].
  rewrite Hprev1 in Hrun1. rewrite <- Hin1 in Hlen1. cbn [length] in Hlen1.
  pose proof Hok1 as (_ & _ & _ & _ & _ & Hs1 & Hl1).
  destruct (prevs_of_stored compare Hcmp nums (inorder pt1) Hs1) as [Hprev2 Hsame].
  { intros x Hx. rewrite Hin1. by apply (upsert_all_distinct compare). }
  rewrite Hprev2 in Hrun2. rewrite Hsame in Hin2.
  pose proof Hok2 as (_ & _ & _ & _ & _ & _ & Hl2).
  eexists _, _, b1, h1, b2, h2. split; [exact Hnew|].
  split; [by apply (checkInvariances_passes compare tz _ _ _ 1 fuel Hcmp Hok0); lia|].
  split; [done|]. split; [exact Hrun1|].
  split; [by apply (checkInvariances_passes compare tz _ _ _ k1 fuel Hcmp Hok1); lia|].
  split; [lia|]. split; [exact Hrun2|].
  split; [by apply (checkInvariances_passes compare tz _ _ _ k2 fuel Hcmp Hok2); lia|].
  rewrite Hl2, Hin2. lia.
Qed.

(** X11: the items a tree holds do not depend on the order of the
    inserts.  For two lists that are permutations of each other, with
    pairwise different keys, the trees built from them (with a minimum
    degree from 2 to [max_degree]) have the same
    [len], and the in-order traversal of [checkInvariances] collects the
    same ascending sequence from both of them, a permutation of the
    inserted items.  (The shape of the two trees may differ.) *)
Theorem insertion_order_irrelevant (tz : Z) (xs ys : list item) (h0 h0' : heap) fuel :
  compare_ok compare ->
  (2 <= tz)%Z -> (tz <= max_degree)%Z ->
  distinct_keys compare xs -> xs ≡ₚ ys -> length xs + 2 <= fuel ->
  exists b1 h1 b2 h2 l,
    build compare fuel tz xs h0 = Ok (b1, h1) /\
    build compare fuel tz ys h0' = Ok (b2, h2) /\
    traverseItems fuel (root b1) [] h1 = Ok (Some <$> l, h1) /\
    traverseItems fuel (root b2) [] h2 = Ok (Some <$> l, h2) /\
    l ≡ₚ xs /\ StronglySorted (lt compare) l /\
    len b1 = len b2.
Proof.
  intros Hcmp Ht Hmax Hd Hperm Hfuel.
  pose proof (distinct_keys_perm compare Hcmp xs ys Hperm Hd) as Hd'.
  pose proof (Permutation_length Hperm) as Hlen.
  destruct (newBTree_ok compare (Z.to_nat tz) h0 ltac:(lia) ltac:(lia)) as [Hnew1 Hok01].
  destruct (newBTree_ok compare (Z.to_nat tz) h0' ltac:(lia) ltac:(lia)) as [Hnew2 Hok02].
  destruct (insert_all_spec compare Hcmp (Z.to_nat tz) ltac:(lia) ltac:(lia) xs _ _ _ _ fuel Hok01)
    as (b1 & h1 & pt1 & k1 & Hrun1 & Hok1 & Hk1 & Hin1); [lia|].
  destruct (insert_all_spec compare Hcmp (Z.to_nat tz) ltac:(lia) ltac:(lia) ys _ _ _ _ fuel Hok02)
    as (b2 & h2 & pt2 & k2 & Hrun2 & Hok2 & Hk2 & Hin2); [lia|].
  rewrite Z2Nat.id in Hnew1, Hnew2, Hrun1, Hrun2, Hok1, Hok2 by lia.
  cbn [inorder interleave fmap list_fmap] in Hin1, Hin2.
  pose proof Hok1 as (_ & Hroot1 & Hr1 & _ & Hwf1 & Hs1 & Hl1).
  pose proof Hok2 as (_ & Hroot2 & Hr2 & _ & Hwf2 & Hs2 & Hl2).
  assert (inorder pt1 ≡ₚ xs) as Hp1.
  { rewrite Hin1. apply (upsert_all_perm compare xs [] Hd). by intros ? ? _ ?%elem_of_nil. }
  assert (inorder pt2 ≡ₚ ys) as Hp2.
  { rewrite Hin2. apply (upsert_all_perm compare ys [] Hd'). by intros ? ? _ ?%elem_of_nil. }
  assert (inorder pt1 = inorder pt2) as Hsame.
  { apply (StronglySorted_unique_strong (lt compare)); try done.
    - intros x1 x2 _ _ H12 H21. destruct (lt_asym compare Hcmp _ _ H12 H21).
    - by rewrite Hp1, Hp2. }
  exists b1, h1, b2, h2, (inorder pt1). split_and!; try done.
  - unfold build. erewrite bind_ok; [|exact Hnew1]. exact Hrun1.
  - unfold build. erewrite bind_ok; [|exact Hnew2]. exact Hrun2.
  - rewrite Hroot1, (traverseItems_spec tz h1 fuel pt1 []); [done|]. split; [done|].
    pose proof (wf_height tz h1 k1 pt1 0%Z Hr1 Hwf1). lia.
  - rewrite Hroot2, Hsame, (traverseItems_spec tz h2 fuel pt2 []); [done|]. split; [done|].
    pose proof (wf_height tz h2 k2 pt2 0%Z Hr2 Hwf2). lia.
  - rewrite Hl1, Hl2. by rewrite Hsame.
Qed.

(** X15: what one [insert] does to the contents.  In every state of a
    tree, the in-order traversal after [insert(x)] is the traversal
    before it with [x] put in its sorted place, in place of the item
    equal to [x] if there is one: [x] is stored afterwards, every other
    item that was stored before still is, and nothing else appeared.  The minimum degree is one that a tree
    can have, from 2 to [max_degree]: [newBTree] returns for no other. *)
Theorem insert_updates_contents (tz : Z) b (h : heap) (pt : tree) k x fuel :
  compare_ok compare -> (2 <= tz)%Z -> (tz <= max_degree)%Z ->
  tree_ok compare tz b h pt k -> S k <= fuel ->
  exists prev b' h',
    btree_insert compare fuel b x h = Ok ((prev, b'), h') /\
    traverseItems fuel (root b) [] h = Ok (Some <$> inorder pt, h) /\
    traverseItems fuel (root b') [] h' =
      Ok (Some <$> upsert compare x (inorder pt), h') /\
    x ∈ upsert compare x (inorder pt) /\
    (forall y, y ∈ inorder pt -> compare x y <> equal ->
               y ∈ upsert compare x (inorder pt)) /\
    (forall y, y ∈ upsert compare x (inorder pt) -> y = x \/ y ∈ inorder pt).
Proof.
  intros Hcmp Ht Hmax Hok Hfuel. pose proof Hok as (_ & Hroot & Hr & _ & Hwf & _).
  rewrite <- (Z2Nat.id tz) in Hok by lia.
  destruct (btree_insert_spec compare Hcmp (Z.to_nat tz) ltac:(lia) ltac:(lia) b h pt k x Hok)
    as (prev & b' & h' & pt' & Hrun & Hok' & Hin & _).
  rewrite Z2Nat.id in Hok' by lia.
  destruct Hok' as (_ & Hroot' & Hr' & _ & Hwf' & _).
  exists prev, b', h'. split_and!.
  - by apply Hrun.
  - rewrite Hroot, (traverseItems_spec tz h fuel pt []); [done|]. split; [done|].
    pose proof (wf_height tz h k pt 0%Z Hr Hwf). lia.
  - rewrite Hroot', <- Hin, (traverseItems_spec tz h' fuel pt' []); [done|].
    split; [done|].
    pose proof (wf_height tz h' _ pt' 0%Z Hr' Hwf'). case_decide; lia.
  - apply upsert_contains.
  - intros y Hy Hne. by apply upsert_keeps.
  - apply upsert_elem.
Qed.

End RunClaims.

(** ** The depth of the tree *)

Section Depth.
Context {item : Type}.
Local Abbreviation heap := (heap item).
Local Abbreviation tree := (tree item).

Lemma interleave_size {A} (ls : list (list A)) : forall ks,
  length ls = S (length ks) ->
  S (length (interleave ls ks)) = sum_list ((fun l => S (length l)) <$> ls).
Proof.
  induction ls as [|l ls IH]; intros ks Hlen; [done|].
  destruct ks as [|k ks]; cbn [interleave fmap list_fmap].
  - destruct ls; [cbn; unfold id; lia|done].
  - change (sum_list (S (length l) :: ((fun l => S (length l)) <$> ls)))
      with (S (length l) + sum_list ((fun l => S (length l)) <$> ls)).
    rewrite length_app. cbn [length]. rewrite <- (IH ks) by (cbn [length] in Hlen; lia).
    lia.
Qed.

Lemma sum_list_at_least (m : nat) (ns : list nat) :
  Forall (fun x => m <= x) ns -> length ns * m <= sum_list ns.
Proof.
  induction 1 as [|x ns Hx _ IH]; [cbn; lia|].
  change (sum_list (x :: ns)) with (x + sum_list ns).
  cbn [length]. rewrite Nat.mul_succ_l. lia.
Qed.

Lemma kids_size (T j : nat) (h : heap) a (ks : list item) (cs : list tree) :
  repr (Z.of_nat T) h (TNode a false ks cs) ->
  Forall (fun c => T ^ j <= S (length (inorder c))) cs ->
  S (length ks) * T ^ j <= S (length (inorder (TNode a false ks cs))).
Proof.
  intros (nd & _ & (_ & _ & _ & _ & _ & _ & Hlen) & _)%repr_inv Hcs.
  rewrite length_fmap in Hlen. cbn [inorder].
  rewrite interleave_size by (by rewrite length_fmap).
  rewrite <- list_fmap_compose, <- Hlen.
  rewrite <- (length_fmap ((fun l => S (length l)) ∘ inorder) cs).
  apply sum_list_at_least.
  apply Forall_fmap. eapply Forall_impl; [exact Hcs|]. done.
Qed.

Lemma wf_size (T : nat) (h : heap) k : forall pt : tree,
  repr (Z.of_nat T) h pt -> wf (Z.of_nat T) k (Z.of_nat T - 1) pt ->
  T ^ k <= S (length (inorder pt)).
Proof.
  induction k as [|k IH]; intros [a lf ks cs] Hr Hwf; [done|].
  destruct Hwf as [Hb Hkids]. cbn [tkeys tleaf tkids] in *. destruct lf.
  - subst k. apply repr_inv in Hr as (nd & _ & (_ & _ & _ & _ & _ & ->%fmap_nil_inv) & _).
    rewrite inorder_leaf. cbn [Nat.pow]. lia.
  - etrans; [|apply (kids_size T k h a ks cs Hr)].
    + cbn [Nat.pow]. apply Nat.mul_le_mono_r. lia.
    + apply repr_inv in Hr as (nd & _ & _ & Hr).
      rewrite Forall_forall in Hr, Hkids |- *. intros c Hc. apply IH; auto.
Qed.

Lemma root_size (T : nat) (h : heap) k (pt : tree) :
  repr (Z.of_nat T) h pt -> wf (Z.of_nat T) (S k) 0 pt ->
  T ^ k <= S (length (inorder pt)).
Proof.
  destruct pt as [a lf ks cs]. intros Hr [Hb Hkids]. cbn [tkeys tleaf tkids] in *.
  destruct lf.
  - subst k. cbn [Nat.pow]. lia.
  - etrans; [|apply (kids_size T k h a ks cs Hr)].
    + lia.
    + apply repr_inv in Hr as (nd & _ & _ & Hr).
      rewrite Forall_forall in Hr, Hkids |- *. intros c Hc. apply (wf_size T h); auto.
Qed.

Variable compare : item -> item -> Z.

(** X12: the tree is shallow.  In every state of a tree with minimum
    degree [t] that holds [len] items, a leaf on level [l] (the root
    being on level 1) has [t^(l-1) <= len + 1], so every leaf is at most
    [log_t(len + 1)] levels below the root; and [insert] returns for
    every recursion budget [fuel] with [len + 1 < t^(fuel-1)], the
    minimum degree being one that a tree can have, at most
    [max_degree]. *)
Theorem depth_logarithmic (tz : Z) b (h : heap) (pt : tree) k :
  compare_ok compare -> (2 <= tz)%Z -> tree_ok compare tz b h pt k ->
  Forall (fun l => (tz ^ (l - 1) <= len b + 1)%Z) (leaf_levels 1 pt) /\
  forall x fuel, (tz <= max_degree)%Z ->
    (len b + 1 < tz ^ (Z.of_nat fuel - 1))%Z ->
    exists prev b' h', btree_insert compare fuel b x h = Ok ((prev, b'), h').
Proof.
  intros Hcmp Ht Hok. pose proof Hok as (_ & _ & Hr & _ & Hwf & _ & Hlen).
  assert (tz ^ (Z.of_nat k - 1) <= len b + 1)%Z as Hk.
  { destruct k as [|k]; [done|].
    rewrite <- (Z2Nat.id tz) in Hr, Hwf |- * by lia.
    pose proof (root_size (Z.to_nat tz) h k pt Hr Hwf) as Hsize.
    replace (Z.of_nat (S k) - 1)%Z with (Z.of_nat k) by lia.
    rewrite <- Nat2Z.inj_pow, Hlen. lia. }
  split.
  - eapply Forall_impl; [apply (wf_leaf_levels tz h k pt 0%Z 1%Z Hr Hwf)|].
    intros l ->. by replace (1 + Z.of_nat k - 1 - 1)%Z with (Z.of_nat k - 1)%Z by lia.
  - intros x fuel Hmax Hfuel.
    assert (S k <= fuel) as Hdeep.
    { destruct (decide (S k <= fuel)) as [|Hshort]; [done|]. exfalso.
      destruct fuel as [|fuel].
      - change (Z.of_nat 0 - 1)%Z with (-1)%Z in Hfuel.
        rewrite Z.pow_neg_r in Hfuel by lia. lia.
      - assert (tz ^ (Z.of_nat (S fuel) - 1) <= tz ^ (Z.of_nat k - 1))%Z; [|lia].
        apply Z.pow_le_mono_r; lia. }
    rewrite <- (Z2Nat.id tz) in Hok by lia.
    destruct (btree_insert_spec compare Hcmp (Z.to_nat tz) ltac:(lia) ltac:(lia) b h pt k x Hok)
      as (prev & b' & h' & pt' & Hrun & _).
    exists prev, b', h'. by apply Hrun.
Qed.

End Depth.

(** ** What insert leaves alone *)

Section Frame.
Context {item : Type}.
Variable compare : item -> item -> Z.
Hypothesis Hcmp : compare_ok compare.
Variable T : nat.
Hypothesis HT : 2 <= T.
Hypothesis HTmax : (Z.of_nat T <= max_degree)%Z.
Local Abbreviation node := (node item).
Local Abbreviation heap := (heap item).
Local Abbreviation tree := (tree item).

Lemma growRoot_frame b (h : heap) (pt : tree) k b1 h1 :
  tree_ok compare (Z.of_nat T) b h pt k ->
  length (tkeys pt) = 2 * T - 1 ->
  growRoot b h = Ok (b1, h1) ->
  frame [taddr pt] h h1.
Proof.
  intros (Ht & Hroot & Hr & Hnd & Hwf & Hs & Hlen) Hfull Hgrow.
  destruct pt as [a lf ks cs]. cbn [tkeys tleaf tkids taddr] in *.
  pose proof (fun x => repr_addrs_lt _ _ _ x Hr) as Hlt.
  set (nd0 := mkNode false 0 (replicate (2 * T - 1) (@None item))
                (<[0 := Some a]> (replicate (2 * T) None))).
  assert (repr (Z.of_nat T) (h ++ [nd0]) (TNode (length h) false [] [TNode a lf ks cs])) as Hr0.
  { econstructor; [by apply list_lookup_middle| |].
    - subst nd0. repeat split; cbn [isLeaf n items children]; try done.
      + rewrite length_replicate. lia.
      + rewrite length_insert, length_replicate. lia.
      + unfold slots_hold. cbn [fmap list_fmap length taddr].
        destruct T as [|T']; [lia|]. replace (2 * S T') with (S (S (2 * T'))) by lia.
        done.
    - apply Forall_cons. split; [|done]. by apply repr_alloc. }
  assert (NoDup (addrs (TNode (length h) false [] [TNode a lf ks cs]))) as Hnd0.
  { cbn [addrs fmap list_fmap mjoin list_join]. rewrite app_nil_r.
    apply NoDup_cons. split; [|done].
    intros Hin. apply Hlt in Hin. lia. }
  destruct (splitChild_spec T (h ++ [nd0]) (length h) [] [] [] [] a lf ks cs)
    as (m & h1' & _ & Hsplit & _ & _ & _ & Hframe1); try done; try (cbn; lia).
  assert (growRoot b h = Ok (mkBTree (Some (length h)) (Z.of_nat T) (len b), h1')) as Hgrow'.
  { unfold growRoot. rewrite Ht, Hroot.
    erewrite bind_ok; [|apply newNode_ok; [lia|done]]. cbn [root].
    erewrite bind_ok.
    2:{ eapply update_ok; [by apply list_lookup_middle|]. cbn [children].
        rewrite assign_ok by (rewrite length_replicate; lia). reflexivity. }
    rewrite heap_set_last. cbn [t len].
    erewrite bind_ok; [|exact Hsplit]. done. }
  rewrite Hgrow' in Hgrow. injection Hgrow as <- <-.
  destruct Hframe1 as [Hl Hsame]. rewrite length_app in Hl, Hsame. cbn [length] in Hl, Hsame.
  split; [lia|]. intros x Hx Hxa. rewrite Hsame; [by rewrite lookup_app_l|lia|].
  intros [->|Hin]%elem_of_cons; [lia|]. done.
Qed.

Lemma addrs_halves a n (cs : list tree) j b :
  b ∈ (a :: mjoin (addrs <$> take j cs)) ++ n :: mjoin (addrs <$> drop j cs) ->
  b = n \/ b ∈ a :: mjoin (addrs <$> cs).
Proof.
  intros [Hb|Hb]%elem_of_app.
  - right. apply elem_of_cons in Hb as [->|Hb]; [left|right].
    apply elem_of_addrs_kids in Hb as (c & Hc & Hb). apply elem_of_addrs_kids.
    exists c. split; [|done]. by apply (subseteq_take j cs).
  - apply elem_of_cons in Hb as [->|Hb]; [by left|right; right].
    apply elem_of_addrs_kids in Hb as (c & Hc & Hb). apply elem_of_addrs_kids.
    exists c. split; [|done]. by apply (subseteq_drop j cs).
Qed.

Lemma btree_insert_frame b (h : heap) (pt : tree) k x fuel r h' :
  tree_ok compare (Z.of_nat T) b h pt k -> S k <= fuel ->
  btree_insert compare fuel b x h = Ok (r, h') ->
  frame (addrs pt) h h'.
Proof.
  intros Hok Hfuel Hins. pose proof Hok as (Ht & Hroot & Hr & Hnd & Hwf & Hs & Hlen).
  destruct pt as [a lf ks cs]. cbn [tkeys taddr] in *.
  pose proof Hr as (nd & Ha & (Hlf & Hn & _) & _)%repr_inv.
  destruct (decide (length ks = 2 * T - 1)) as [Hfull|Hroom].
  - destruct (growRoot_spec compare T b h (TNode a lf ks cs) k ltac:(lia) HTmax Hok Hfull)
      as (m & h1 & Hm & Hgrow & Hok1 & Hin1 & Hlen1).
    cbn [tkeys taddr tleaf tkids] in *.
    pose proof (growRoot_frame b h (TNode a lf ks cs) k _ _ Hok Hfull Hgrow) as Hframe0.
    set (pt1 := TNode (length h) false [m] _) in *.
    set (b1 := mkBTree (Some (length h)) (Z.of_nat T) (len b)) in *.
    pose proof Hok1 as (_ & _ & Hr1 & Hnd1 & Hwf1 & Hs1 & _).
    destruct (insert_spec compare Hcmp T ltac:(lia) HTmax (S k) h1 pt1 0%Z x)
      as (prev & h'' & pt' & Hrun & Hpost); try done.
    { subst pt1. cbn [tkeys length]. lia. }
    destruct Hpost as (_ & _ & _ & _ & _ & _ & Hframe1 & _).
    assert (h' = h'') as ->.
    { unfold btree_insert in Hins. rewrite Hroot in Hins.
      rewrite (bind_ok _ _ _ _ _ (deref_ok _ _ _ Ha)) in Hins.
      destruct (Z.eqb_spec (n nd) (2 * t b - 1)) as [_|Hne]; [|lia].
      erewrite bind_ok in Hins; [|exact Hgrow].
      erewrite bind_ok in Hins; [|apply Hrun; lia]. unfold ret in Hins. congruence. }
    eapply frame_trans; [|exact Hframe1|].
    + eapply frame_mono; [exact Hframe0|]. cbn [taddr addrs]. set_solver.
    + subst pt1. intros c Hc. cbn [addrs fmap list_fmap mjoin list_join] in Hc.
      rewrite app_nil_r in Hc. apply elem_of_cons in Hc as [->|Hc]; [right; lia|].
      apply addrs_halves in Hc as [->|Hc]; [right; lia|by left].
  - assert (length ks < 2 * T - 1) as Hlt.
    { destruct k; [done|]. destruct Hwf as [? _]. cbn [tkeys] in *. lia. }
    destruct (insert_spec compare Hcmp T ltac:(lia) HTmax k h (TNode a lf ks cs) 0%Z x)
      as (prev & h'' & pt' & Hrun & Hpost); try done.
    destruct Hpost as (_ & _ & _ & _ & _ & _ & Hframe1 & _).
    assert (h' = h'') as ->; [|done].
    unfold btree_insert in Hins. rewrite Hroot in Hins.
    rewrite (bind_ok _ _ _ _ _ (deref_ok _ _ _ Ha)) in Hins.
    destruct (Z.eqb_spec (n nd) (2 * t b - 1)) as [Heq|_]; [lia|].
    unfold bind at 1, ret at 1 in Hins. rewrite Hroot, Ht in Hins.
    erewrite bind_ok in Hins; [|apply Hrun; lia]. unfold ret in Hins. congruence.
Qed.

End Frame.

Section FrameClaim.
Context {item : Type}.
Variable compare : item -> item -> Z.
Local Abbreviation heap := (heap item).
Local Abbreviation tree := (tree item).

(** X13: [insert] writes only to the nodes of its own tree and to nodes
    it allocates.  The heap never shrinks, every node that was there
    before and does not belong to the tree is unchanged, and so every
    other tree of the heap that shares no node with this one, whatever
    its minimum degree, is still the same tree afterwards.  The minimum degree is one that a tree
    can have, from 2 to [max_degree]: [newBTree] returns for no other. *)
Theorem insert_leaves_other_nodes (tz : Z) b (h : heap) (pt : tree) k x fuel :
  compare_ok compare -> (2 <= tz)%Z -> (tz <= max_degree)%Z ->
  tree_ok compare tz b h pt k -> S k <= fuel ->
  exists prev b' h',
    btree_insert compare fuel b x h = Ok ((prev, b'), h') /\
    length h <= length h' /\
    (forall a, a < length h -> a ∉ addrs pt -> h' !! a = h !! a) /\
    (forall tz2 (pt2 : tree),
       repr tz2 h pt2 -> (forall a, a ∈ addrs pt2 -> a ∉ addrs pt) ->
       repr tz2 h' pt2).
Proof.
  intros Hcmp Ht Hmax Hok Hfuel. rewrite <- (Z2Nat.id tz) in Hok by lia.
  destruct (btree_insert_spec compare Hcmp (Z.to_nat tz) ltac:(lia) ltac:(lia) b h pt k x Hok)
    as (prev & b' & h' & pt' & Hrun & _).
  specialize (Hrun fuel Hfuel).
  pose proof (btree_insert_frame compare Hcmp (Z.to_nat tz) ltac:(lia) ltac:(lia)
                b h pt k x fuel _ _ Hok Hfuel Hrun) as Hframe.
  exists prev, b', h'. split; [done|]. destruct Hframe as [Hlen Hsame].
  split; [done|]. split; [done|].
  intros tz2 pt2 Hr2 Hdisj. by apply (repr_framed tz2 h h' (addrs pt) pt2).
Qed.

End FrameClaim.

(** ** splitChild keeps the items *)

(** X14: a split loses and reorders nothing.  Under the conditions of
    [splitChild] (a parent with room, its child [i] full) the subtree
    of the parent holds, after the call, the same in-order sequence of
    items as before: the median moved up between the two halves.  The minimum degree is one that a tree
    can have, from 2 to [max_degree]: [newBTree] returns for no other. *)
Theorem splitChild_keeps_order {item : Type} (tz : Z) (h : heap item) a k1 k2 cs1 cs2
  y lf cks ccs :
  (2 <= tz)%Z -> (tz <= max_degree)%Z ->
  repr tz h (TNode a false (k1 ++ k2) (cs1 ++ TNode y lf cks ccs :: cs2)) ->
  NoDup (addrs (TNode a false (k1 ++ k2) (cs1 ++ TNode y lf cks ccs :: cs2))) ->
  length cs1 = length k1 ->
  (Z.of_nat (length (k1 ++ k2)) < 2 * tz - 1)%Z ->
  Z.of_nat (length cks) = (2 * tz - 1)%Z ->
  exists median h' pt',
    splitChild (Some a) tz (Z.of_nat (length k1)) h = Ok (Some median, h') /\
    repr tz h' pt' /\ taddr pt' = a /\
    tkeys pt' = k1 ++ median :: k2 /\
    inorder pt' =
      inorder (TNode a false (k1 ++ k2) (cs1 ++ TNode y lf cks ccs :: cs2)).
Proof.
  intros Ht Hmax Hr Hnd Hcs1 Hroom Hfull.
  rewrite <- (Z2Nat.id tz) in Hr |- * by lia.
  destruct (splitChild_spec (Z.to_nat tz) h a k1 k2 cs1 cs2 y lf cks ccs)
    as (m & h' & Hm & Hrun & Hr' & _); try done; try lia.
  eexists m, h', _. split; [exact Hrun|]. split; [exact Hr'|].
  split; [done|]. split; [done|].
  rewrite (inorder_at a false k1 k2), (inorder_at a false k1 (m :: k2)) by done.
  pose proof Hr as (_ & _ & _ & Hkids)%repr_inv.
  apply Forall_app in Hkids as [_ [Hy _]%Forall_cons].
  apply repr_inv in Hy as (ynd & _ & (_ & _ & _ & _ & Hccs) & _).
  rewrite (inorder_halves (Z.to_nat tz) y (length h) lf cks ccs m); try done; try lia.
  - by rewrite after_split.
  - destruct lf.
    + by destruct Hccs as [_ ?%fmap_nil_inv].
    + destruct Hccs as (_ & _ & Hl). rewrite length_fmap in Hl. lia.
Qed.

(** ** Instances on the driver's items *)

Lemma search_sound_witness :
  search numItem_compare 1 (Some 2) 4%Z heap1234 = Ok (Some 4%Z, heap1234) /\
  heap1234 = heap1234 /\
  forall y, Some 4%Z = Some y ->
    numItem_compare 4%Z y = equal /\
    exists a nd i, heap1234 !! a = Some nd /\ (0 <= i < n nd)%Z /\
                   index (items nd) i = Ok (Some y).
Proof.
  split; [vm_compute; reflexivity|].
  apply (search_sound numItem_compare 1 (Some 2) 4%Z heap1234 (Some 4%Z) heap1234).
  vm_compute. reflexivity.
Defined.

Lemma build_1to8 :
  build numItem_compare 4 2 [1; 2; 3; 4; 5; 6; 7; 8]%Z [] =
  Ok (mkBTree (Some 1) 2 8, heap_1to8).
Proof. vm_compute. reflexivity. Qed.

Lemma tree_1to8_repr : repr 2 heap_1to8 tree_1to8.
Proof. unfold tree_1to8. concrete_repr. Defined.

Lemma tree_1to8_sorted : StronglySorted (lt numItem_compare) (inorder tree_1to8).
Proof. vm_compute. repeat constructor. Defined.

Lemma search_finds_in_full_tree_witness :
  compare_ok numItem_compare /\
  repr 2 heap_1to8 tree_1to8 /\
  StronglySorted (lt numItem_compare) (inorder tree_1to8) /\
  all_full 2 tree_1to8 /\ height tree_1to8 <= 2 /\
  8%Z ∈ inorder tree_1to8 /\ numItem_compare 8%Z 8%Z = equal /\
  search numItem_compare 2 (Some (taddr tree_1to8)) 8%Z heap_1to8 =
    Ok (Some 8%Z, heap_1to8).
Proof.
  assert (all_full 2 tree_1to8) as Hfull.
  { unfold all_full. cbn [tree_1to8 nodes fmap list_fmap mjoin list_join app].
    repeat (apply Forall_cons_2; [by cbn|]). apply Forall_nil_2. }
  assert (8%Z ∈ inorder tree_1to8) as Hin by (vm_compute; set_solver).
  split; [exact numItem_compare_ok|]. split; [exact tree_1to8_repr|].
  split; [exact tree_1to8_sorted|]. split; [exact Hfull|].
  split; [vm_compute; lia|]. split; [exact Hin|]. split; [reflexivity|].
  apply (search_finds_in_full_tree numItem_compare 2 heap_1to8 tree_1to8 8%Z 8%Z 2).
  - exact numItem_compare_ok.
  - exact tree_1to8_repr.
  - exact tree_1to8_sorted.
  - exact Hfull.
  - vm_compute. lia.
  - exact Hin.
  - reflexivity.
Defined.

Lemma leaf5_repr : repr 2 leaf5_heap (TNode 0 true [5]%Z []).
Proof. concrete_repr. Defined.

Lemma search_leaf_absent_witness :
  repr 2 leaf5_heap (TNode 0 true [5]%Z []) /\
  (forall c, c ∈ [5]%Z -> numItem_compare 3%Z c <> equal) /\
  (forall c, c ∈ [5]%Z -> numItem_compare 7%Z c <> equal) /\
  Forall (fun c => lt numItem_compare c 7%Z) [5]%Z /\
  (exists c, c ∈ [5]%Z /\ lt numItem_compare 3%Z c) /\
  search numItem_compare 1 (Some 0) 7%Z leaf5_heap = Ok (None, leaf5_heap) /\
  search numItem_compare 1 (Some 0) 3%Z leaf5_heap = Panic IndexOutOfRange.
Proof.
  assert (forall c, c ∈ [5]%Z -> numItem_compare 3%Z c <> equal) as H3.
  { intros c ->%list_elem_of_singleton. done. }
  assert (forall c, c ∈ [5]%Z -> numItem_compare 7%Z c <> equal) as H7.
  { intros c ->%list_elem_of_singleton. done. }
  assert (Forall (fun c => lt numItem_compare c 7%Z) [5]%Z) as Hbelow.
  { apply Forall_cons_2; [reflexivity|apply Forall_nil_2]. }
  assert (exists c, c ∈ [5]%Z /\ lt numItem_compare 3%Z c) as Habove.
  { exists 5%Z. split; [set_solver|reflexivity]. }
  split; [exact leaf5_repr|]. split; [exact H3|]. split; [exact H7|].
  split; [exact Hbelow|]. split; [exact Habove|]. split.
  - apply (search_leaf_absent numItem_compare 2 leaf5_heap 0 [5]%Z 7%Z 0
             numItem_compare_ok leaf5_repr H7); exact Hbelow.
  - apply (search_leaf_absent numItem_compare 2 leaf5_heap 0 [5]%Z 3%Z 0
             numItem_compare_ok leaf5_repr H3); exact Habove.
Defined.

Lemma traverseItems_inorder_witness :
  repr 2 heap_1to8 tree_1to8 /\ height tree_1to8 <= 2 /\
  traverseItems 2 (Some (taddr tree_1to8)) [] heap_1to8 =
    Ok ([] ++ (Some <$> inorder tree_1to8), heap_1to8).
Proof.
  split; [exact tree_1to8_repr|]. split; [vm_compute; lia|].
  apply (traverseItems_inorder 2 heap_1to8 tree_1to8 2 []).
  - exact tree_1to8_repr.
  - vm_compute. lia.
Defined.

Lemma checkInvariances_exact_witness :
  compare_ok numItem_compare /\
  t (mkBTree (Some 1) 2 8) = 2%Z /\
  root (mkBTree (Some 1) 2 8) = Some (taddr tree_1to8) /\
  repr 2 heap_1to8 tree_1to8 /\ height tree_1to8 <= 2 /\
  (checkInvariances numItem_compare 2 (mkBTree (Some 1) 2 8) heap_1to8 =
     Ok (None, heap_1to8) <->
   StronglySorted (lt numItem_compare) (inorder tree_1to8) /\
   occupancy 2 tree_1to8 /\ balanced tree_1to8).
Proof.
  split; [exact numItem_compare_ok|]. split; [reflexivity|]. split; [reflexivity|].
  split; [exact tree_1to8_repr|]. split; [vm_compute; lia|].
  apply (checkInvariances_exact numItem_compare 2 (mkBTree (Some 1) 2 8) heap_1to8
           tree_1to8 2).
  - exact numItem_compare_ok.
  - reflexivity.
  - reflexivity.
  - exact tree_1to8_repr.
  - vm_compute. lia.
Defined.

Lemma search_after_few_inserts_witness :
  compare_ok numItem_compare /\ (2 <= 2)%Z /\ (2 <= max_degree)%Z /\
  (Z.of_nat (length [5; 3; 8]%Z) <= 2 * 2 - 1)%Z /\ 2 <= 2 /\
  3%Z ∈ [5; 3; 8]%Z /\
  exists b h y,
    build numItem_compare 2 2 [5; 3; 8]%Z [] = Ok (b, h) /\
    btree_search numItem_compare 2 b 3%Z h = Ok (Some y, h) /\
    numItem_compare 3%Z y = equal /\ y ∈ [5; 3; 8]%Z.
Proof.
  assert (3%Z ∈ [5; 3; 8]%Z) as Hin by set_solver.
  split; [exact numItem_compare_ok|]. split; [lia|]. split; [exact degree_2_allocates|]. split; [cbn; lia|].
  split; [lia|]. split; [exact Hin|].
  apply (search_after_few_inserts numItem_compare 2 [5; 3; 8]%Z 3%Z [] 2).
  - exact numItem_compare_ok.
  - lia.
  - exact degree_2_allocates.
  - cbn. lia.
  - lia.
  - exact Hin.
Defined.

Lemma full_leaf_repr : repr 2 full_root_heap (TNode 0 true [1; 2; 3]%Z []).
Proof. concrete_repr. Defined.

Lemma insertLeaf_on_full_leaf_witness :
  repr 2 full_root_heap (TNode 0 true [1; 2; 3]%Z []) /\
  Z.of_nat (length [1; 2; 3]%Z) = (2 * 2 - 1)%Z /\
  Forall (passes numItem_compare 4%Z) [1; 2; 3]%Z /\
  numItem_compare 0%Z 1%Z = lessThan /\
  insertLeaf numItem_compare (Some 0) 4%Z full_root_heap = Panic IndexOutOfRange /\
  insertLeaf numItem_compare (Some 0) 0%Z full_root_heap =
    Ok (None,
        <[0 := mkNode true (2 * 2)
                 (Some <$> [] ++ 0%Z :: take (length [2; 3]%Z) [1; 2; 3]%Z) []]>
          full_root_heap).
Proof.
  assert (Forall (passes numItem_compare 4%Z) [1; 2; 3]%Z) as Hpass.
  { repeat (apply Forall_cons_2; [by split|]). apply Forall_nil_2. }
  destruct (insertLeaf_on_full_leaf numItem_compare 2 full_root_heap 0 [1; 2; 3]%Z 4%Z
              full_leaf_repr eq_refl) as [Hlast _].
  destruct (insertLeaf_on_full_leaf numItem_compare 2 full_root_heap 0 [1; 2; 3]%Z 0%Z
              full_leaf_repr eq_refl) as [_ Hfirst].
  split; [exact full_leaf_repr|]. split; [reflexivity|]. split; [exact Hpass|].
  split; [reflexivity|]. split.
  - exact (Hlast Hpass).
  - exact (Hfirst [] 1%Z [2; 3]%Z eq_refl (Forall_nil_2 _) eq_refl).
Defined.

Lemma distinct_5381 : distinct_keys numItem_compare [5; 3; 8; 1]%Z.
Proof.
  cbn [distinct_keys]. split_and!; try done;
    repeat (apply Forall_cons_2; [done|]); apply Forall_nil_2.
Defined.

Lemma inserts_then_reinserts_witness :
  compare_ok numItem_compare /\ (2 <= 2)%Z /\ (2 <= max_degree)%Z /\
  distinct_keys numItem_compare [5; 3; 8; 1]%Z /\
  2 * length [5; 3; 8; 1]%Z + 2 <= 10 /\
  exists b0 h0 b1 h1 b2 h2,
    newBTree 2 ([] : heap numItem) = Ok (b0, h0) /\
    checkInvariances numItem_compare 10 b0 h0 = Ok (None, h0) /\ len b0 = 0%Z /\
    insert_each numItem_compare 10 b0 [5; 3; 8; 1]%Z h0 =
      Ok ((replicate (length [5; 3; 8; 1]%Z) None, b1), h1) /\
    checkInvariances numItem_compare 10 b1 h1 = Ok (None, h1) /\
    len b1 = Z.of_nat (length [5; 3; 8; 1]%Z) /\
    insert_each numItem_compare 10 b1 [5; 3; 8; 1]%Z h1 =
      Ok ((Some <$> [5; 3; 8; 1]%Z, b2), h2) /\
    checkInvariances numItem_compare 10 b2 h2 = Ok (None, h2) /\
    len b2 = Z.of_nat (length [5; 3; 8; 1]%Z).
Proof.
  split; [exact numItem_compare_ok|]. split; [lia|]. split; [exact degree_2_allocates|]. split; [exact distinct_5381|].
  split; [cbn; lia|].
  apply (inserts_then_reinserts numItem_compare 2 [5; 3; 8; 1]%Z [] 10).
  - exact numItem_compare_ok.
  - lia.
  - exact degree_2_allocates.
  - exact distinct_5381.
  - cbn. lia.
Defined.

Lemma insertion_order_irrelevant_witness :
  compare_ok numItem_compare /\ (2 <= 2)%Z /\ (2 <= max_degree)%Z /\
  distinct_keys numItem_compare [5; 3; 8; 1]%Z /\
  [5; 3; 8; 1]%Z ≡ₚ [1; 8; 3; 5]%Z /\
  length [5; 3; 8; 1]%Z + 2 <= 6 /\
  exists b1 h1 b2 h2 l,
    build numItem_compare 6 2 [5; 3; 8; 1]%Z [] = Ok (b1, h1) /\
    build numItem_compare 6 2 [1; 8; 3; 5]%Z [] = Ok (b2, h2) /\
    traverseItems 6 (root b1) [] h1 = Ok (Some <$> l, h1) /\
    traverseItems 6 (root b2) [] h2 = Ok (Some <$> l, h2) /\
    l ≡ₚ [5; 3; 8; 1]%Z /\ StronglySorted (lt numItem_compare) l /\
    len b1 = len b2.
Proof.
  assert ([5; 3; 8; 1]%Z ≡ₚ [1; 8; 3; 5]%Z) as Hperm.
  { exact (Permutation_rev [5; 3; 8; 1]%Z). }
  split; [exact numItem_compare_ok|]. split; [lia|]. split; [exact degree_2_allocates|]. split; [exact distinct_5381|].
  split; [exact Hperm|]. split; [cbn; lia|].
  apply (insertion_order_irrelevant numItem_compare 2 [5; 3; 8; 1]%Z [1; 8; 3; 5]%Z [] [] 6).
  - exact numItem_compare_ok.
  - lia.
  - exact degree_2_allocates.
  - exact distinct_5381.
  - exact Hperm.
  - cbn. lia.
Defined.

Lemma depth_logarithmic_witness :
  compare_ok numItem_compare /\ (2 <= 2)%Z /\
  tree_ok numItem_compare 2 full_root_tree full_root_heap (TNode 0 true [1; 2; 3]%Z []) 1 /\
  Forall (fun l => (2 ^ (l - 1) <= len full_root_tree + 1)%Z)
    (leaf_levels 1 (TNode 0 true [1; 2; 3]%Z [])) /\
  forall x fuel, (2 <= max_degree)%Z ->
    (len full_root_tree + 1 < 2 ^ (Z.of_nat fuel - 1))%Z ->
    exists prev b' h',
      btree_insert numItem_compare fuel full_root_tree x full_root_heap =
        Ok ((prev, b'), h').
Proof.
  split; [exact numItem_compare_ok|]. split; [lia|]. split; [exact full_root_ok|].
  apply (depth_logarithmic numItem_compare 2 full_root_tree full_root_heap
           (TNode 0 true [1; 2; 3]%Z []) 1).
  - exact numItem_compare_ok.
  - lia.
  - exact full_root_ok.
Defined.

Lemma two_trees_ok :
  tree_ok numItem_compare 2 full_root_tree two_trees_heap (TNode 0 true [1; 2; 3]%Z []) 1.
Proof.
  unfold tree_ok. split_and!; try reflexivity.
  - concrete_repr.
  - apply NoDup_singleton.
  - simpl. lia.
  - simpl. repeat constructor.
Defined.

Lemma insert_leaves_other_nodes_witness :
  compare_ok numItem_compare /\ (2 <= 2)%Z /\ (2 <= max_degree)%Z /\
  tree_ok numItem_compare 2 full_root_tree two_trees_heap (TNode 0 true [1; 2; 3]%Z []) 1 /\
  2 <= 2 /\
  exists prev b' h',
    btree_insert numItem_compare 2 full_root_tree 4%Z two_trees_heap =
      Ok ((prev, b'), h') /\
    length two_trees_heap <= length h' /\
    (forall a, a < length two_trees_heap ->
       a ∉ addrs (TNode 0 true [1; 2; 3]%Z []) -> h' !! a = two_trees_heap !! a) /\
    (forall tz2 (pt2 : tree numItem),
       repr tz2 two_trees_heap pt2 ->
       (forall a, a ∈ addrs pt2 -> a ∉ addrs (TNode 0 true [1; 2; 3]%Z [])) ->
       repr tz2 h' pt2).
Proof.
  split; [exact numItem_compare_ok|]. split; [lia|]. split; [exact degree_2_allocates|]. split; [exact two_trees_ok|].
  split; [lia|].
  apply (insert_leaves_other_nodes numItem_compare 2 full_root_tree two_trees_heap
           (TNode 0 true [1; 2; 3]%Z []) 1 4%Z 2).
  - exact numItem_compare_ok.
  - lia.
  - exact degree_2_allocates.
  - exact two_trees_ok.
  - lia.
Defined.

Lemma splitChild_keeps_order_witness :
  (2 <= 2)%Z /\ (2 <= max_degree)%Z /\
  repr 2 heap_full_child
    (TNode 1 false ([] ++ []) ([] ++ TNode 0 true [1; 2; 3]%Z [] :: [])) /\
  NoDup (addrs (TNode 1 false (([] : list numItem) ++ [])
                  ([] ++ TNode 0 true [1; 2; 3]%Z [] :: []))) /\
  (Z.of_nat (length (([] : list numItem) ++ [])) < 2 * 2 - 1)%Z /\
  Z.of_nat (length [1; 2; 3]%Z) = (2 * 2 - 1)%Z /\
  exists median h' pt',
    splitChild (Some 1) 2 (Z.of_nat (length ([] : list numItem))) heap_full_child
      = Ok (Some median, h') /\
    repr 2 h' pt' /\ taddr pt' = 1 /\
    tkeys pt' = [] ++ median :: [] /\
    inorder pt' =
      inorder (TNode 1 false ([] ++ []) ([] ++ TNode 0 true [1; 2; 3]%Z [] :: [])).
Proof.
  split; [lia|]. split; [exact degree_2_allocates|]. split; [exact heap_full_child_repr|].
  split; [exact heap_full_child_nodup|]. split; [cbn; lia|]. split; [reflexivity|].
  apply (splitChild_keeps_order 2 heap_full_child 1 [] [] [] [] 0 true [1; 2; 3]%Z []).
  - lia.
  - exact degree_2_allocates.
  - exact heap_full_child_repr.
  - exact heap_full_child_nodup.
  - reflexivity.
  - cbn. lia.
  - reflexivity.
Defined.

Lemma insert_updates_contents_witness :
  compare_ok numItem_compare /\ (2 <= 2)%Z /\ (2 <= max_degree)%Z /\
  tree_ok numItem_compare 2 full_root_tree full_root_heap (TNode 0 true [1; 2; 3]%Z []) 1 /\
  2 <= 2 /\
  exists prev b' h',
    btree_insert numItem_compare 2 full_root_tree 4%Z full_root_heap =
      Ok ((prev, b'), h') /\
    traverseItems 2 (root full_root_tree) [] full_root_heap =
      Ok (Some <$> inorder (TNode 0 true [1; 2; 3]%Z []), full_root_heap) /\
    traverseItems 2 (root b') [] h' =
      Ok (Some <$> upsert numItem_compare 4%Z (inorder (TNode 0 true [1; 2; 3]%Z [])), h') /\
    4%Z ∈ upsert numItem_compare 4%Z (inorder (TNode 0 true [1; 2; 3]%Z [])) /\
    (forall y, y ∈ inorder (TNode 0 true [1; 2; 3]%Z []) ->
               numItem_compare 4%Z y <> equal ->
               y ∈ upsert numItem_compare 4%Z (inorder (TNode 0 true [1; 2; 3]%Z []))) /\
    (forall y, y ∈ upsert numItem_compare 4%Z (inorder (TNode 0 true [1; 2; 3]%Z [])) ->
               y = 4%Z \/ y ∈ inorder (TNode 0 true [1; 2; 3]%Z [])).
Proof.
  split; [exact numItem_compare_ok|]. split; [lia|]. split; [exact degree_2_allocates|]. split; [exact full_root_ok|].
  split; [lia|].
  apply (insert_updates_contents numItem_compare 2 full_root_tree full_root_heap
           (TNode 0 true [1; 2; 3]%Z []) 1 4%Z 2).
  - exact numItem_compare_ok.
  - lia.
  - exact degree_2_allocates.
  - exact full_root_ok.
  - lia.
Defined.
